(** * lush: the line editor, the tokenizer, the builtins and the pipeline
      executor of the Lunar Shell, embedded from [src/lush.c] and
      [src/lua_api.c].

    The C code works on NUL-terminated strings inside flat buffers and on
    pointers into them, so the embedding keeps exactly that: a buffer is a
    [list ascii], a pointer is an offset, an array is a list with as many
    entries as the C array has, and every access outside a buffer or an
    array is undefined behaviour, rendered as [None] (as [Undefined] in the
    tokenizer and the shell, whose results have three cases).

    The definitions come first: memory, editor, tokenizer, shell, the
    vocabulary for lines and the sample inputs.  The facts follow in the
    same order. *)

From stdpp Require Import base tactics option list strings.
From Stdlib Require Import ZArith Ascii Lia.

(** ** Flat memory and the libc string functions the shell uses *)

Module Mem.

Definition NUL : ascii := "000"%char.

(** [p[0]]: reading past the end of the object is undefined. *)
Definition load (m : list ascii) (p : nat) : option ascii := m !! p.

(** [p[0] = c]. *)
Definition store (m : list ascii) (p : nat) (c : ascii) : option (list ascii) :=
  if decide (p < length m)%nat then Some (<[p:=c]> m) else None.

(** [strlen] on the bytes that start at the pointer: it keeps reading until
    a NUL, and runs off the object when there is none. *)
Fixpoint strlen_from (l : list ascii) : option nat :=
  match l with
  | [] => None
  | c :: l' => if decide (c = NUL) then Some 0%nat else S <$> strlen_from l'
  end.

Definition strlen (m : list ascii) (p : nat) : option nat :=
  strlen_from (drop p m).

(** [memmove(m + dst, m + src, n)]: the [n] source bytes are read first, so
    overlapping ranges are fine; both ranges have to lie inside the object. *)
Definition memmove (m : list ascii) (dst src n : nat) : option (list ascii) :=
  if decide (src + n <= length m /\ dst + n <= length m)%nat
  then Some (take dst m ++ take n (drop src m) ++ drop (dst + n) m)
  else None.

(** The C string that starts at [p], as a Rocq string. *)
Fixpoint cstring_from (l : list ascii) : option string :=
  match l with
  | [] => None
  | c :: l' =>
      if decide (c = NUL) then Some EmptyString
      else String c <$> cstring_from l'
  end.

Definition cstring (m : list ascii) (p : nat) : option string :=
  cstring_from (drop p m).

(** A run of bytes without a terminator in it. *)
Definition nonzero (s : list ascii) : Prop := Forall (fun c => c <> NUL) s.

End Mem.

(** ** The raw-mode line editor: [lush_read_line] *)

Module Editor.
Import Mem.

Definition BUFFER_SIZE : nat := 1024.

(** What [getchar] returns at end of input. *)
Definition EOF : Z := (-1)%Z.

(** [lush_read_line]'s locals: [char *buffer] (a [calloc]ed block of
    [BUFFER_SIZE] bytes) and [int pos]. *)
Record editor := Editor { buffer : list ascii; pos : Z }.

(** [buffer[pos] = c] stores the [int] as a [char]. *)
Definition to_char (c : Z) : ascii := ascii_of_N (Z.to_N (c mod 256)).

(** [pos < strlen(buffer)] compares an [int] with a [size_t]: the [int] is
    converted to the unsigned type first. *)
Definition to_size_t (z : Z) : Z := (z mod 2 ^ 64)%Z.

(** [&buffer[i]] for an [int i]: a negative index leaves the block. *)
Definition index (i : Z) : option nat :=
  if decide (0 <= i)%Z then Some (Z.to_nat i) else None.

(** case 'C': right arrow *)
Definition right_arrow (e : editor) : option editor :=
  n ← strlen (buffer e) 0;
  if decide (to_size_t (pos e) < Z.of_nat n)%Z
  then Some (Editor (buffer e) (pos e + 1))
  else Some e.

(** case 'D': left arrow *)
Definition left_arrow (e : editor) : option editor :=
  if decide (pos e > 0)%Z then Some (Editor (buffer e) (pos e - 1)) else Some e.

(** case '3' followed by '~': delete *)
Definition forward_delete (e : editor) : option editor :=
  n ← strlen (buffer e) 0;
  if decide (to_size_t (pos e) < Z.of_nat n)%Z
  then
    dst ← index (pos e);
    src ← index (pos e + 1);
    k ← strlen (buffer e) src;
    b ← memmove (buffer e) dst src (k + 1);
    Some (Editor b (pos e))
  else Some e.

(** c == '\177': backspace *)
Definition backspace (e : editor) : option editor :=
  if decide (pos e > 0)%Z
  then
    dst ← index (pos e - 1);
    src ← index (pos e);
    k ← strlen (buffer e) src;
    b ← memmove (buffer e) dst src (k + 1);
    Some (Editor b (pos e - 1))
  else Some e.

(** the final [else]: any other value of [c] is put into the buffer *)
Definition insert_char (e : editor) (c : Z) : option editor :=
  if decide (pos e < Z.of_nat BUFFER_SIZE - 1)%Z
  then
    src ← index (pos e);
    dst ← index (pos e + 1);
    k ← strlen (buffer e) src;
    b ← memmove (buffer e) dst src (k + 1);
    b' ← store b src (to_char c);
    Some (Editor b' (pos e + 1))
  else Some e.

(** [getchar]: the next byte of standard input, [EOF] once it is used up. *)
Definition getchar (inp : list Z) : Z * list Z :=
  match inp with
  | [] => (EOF, [])
  | c :: rest => (c, rest)
  end.

Inductive step_result :=
  | Continue (e : editor) (inp : list Z)
  | Break (e : editor) (inp : list Z).

(** One round of the [while (true)] loop. *)
Definition step (e : editor) (inp : list Z) : option step_result :=
  let '(c, inp) := getchar inp in
  if decide (c = 27)%Z then
    let '(_, inp) := getchar inp in
    let '(k, inp) := getchar inp in
    if decide (k = 67)%Z then e' ← right_arrow e; Some (Continue e' inp)
    else if decide (k = 68)%Z then e' ← left_arrow e; Some (Continue e' inp)
    else if decide (k = 51)%Z then
      let '(t, inp) := getchar inp in
      if decide (t = 126)%Z
      then e' ← forward_delete e; Some (Continue e' inp)
      else Some (Continue e inp)
    else Some (Continue e inp)
  else if decide (c = 127)%Z then e' ← backspace e; Some (Continue e' inp)
  else if decide (c = 10)%Z then Some (Break e inp)
  else e' ← insert_char e c; Some (Continue e' inp).

(** The loop can go on for ever, so it is run for a number of rounds:
    [Returned] is the [return buffer] after the [break], [Spinning] says the
    loop is still going after [fuel] rounds, [Undefined] that a round left
    the buffer. *)
Inductive outcome :=
  | Returned (line : list ascii) (inp : list Z)
  | Spinning
  | Undefined.

Fixpoint read_loop (fuel : nat) (e : editor) (inp : list Z) : outcome :=
  match fuel with
  | O => Spinning
  | S fuel =>
      match step e inp with
      | None => Undefined
      | Some (Break e' inp') => Returned (buffer e') inp'
      | Some (Continue e' inp') => read_loop fuel e' inp'
      end
  end.

Definition lush_read_line (fuel : nat) (inp : list Z) : outcome :=
  read_loop fuel (Editor (replicate BUFFER_SIZE NUL) 0) inp.

(** The text of a returned line. *)
Definition line_text (o : outcome) : option string :=
  match o with
  | Returned b _ => cstring b 0
  | _ => None
  end.

Definition keys (s : string) : list Z :=
  (fun a => Z.of_N (N_of_ascii a)) <$> String.list_ascii_of_string s.

(** *** The cursor invariant *)

(** [strlen(buffer)]: the length of the line being edited. *)
Definition line_length (e : editor) : option nat := strlen (buffer e) 0.

(** The buffer is the [BUFFER_SIZE] block, it holds a terminated string, and
    the cursor lies inside that string. *)
Definition editor_inv (e : editor) : Prop :=
  length (buffer e) = BUFFER_SIZE /\
  exists n, line_length e = Some n /\ (0 <= pos e <= Z.of_nat n)%Z.

Definition printable (c : Z) : Prop := (32 <= c <= 126)%Z.

End Editor.

(** ** The tokenizer: [lush_split_pipes] and [lush_split_args] *)

Module Tokenizer.
Import Mem.

Definition SPACE : ascii := " "%char.
Definition NEWLINE : ascii := "010"%char.
Definition PIPE : ascii := "|"%char.
Definition DOLLAR : ascii := "$"%char.
Definition DQUOTE : ascii := "034"%char.

(** Results of the tokenizer's loops.  [Undefined] is an access outside an
    array or the line buffer; [OutOfFuel] belongs to the embedding only: the
    scanning loop is run with a bound on its rounds, and the bound used
    below is never reached. *)
Inductive res (A : Type) :=
  | Ok (a : A)
  | Undefined
  | OutOfFuel.
Arguments Ok {A} a.
Arguments Undefined {A}.
Arguments OutOfFuel {A}.

#[global] Instance res_ret : MRet res := fun A a => Ok a.
#[global] Instance res_bind : MBind res := fun A B f r =>
  match r with
  | Ok a => f a
  | Undefined => Undefined
  | OutOfFuel => OutOfFuel
  end.

Definition lift {A : Type} (o : option A) : res A :=
  match o with
  | Some a => Ok a
  | None => Undefined
  end.

(** *** [strtok(line, "|")] *)

(** [strspn(s, "|")]: how many leading bytes are the delimiter. *)
Fixpoint strspn_from (l : list ascii) : option nat :=
  match l with
  | [] => None
  | c :: l' => if decide (c = PIPE) then S <$> strspn_from l' else Some 0%nat
  end.

(** [strcspn(s, "|")]: how many leading bytes are neither the delimiter nor
    the terminator. *)
Fixpoint strcspn_from (l : list ascii) : option nat :=
  match l with
  | [] => None
  | c :: l' =>
      if decide (c = NUL \/ c = PIPE) then Some 0%nat
      else S <$> strcspn_from l'
  end.

(** One call of [strtok]: [s] is the place to go on from (the [line]
    argument of the first call, the saved pointer of the later ones).  The
    result is the buffer, the token ([None] for [NULL]) and the pointer
    saved for the next call. *)
Definition strtok (m : list ascii) (s : nat)
  : option (list ascii * option nat * nat) :=
  c ← load m s;
  if decide (c = NUL) then Some (m, None, s)
  else
    k ← strspn_from (drop s m);
    let s := (s + k)%nat in
    c ← load m s;
    if decide (c = NUL) then Some (m, None, s)
    else
      n ← strcspn_from (drop s m);
      let e := (s + n)%nat in
      c ← load m e;
      if decide (c = NUL) then Some (m, Some s, e)
      else m' ← store m e NUL; Some (m', Some s, S e).

(** The [char **commands] array has 16 entries. *)
Definition MAX_COMMANDS : nat := 16.

(** [while (command) { commands[pos++] = command; command = strtok(NULL, "|"); }]
    [room] counts the entries of [commands] that are left; writing
    [commands[16]] is outside the array. *)
Fixpoint split_loop (room : nat) (m : list ascii) (save : nat)
    (command : option nat) : option (list ascii * list nat) :=
  match command with
  | None => Some (m, [])
  | Some c =>
      match room with
      | O => None
      | S room =>
          '(m, next, save) ← strtok m save;
          '(m, cs) ← split_loop room m save next;
          Some (m, c :: cs)
      end
  end.

Definition is_blank (c : ascii) : bool :=
  bool_decide (c = SPACE \/ c = NEWLINE).

(** The first trimming loop: [commands[i]++] while [commands[i][0]] is a
    space or a newline. *)
Fixpoint skip_blank_from (l : list ascii) : option nat :=
  match l with
  | [] => None
  | c :: l' => if is_blank c then S <$> skip_blank_from l' else Some 0%nat
  end.

(** The second trimming loop: [--end_of_str], then while [end_of_str[0]] is
    a space or a newline it is overwritten with the terminator and
    [end_of_str] steps back.  [e] is one past the byte that is looked at
    next: at [e = 0] that byte lies before the buffer. *)
Fixpoint trim_back (m : list ascii) (e : nat) : option (list ascii) :=
  match e with
  | O => None
  | S p =>
      c ← load m p;
      if is_blank c then trim_back (<[p:=NUL]> m) p else Some m
  end.

(** The [for] loop that trims every command. *)
Fixpoint trim_commands (m : list ascii) (cs : list nat)
  : option (list ascii * list nat) :=
  match cs with
  | [] => Some (m, [])
  | c :: cs =>
      k ← skip_blank_from (drop c m);
      let c := (c + k)%nat in
      n ← strlen m c;
      m ← trim_back m (c + n);
      '(m, cs) ← trim_commands m cs;
      Some (m, c :: cs)
  end.

(** [lush_split_pipes(line)], for a line that starts at offset [line] of the
    buffer: the buffer as the call leaves it and the entries written to
    [commands], which are pointers into it. *)
Definition lush_split_pipes (m : list ascii) (line : nat)
  : option (list ascii * list nat) :=
  '(m, command, save) ← strtok m line;
  '(m, cs) ← split_loop MAX_COMMANDS m save command;
  trim_commands m cs.

(** *** [lush_split_args] *)

(** What an entry of an argument array points to: a place in the line
    buffer or a value in the environment; [None] is [NULL]. *)
Inductive pointer :=
  | InLine (p : nat)
  | InEnv (value : string).

(** Each [args] array and the [command_args] array have 128 entries, all
    [NULL] after [calloc]. *)
Definition MAX_ARGS : nat := 128.

Definition calloc {A : Type} (n : nat) : list (option A) := replicate n None.

(** [a[pos] = x] on an array. *)
Definition put {A : Type} (a : list A) (pos : nat) (x : A) : option (list A) :=
  if decide (pos < length a)%nat then Some (<[pos:=x]> a) else None.

(** The locals of the body of the outer loop. [at_] is the place of
    [commands[i][j]] in the buffer. *)
Record scan_state := ScanState {
  line : list ascii;
  at_ : nat;
  args : list (option pointer);
  pos : nat;
  inside_string : bool;
  current_token : option nat
}.

(** [current_token] is not [NULL] and its first byte is not a space. *)
Definition token_pending (m : list ascii) (tok : option nat) : option bool :=
  match tok with
  | None => Some false
  | Some p => c ← load m p; Some (bool_decide (c <> SPACE))
  end.

Section WithEnvironment.

(** [getenv] *)
Variable env : string -> option string.

Definition getenv (name : string) : option pointer := InEnv <$> env name.

(** The body of [for (int j = 0; commands[i][j]; j++)] on a byte [c] that is
    not the terminator.  The [j++] of the loop header is not part of it. *)
Definition scan_body (s : scan_state) (c : ascii) : option scan_state :=
  let m := line s in
  let q := at_ s in
  if decide (c = DQUOTE /\ inside_string s = false) then
    (* beginning of a string *)
    m ← store m q NUL;
    let q := S q in
    c1 ← load m q;
    if decide (c1 <> DQUOTE) then
      Some (ScanState m q (args s) (pos s) true (Some q))
    else
      m ← store m q NUL;
      Some (ScanState m (S q) (args s) (pos s) (inside_string s) (Some (S q)))
  else if inside_string s then
    if decide (c = DQUOTE) then
      (* ending of a string *)
      m ← store m q NUL;
      a ← put (args s) (pos s) (InLine <$> current_token s);
      Some (ScanState m q a (S (pos s)) false None)
    else Some s
  else if decide (c = SPACE) then
    (* space delimiter *)
    b ← token_pending m (current_token s);
    '(a, p) ← (if b : bool
               then a ← put (args s) (pos s) (InLine <$> current_token s);
                    Some (a, S (pos s))
               else Some (args s, pos s));
    m ← store m q NUL;
    Some (ScanState m q a p (inside_string s) (Some (S q)))
  else if decide (c = DOLLAR) then
    c1 ← load m (S q);
    if decide (c1 <> NUL /\ c1 <> SPACE) then
      (* environment variable *)
      let q := S q in
      name ← cstring m q;
      a ← put (args s) (pos s) (getenv name);
      n ← strlen m q;
      let q := (q + n)%nat in
      Some (ScanState m q a (S (pos s)) (inside_string s) (Some (S q)))
    else Some s
  else Some s.

Fixpoint scan (fuel : nat) (s : scan_state) : res scan_state :=
  match fuel with
  | O => OutOfFuel
  | S fuel =>
      c ← lift (load (line s) (at_ s));
      if decide (c = NUL) then Ok s
      else
        s ← lift (scan_body s c);
        scan fuel (ScanState (line s) (S (at_ s)) (args s) (pos s)
                             (inside_string s) (current_token s))
  end.

(** The status [lush_split_args] stores through its [int *status]. *)
Definition UNTERMINATED : Z := (-1)%Z.

(** The outer loop, from [commands[i]] on.  [done] holds the [args] arrays
    put into [command_args] so far, so [outer_pos] is its length.  The loop
    ends when it reads [NULL] from [commands]; [terminated] says that the
    array has a [NULL] behind its entries, which it has unless all 16 are
    in use. *)
Fixpoint split_stages (terminated : bool) (m : list ascii) (cs : list nat)
    (done : list (list (option pointer)))
  : res (list ascii * list (list (option pointer)) * Z) :=
  match cs with
  | [] =>
      if terminated then Ok (m, done, Z.of_nat (length done)) else Undefined
  | c :: cs =>
      s ← scan (S (length m)) (ScanState m c (calloc MAX_ARGS) 0 false (Some c));
      if inside_string s then Ok (line s, done, UNTERMINATED)
      else
        b ← lift (token_pending (line s) (current_token s));
        a ← (if b : bool
             then lift (put (args s) (pos s) (InLine <$> current_token s))
             else Ok (args s));
        split_stages terminated (line s) cs (done ++ [a])
  end.

(** [lush_split_args(commands, &status)]: the buffer, the filled entries of
    [command_args] and the status. *)
Definition lush_split_args (m : list ascii) (cs : list nat)
  : res (list ascii * list (list (option pointer)) * Z) :=
  split_stages (bool_decide (length cs < MAX_COMMANDS)%nat) m cs [].

End WithEnvironment.

(** *** Reading the result *)

(** The text an entry points to, [None] for a [NULL] entry. *)
Definition text (m : list ascii) (a : option pointer) : option (option string) :=
  match a with
  | None => Some None
  | Some (InEnv v) => Some (Some v)
  | Some (InLine p) => Some <$> cstring m p
  end.

(** An [args] array with every entry read: a [char **] as the later stages
    of the shell see it. *)
Definition read_args (m : list ascii) (a : list (option pointer))
  : option (list (option string)) :=
  mapM (text m) a.

Definition read_pipeline (m : list ascii) (p : list (list (option pointer)))
  : option (list (list (option string))) :=
  mapM (read_args m) p.

(** The argument vector a program started with [args] gets: the entries up
    to the first [NULL]. *)
Fixpoint argv (a : list (option string)) : list string :=
  match a with
  | Some s :: a => s :: argv a
  | _ => []
  end.

(** A line typed at the prompt lies at the start of the zero-filled
    [BUFFER_SIZE] block of [lush_read_line]. *)
Definition in_buffer (l : list ascii) : list ascii :=
  l ++ replicate (Editor.BUFFER_SIZE - length l) NUL.

Definition typed (s : string) : list ascii :=
  in_buffer (String.list_ascii_of_string s).

(** Tokenize a line: the two calls as [main] and [execute_command] make
    them.  The result is the status and the argument arrays with their
    texts read from the buffer. *)
Definition tokenize (env : string -> option string) (m : list ascii)
  : res (list (list (option string)) * Z) :=
  '(m, cs) ← lift (lush_split_pipes m 0);
  '(m, p, status) ← lush_split_args env m cs;
  p ← lift (read_pipeline m p);
  Ok (p, status).

End Tokenizer.
(** ** Builtins, dispatch and the pipeline executor *)

Module Shell.
Import Mem Tokenizer.

Definition STDIN_FILENO : nat := 0.
Definition STDOUT_FILENO : nat := 1.
Definition PATH_MAX : nat := 4096.
Definition TILDE : ascii := "~"%char.

(** What the shell does to the world around it, in the order it does it. *)
Inductive event :=
  | Pipe (read_end write_end : nat)
  | PipeFailed
  | Spawn (args : option (list string)) (input_fd output_fd : nat)
  | Close (fd : nat) (ok : bool)
  | Chdir (path : string) (ok : bool)
  | Perror (what : string)
  | Stderr (line : string)
  | Stdout (line : string)
  | PrintTime
  | LoadScript (script : option string)
  | PushHistory (line : string).

(** The part of the process state the shell reads and changes: the working
    directory, the open file descriptors and the effects so far. *)
Record os := OS {
  cwd : string;
  fds : list nat;
  out : list event
}.

Definition emit (e : event) (o : os) : os :=
  OS (cwd o) (fds o) (out o ++ [e]).

(** The system the shell runs on. *)
Record system := System {
  (** [getpwuid(getuid())->pw_dir], [None] when the lookup fails *)
  pw_dir : option string;
  (** [realpath(path, ...)] seen from a working directory *)
  realpath : string -> string -> option string;
  (** whether [chdir] to a path succeeds *)
  chdir_ok : string -> bool;
  (** [S_ISREG] and [S_ISDIR] of what [stat] finds at a path *)
  is_regular : string -> bool;
  is_directory : string -> bool;
  (** [access(path, R_OK) == 0] and [access(path, W_OK) == 0] *)
  readable : string -> bool;
  writeable : string -> bool;
  (** the number of descriptors the process may have open *)
  max_fds : nat;
  (** [lush_get_help_text()] *)
  help_text : string;
  (** whether [fork] succeeds in a state of the process *)
  fork_ok : os -> bool;
  (** whether a child started with these arguments on these descriptors
      comes to an end, so that the [waitpid] loop of its parent returns *)
  child_ends : option (list string) -> nat -> nat -> os -> bool
}.

(** An argument array ([char **]) with its entries read, and the array of
    those ([char ***]); [None] is a [NULL] entry. *)
Definition stage : Type := list (option string).

(** How a round of the shell ends: it goes on with a value, the process
    exits, or it waits for ever for a child that does not end. *)
Inductive outcome (A : Type) :=
  | Goes_on (a : A) (o : os)
  | Exits (code : Z) (o : os)
  | Waits (o : os).
Arguments Goes_on {A} a o.
Arguments Exits {A} code o.
Arguments Waits {A} o.

(** What follows a call that may not come back. *)
Definition and_then {A B : Type} (r : outcome A)
    (f : A -> os -> res (outcome B)) : res (outcome B) :=
  match r with
  | Goes_on a o => f a o
  | Exits code o => Ok (Exits code o)
  | Waits o => Ok (Waits o)
  end.

(** A function that always returns. *)
Definition returns {A : Type} (r : res (A * os)) : res (outcome A) :=
  '(a, o) ← r; Ok (Goes_on a o).

Definition EXIT_FAILURE : Z := 1%Z.

Section WithSystem.

Variable sys : system.

(** *** File descriptors *)

(** The lowest descriptor that is not open. *)
Definition lowest_free (open : list nat) : option nat :=
  find (fun n => bool_decide (n ∉ open)) (seq 0 (max_fds sys)).

(** [pipe(p)]: two new descriptors, or failure. *)
Definition pipe (o : os) : option (nat * nat) * os :=
  match lowest_free (fds o) with
  | Some r =>
      match lowest_free (r :: fds o) with
      | Some w => (Some (r, w), OS (cwd o) (w :: r :: fds o) (out o ++ [Pipe r w]))
      | None => (None, emit PipeFailed o)
      end
  | None => (None, emit PipeFailed o)
  end.

(** [close(fd)]: fails on a descriptor that is not open. *)
Definition close (fd : nat) (o : os) : os :=
  if decide (fd ∈ fds o)
  then OS (cwd o) (filter (fun x => x <> fd) (fds o)) (out o ++ [Close fd true])
  else emit (Close fd false) o.

(** [chdir(path)] *)
Definition chdir (path : string) (o : os) : os :=
  if chdir_ok sys path
  then OS path (fds o) (out o ++ [Chdir path true])
  else emit (Perror "lush: cd") (emit (Chdir path false) o).

(** *** [cd] *)

(** [strchr(s, '~')] as an offset into [s]. *)
Fixpoint strchr_tilde (s : string) : option nat :=
  match s with
  | EmptyString => None
  | String c s => if decide (c = TILDE) then Some 0%nat else S <$> strchr_tilde s
  end.

(** [s + n] for a pointer into a string. *)
Fixpoint string_drop (n : nat) (s : string) : string :=
  match n, s with
  | S n, String _ s => string_drop n s
  | _, _ => s
  end.

(** A string put into a [char path[PATH_MAX]] needs room for its
    terminator. *)
Definition fits (s : string) : option string :=
  if decide (String.length s < PATH_MAX)%nat then Some s else None.

(** The [path] that [lush_cd] and [get_expanded_path] build from their
    argument: [strcpy(path, pw_dir); strcat(path, tilda + 1)] when [strchr]
    finds a tilde, [strcpy(path, arg)] when it does not. *)
Definition expand_tilde (home arg : string) : option string :=
  match strchr_tilde arg with
  | Some i => fits (home +:+ string_drop (S i) arg)
  | None => fits arg
  end.

(** [lush_cd]: its return value and the state it leaves. *)
Definition lush_cd (args : stage) (o : os) : res (Z * os) :=
  match pw_dir sys with
  | None => Ok (0%Z, emit (Perror "retrieve home dir") o)
  | Some home =>
      a1 ← lift (args !! 1%nat);
      match a1 with
      | None => Ok (1%Z, chdir home o)
      | Some arg =>
          path ← lift (expand_tilde home arg);
          match realpath sys (cwd o) path with
          | None => Ok (1%Z, emit (Perror "realpath") o)
          | Some exp_path => Ok (1%Z, chdir exp_path o)
          end
      end
  end.

(** *** [help], [exit], [lush] *)

Definition builtin_strs : list string := ["cd"; "help"; "exit"; "time"; "lush"].

Definition lush_num_builtins : nat := length builtin_strs.

(** [lush_help], built without [LUSH_VERSION]; every [Stdout] is a line. *)
Definition lush_help (o : os) : Z * os :=
  let o := emit (Stdout (help_text sys)) o in
  let o := emit (Stdout "These shell commands are defined internally. Type 'help' at any time to reference this list.") o in
  let o := emit (Stdout "Available commands: ") o in
  (1%Z, foldl (fun o name => emit (Stdout ("- " +:+ name)) o) o builtin_strs).

Definition lush_exit (o : os) : Z * os := (0%Z, o).

(** [lush_lush] on the argument array after [args[0]++]. *)
Definition lush_lush (args : stage) (o : os) : res (Z * os) :=
  script ← lift (args !! 0%nat);
  Ok (1%Z, emit (LoadScript script) o).

(** *** The pipeline executor *)

(** [lush_execute_command(args, input_fd, output_fd)] as the parent sees
    it.  When [fork] fails the shell prints the error and exits.  When it
    succeeds a child is started on the two descriptors, and the parent
    stays in the [waitpid] loop until the child has exited or been killed.
    A [NULL] [args] reaches the child as it is. *)
Definition lush_execute_command (args : option stage) (input_fd output_fd : nat)
    (o : os) : outcome unit :=
  if fork_ok sys o
  then
    let o := emit (Spawn (argv <$> args) input_fd output_fd) o in
    if child_ends sys (argv <$> args) input_fd output_fd o
    then Goes_on () o
    else Waits o
  else Exits EXIT_FAILURE (emit (Perror "fork") o).

(** The loop that creates the pipes; [inl] is its [return 0]. *)
Fixpoint create_pipes (n : nat) (o : os) : (os + list (nat * nat) * os) :=
  match n with
  | O => inr ([], o)
  | S n =>
      match pipe o with
      | (None, o) => inl (emit (Perror "pipe") o)
      | (Some p, o) =>
          match create_pipes n o with
          | inl o => inl o
          | inr (ps, o) => inr (p :: ps, o)
          end
      end
  end.

(** The loop that runs every command but the last, from index [i] on for
    [n] rounds. *)
Fixpoint run_commands (commands : list (option stage)) (pipes : list (nat * nat))
    (i n : nat) (o : os) : option (outcome unit) :=
  match n with
  | O => Some (Goes_on () o)
  | S n =>
      input_fd ← (if decide (i = 0%nat) then Some STDIN_FILENO
                  else fst <$> pipes !! (i - 1)%nat);
      output_fd ← snd <$> pipes !! i;
      args ← commands !! i;
      match lush_execute_command args input_fd output_fd o with
      | Goes_on _ o =>
          let o := close output_fd o in
          run_commands commands pipes (S i) n o
      | Exits code o => Some (Exits code o)
      | Waits o => Some (Waits o)
      end
  end.

(** The loop that closes the pipes. *)
Definition close_pipes (pipes : list (nat * nat)) (o : os) : os :=
  foldl (fun o p => close (snd p) (close (fst p) o)) o pipes.

(** [lush_execute_pipeline(commands, num_commands)] *)
Definition lush_execute_pipeline (commands : list (option stage))
    (num_commands : Z) (o : os) : res (outcome Z) :=
  c0 ← lift (commands !! 0%nat);
  args0 ← lift c0;
  a0 ← lift (args0 !! 0%nat);
  name ← lift a0;
  if decide (name = "") then Ok (Goes_on 1%Z o)
  else if decide (num_commands < 1)%Z then Undefined
  else
    let n := Z.to_nat (num_commands - 1) in
    match create_pipes n o with
    | inl o => Ok (Goes_on 0%Z o)
    | inr (pipes, o) =>
        r ← lift (run_commands commands pipes 0 n o);
        and_then r (fun _ o =>
          input_fd ← lift (if decide (num_commands > 1)%Z
                           then fst <$> pipes !! (n - 1)%nat
                           else Some STDIN_FILENO);
          args ← lift (commands !! n);
          and_then (lush_execute_command args input_fd STDOUT_FILENO o)
            (fun _ o => Ok (Goes_on 1%Z (close_pipes pipes o))))
    end.

(** *** Dispatch *)

(** The index of the first entry of [builtin_strs] that [strcmp] finds equal
    to the name. *)
Definition find_builtin (name : string) : option nat :=
  fst <$> list_find (fun b => b = name) builtin_strs.

(** [while (args[i++])] of [lush_time]: one more than the number of entries
    before the first [NULL]. *)
Fixpoint count_commands (commands : list (option stage)) : option Z :=
  match commands with
  | [] => None
  | None :: _ => Some 1%Z
  | Some _ :: commands => Z.succ <$> count_commands commands
  end.

(** [lush_run(L, commands, num_commands)], with [commands[0]] given apart
    from the entries after it.  [lush_time] calls back into [lush_run] after
    [args[0]++], that is with the rest of the first array. *)
Fixpoint lush_run_from (first : stage) (rest : list (option stage))
    (num_commands : Z) (o : os) : res (outcome Z) :=
  match first with
  | [] => Undefined
  | None :: _ => Ok (Goes_on 1%Z o)
  | Some name :: args =>
      match find_builtin name with
      | Some 0%nat => returns (lush_cd first o)
      | Some 1%nat => returns (Ok (lush_help o))
      | Some 2%nat => returns (Ok (lush_exit o))
      | Some 3%nat =>
          (* lush_time *)
          i ← lift (count_commands (Some args :: rest));
          r ← lush_run_from args rest i o;
          and_then r (fun rc o => Ok (Goes_on rc (emit PrintTime o)))
      | Some 4%nat => returns (lush_lush args o)
      | _ => lush_execute_pipeline (Some first :: rest) num_commands o
      end
  end.

Definition lush_run (commands : list (option stage)) (num_commands : Z)
    (o : os) : res (outcome Z) :=
  match commands with
  | Some first :: rest => lush_run_from first rest num_commands o
  | _ => Undefined
  end.

(** The [command_args] array as [lush_split_args] returns it: the arrays it
    filled, then [NULL]s. *)
Definition command_args (p : list stage) : list (option stage) :=
  (Some <$> p) ++ replicate (MAX_ARGS - length p) None.

(** *** The loop of [main] and the bridge's [exec] *)

Variable env : string -> option string.

(** From [lush_split_pipes] to the [exit(1)], shared by [main] and
    [execute_command]: the line buffer as the tokenizer leaves it, and
    [status].  The arrays are read for [lush_run] only when the status is
    not [-1]. *)
Definition split_and_run (m : list ascii) (o : os)
  : res (outcome (list ascii * Z)) :=
  '(m, cs) ← lift (lush_split_pipes m 0);
  '(m, p, status) ← lush_split_args env m cs;
  if decide (status = (-1)%Z)
  then Ok (Goes_on (m, status)
             (emit (Stderr "lush: Expected end of quoted string") o))
  else
    p ← lift (read_pipeline m p);
    r ← lush_run (command_args p) status o;
    and_then r (fun rc o =>
      if decide (rc = 0%Z) then Ok (Exits 1 o) else Ok (Goes_on (m, status) o)).

(** One round of the loop of [main], from the line that [lush_read_line]
    returned on. *)
Definition main_round (m : list ascii) (o : os) : res (outcome unit) :=
  let o := emit (Stdout "") o in
  n ← lift (strlen m 0);
  if decide (n = 0%nat) then Ok (Goes_on () o)
  else
    r ← split_and_run m o;
    and_then r (fun _ o => Ok (Goes_on () o)).

(** A Lua string as [luaL_checkstring] hands it over: its bytes and the
    terminator. *)
Definition lua_string (s : string) : list ascii :=
  String.list_ascii_of_string s ++ [NUL].

(** [execute_command] of the bridge.  [line] is the buffer the tokenizer
    has written into by the time the history gets it. *)
Definition execute_command (line : list ascii) (o : os)
  : res (outcome (list ascii * Z)) :=
  r ← split_and_run line o;
  and_then r (fun '(m, status) o =>
    h ← lift (cstring m 0);
    Ok (Goes_on (m, status) (emit (PushHistory h) o))).

(** [l_execute_command]: the boolean it pushes. *)
Definition l_execute_command (debug_mode : bool) (command : string) (o : os)
  : res (outcome bool) :=
  r ← execute_command (lua_string command) o;
  and_then r (fun '(m, status) o =>
    let rc := bool_decide (status <> (-1)%Z) in
    shown ← lift (cstring m 0);
    let o :=
      if debug_mode
      then emit (Stdout ("Executed: " +:+ shown +:+
                         (if rc then ", success" else ", failed"))) o
      else o in
    Ok (Goes_on rc o)).

(** *** The bridge's path functions *)

(** [get_expanded_path(check_item)]: [None] is its [NULL]. *)
Definition get_expanded_path (check_item : string) (o : os)
  : res (option string * os) :=
  match pw_dir sys with
  | None => Ok (None, emit (Perror "retrieve home dir") o)
  | Some home =>
      path ← lift (expand_tilde home check_item);
      Ok (realpath sys (cwd o) path, o)
  end.

(** The wrappers that ask about a path: [false] when
    [get_expanded_path] returns [NULL], the answer of the system about the
    resolved path otherwise. *)
Definition query (answer : string -> bool) (check_item : string) (o : os)
  : res (bool * os) :=
  '(exp_path, o) ← get_expanded_path check_item o;
  match exp_path with
  | None => Ok (false, o)
  | Some p => Ok (answer p, o)
  end.

Definition l_exists : string -> os -> res (bool * os) := query (fun _ => true).
Definition l_is_file : string -> os -> res (bool * os) := query (is_regular sys).
Definition l_is_dir : string -> os -> res (bool * os) := query (is_directory sys).
Definition l_is_readable : string -> os -> res (bool * os) := query (readable sys).
Definition l_is_writeable : string -> os -> res (bool * os) := query (writeable sys).

(** [l_cd].  When [chdir] fails the wrapper goes on after its error branch
    and frees [exp_path] a second time. *)
Definition l_cd (newdir : string) (o : os) : res (bool * os) :=
  '(exp_path, o) ← get_expanded_path newdir o;
  match exp_path with
  | None => Ok (false, o)
  | Some p => if chdir_ok sys p then Ok (true, chdir p o) else Undefined
  end.

End WithSystem.

End Shell.
(** ** Lines, seen without the buffer *)

Module Lines.
Import Mem Tokenizer.

(** The number of pipe characters of a line. *)
Fixpoint count_pipes (l : list ascii) : nat :=
  match l with
  | [] => 0
  | c :: l => if decide (c = PIPE) then S (count_pipes l) else count_pipes l
  end.

(** The number of non-empty runs of characters between the pipe characters
    of a line; [at_start] says that the character before was a pipe or the
    start of the line. *)
Fixpoint fields (at_start : bool) (l : list ascii) : nat :=
  match l with
  | [] => 0
  | c :: l =>
      if decide (c = PIPE) then fields true l
      else ((if at_start then 1 else 0) + fields false l)%nat
  end.

(** Every pipe character stands between two non-empty runs: none at the
    start of the line, none at its end, no two in a row. *)
Fixpoint separated (at_start : bool) (l : list ascii) : bool :=
  match l with
  | [] => negb at_start
  | c :: l =>
      if decide (c = PIPE) then negb at_start && separated true l
      else separated false l
  end.

(** The first character of the line that is neither a space nor a newline
    is not a pipe. *)
Fixpoint starts_with_text (l : list ascii) : bool :=
  match l with
  | [] => false
  | c :: l => if is_blank c then starts_with_text l else bool_decide (c <> PIPE)
  end.

Definition all_pipes (l : list ascii) : Prop := Forall (fun c => c = PIPE) l.
Definition no_pipes (l : list ascii) : Prop := Forall (fun c => c <> PIPE) l.

(** The second buffer is the first with some of its pipes overwritten. *)
Definition same_but_pipes (m m' : list ascii) : Prop :=
  length m' = length m /\
  forall j, m !! j <> Some PIPE -> m' !! j = m !! j.

(** A blank, or something else, at a place of the buffer. *)
Definition blank_at (m : list ascii) (j : nat) : Prop :=
  exists b, m !! j = Some b /\ is_blank b = true.

Definition text_at (m : list ascii) (j : nat) : Prop :=
  exists x, m !! j = Some x /\ is_blank x = false.

(** What the trimming loop needs of the buffer: text at [i0] with only
    blanks before it, and the terminator of the line at [E]. *)
Definition trimmable (m : list ascii) (i0 E : nat) : Prop :=
  (E < length m)%nat /\ m !! E = Some NUL /\
  (exists c0, m !! i0 = Some c0 /\ is_blank c0 = false /\ c0 <> NUL) /\
  (forall j, (j < i0)%nat -> blank_at m j).

(** The number of spaces of a run of bytes. *)
Definition spaces (l : list ascii) : nat :=
  length (filter (fun c => c = SPACE) l).

(** Bytes that the scanning loop steps over outside a string: no
    terminator, no quote, no dollar. *)
Definition plain (l : list ascii) : Prop :=
  Forall (fun c => c <> NUL /\ c <> DQUOTE /\ c <> DOLLAR) l.

(** Bytes that the scanning loop steps over inside a string. *)
Definition quoted (l : list ascii) : Prop :=
  Forall (fun c => c <> NUL /\ c <> DQUOTE) l.

(** The bytes of a string. *)
Definition bytes (s : string) : list ascii := String.list_ascii_of_string s.

End Lines.

(** ** Sample inputs *)

Module Samples.
Import Mem Editor Tokenizer Shell.

(** A line in the middle of being edited, and a buffer filled to the last
    byte with the cursor behind the last character. *)
Definition sample_line : editor :=
  Editor (String.list_ascii_of_string "ls -l" ++ replicate 1019 NUL) 2.

Definition full_line : editor :=
  Editor (replicate 1023 "a"%char ++ [NUL]) 1023.

(** The same full line after the left arrow has been pressed once, and the
    keys that lead there from the empty line: 1023 times the letter [a],
    then the three bytes of the left arrow. *)
Definition full_line_cursor_back : editor :=
  Editor (replicate 1023 "a"%char ++ [NUL]) 1022.

Definition full_line_keys : list Z :=
  replicate 1023 97%Z ++ [27; 91; 68]%Z.

(** The locals of [lush_read_line] and the unread input after [n] rounds
    of its loop, none of which reached the [break]. *)
Fixpoint rounds (n : nat) (e : editor) (inp : list Z)
  : option (editor * list Z) :=
  match n with
  | O => Some (e, inp)
  | S n =>
      match step e inp with
      | Some (Continue e' inp') => rounds n e' inp'
      | _ => None
      end
  end.

(** An environment in which [HOME] is the only variable. *)
Definition only_home (name : string) : option string :=
  if decide (name = "HOME") then Some "/home/u" else None.

(** A system on which [/tmp] is a directory, [/etc/passwd] is a file and
    no other path exists. *)
Definition small_system : system :=
  System (Some "/home/u")
         (fun _ path =>
            if decide (path = "/tmp") then Some "/tmp"
            else if decide (path = "/etc/passwd") then Some "/etc/passwd"
            else None)
         (fun path => bool_decide (path = "/tmp"))
         (fun path => bool_decide (path = "/etc/passwd"))
         (fun path => bool_decide (path = "/tmp"))
         (fun _ => true)
         (fun path => bool_decide (path = "/tmp"))
         64
         "Lunar Shell"
         (fun _ => true)
         (fun _ _ _ _ => true).

(** The same system with room for six descriptors only. *)
Definition tight_system : system :=
  System (pw_dir small_system) (realpath small_system) (chdir_ok small_system)
         (is_regular small_system) (is_directory small_system)
         (readable small_system) (writeable small_system)
         6 (help_text small_system)
         (fork_ok small_system) (child_ends small_system).

(** The shell at its prompt in the home directory, with the three standard
    descriptors open. *)
Definition at_prompt : os := OS "/home/u" [0; 1; 2]%nat [].

(** How often a trace closes a descriptor. *)
Fixpoint closes (fd : nat) (trace : list event) : nat :=
  match trace with
  | [] => 0
  | Close fd' _ :: trace =>
      if decide (fd' = fd) then S (closes fd trace) else closes fd trace
  | _ :: trace => closes fd trace
  end.

(** The pipes a trace opens. *)
Fixpoint pipes_of (trace : list event) : list (nat * nat) :=
  match trace with
  | [] => []
  | Pipe r w :: trace => (r, w) :: pipes_of trace
  | _ :: trace => pipes_of trace
  end.

(** A pipeline of [n] stages that all run the program [x]. *)
Definition n_stages (n : nat) : list (option stage) :=
  command_args (replicate n (Some "x" :: replicate 127 None)).

(** For a pipeline of [n] stages run from the prompt: the executor returns
    1 with [n - 1] pipes opened and the descriptors of the prompt left, it
    closes every read end once, and every write end twice. *)
Definition closes_write_ends_twice (n : nat) : bool :=
  match lush_execute_pipeline small_system (n_stages n) (Z.of_nat n) at_prompt with
  | Ok (Goes_on rc o) =>
      bool_decide (rc = 1%Z /\ fds o = fds at_prompt /\
                   length (pipes_of (out o)) = (n - 1)%nat /\
                   Forall (fun p => closes (fst p) (out o) = 1%nat /\
                                    closes (snd p) (out o) = 2%nat)
                          (pipes_of (out o)))
  | _ => false
  end.

(** Two lines that end inside a quoted token: the quote that is not
    closed stands right behind an empty pair of quotes in the first and
    behind a variable in the second. *)
Definition quote_after_empty_pair : list ascii :=
  in_buffer (Lines.bytes "echo " ++ [DQUOTE; DQUOTE; DQUOTE] ++
             Lines.bytes "abc").

Definition quote_after_variable : list ascii :=
  in_buffer (Lines.bytes "echo $HOME " ++ DQUOTE :: Lines.bytes "abc").

(** The line [echo], a double quote that is never closed, [abc], in the
    buffer of the prompt; the buffer as [lush_split_pipes] leaves it; and the state in
    which the scan of its one command ends. *)
Definition open_quote_line : list ascii :=
  in_buffer (Lines.bytes "echo " ++ DQUOTE :: Lines.bytes "abc").

Definition open_quote_split : list ascii :=
  Eval vm_compute in
    match lush_split_pipes open_quote_line 0 with
    | Some (m, _) => m
    | None => []
    end.

Definition open_quote_scanned : scan_state :=
  Eval vm_compute in
    match scan only_home (S (length open_quote_split))
               (ScanState open_quote_split 0 (calloc MAX_ARGS) 0 false (Some 0%nat))
    with
    | Ok s => s
    | _ => ScanState [] 0 [] 0 false None
    end.

End Samples.

(** ** Further vocabulary: typed text, the prompt, what a call may write *)

Module Extra.
Import Mem Editor Tokenizer Shell Samples.

(** The characters the editor stores for a run of typed bytes. *)
Definition typed_text (l : list Z) : string :=
  String.string_of_list_ascii (to_char <$> l).

(** The line an editor state holds. *)
Definition editor_text (e : editor) : option string := cstring (buffer e) 0.

(** [print_prompt]: what it writes, given [getenv("USER")], the host name
    and the working directory.  With [USER] not set [strlen(username)] reads
    through a null pointer. *)
Definition print_prompt (user : option string) (device_name cwd : string)
  : option string :=
  username ← user;
  let home_len := (6 + String.length username)%nat in
  let prompt_cwd :=
    if String.prefix "/home/" cwd && String.prefix username (string_drop 6 cwd)
    then "~" +:+ string_drop home_len cwd
    else cwd in
  Some ("[" +:+ username +:+ "@" +:+ device_name +:+ ":" +:+ prompt_cwd +:+ "] ").

(** The second buffer is the first with some of its bytes overwritten by
    the terminator, and only bytes of the allowed kind. *)
Definition only_cleared (allowed : ascii -> Prop) (m m' : list ascii) : Prop :=
  length m' = length m /\
  forall j c, m !! j = Some c ->
              m' !! j = Some c \/ (m' !! j = Some NUL /\ allowed c).

(** A byte of the buffer that is neither a space nor a newline. *)
Definition starts_unblank (m : list ascii) (c : nat) : Prop :=
  exists x, m !! c = Some x /\ is_blank x = false.

(** A line with a quoted argument, as [lush_read_line] returns it. *)
Definition sample_split_buffer : list ascii :=
  typed ("echo " +:+ String.String DQUOTE ("a b" +:+ String.String DQUOTE " c")).

(** The descriptors of an array of pipes. *)
Definition pipe_fds (pipes : list (nat * nat)) : list nat :=
  p ← pipes; [fst p; snd p].

(** The children a trace starts: argument vector, input and output. *)
Fixpoint spawns (trace : list event)
  : list (option (list string) * nat * nat) :=
  match trace with
  | [] => []
  | Spawn a i o :: trace => (a, i, o) :: spawns trace
  | _ :: trace => spawns trace
  end.

(** The descriptors a pipeline of commands is wired to by an array of
    pipes that has one pipe less than there are commands: command [i] reads
    the read end of pipe [i - 1], or standard input when it is the first,
    and writes the write end of pipe [i], or standard output when there is
    no such pipe. *)
Definition input_of (pipes : list (nat * nat)) (i : nat) : nat :=
  match i with
  | O => STDIN_FILENO
  | S j => default STDIN_FILENO (fst <$> pipes !! j)
  end.

Definition output_of (pipes : list (nat * nat)) (i : nat) : nat :=
  default STDOUT_FILENO (snd <$> pipes !! i).

Definition wiring (pipes : list (nat * nat)) (commands : list (option stage))
  : list (option (list string) * nat * nat) :=
  imap (fun i args => (argv <$> args, input_of pipes i, output_of pipes i))
       commands.

(** The arrays of [ls | wc] and of [a | b | c]. *)
Definition ls_wc : list (option stage) :=
  [Some [Some "ls"; None]; Some [Some "wc"; None]; None].

Definition a_b_c : list (option stage) :=
  [Some [Some "a"; None]; Some [Some "b"; None]; Some [Some "c"; None]; None].

(** A byte of a word: no terminator, no blank, no pipe, no quote and no
    dollar. *)
Definition letter (c : ascii) : Prop :=
  c <> NUL /\ c <> SPACE /\ c <> NEWLINE /\ c <> PIPE /\ c <> DQUOTE /\
  c <> DOLLAR.

Definition word (w : list ascii) : Prop := w <> [] /\ Forall letter w.

(** Words, each with the number of fill bytes in front of it beyond the
    first: the bytes that follow the first word of a line. *)
Fixpoint spaced (fill : ascii) (more : list (nat * list ascii)) : list ascii :=
  match more with
  | [] => []
  | (k, w) :: more => replicate (S k) fill ++ w ++ spaced fill more
  end.

(** The words as the strings a program gets. *)
Definition word_strings (ws : list (list ascii)) : list string :=
  String.string_of_list_ascii <$> ws.

(** The words of [ls  -l /tmp]: two spaces before the second word, one
    before the third. *)
Definition ls_word : list ascii := Lines.bytes "ls".

Definition ls_more : list (nat * list ascii) :=
  [(1%nat, Lines.bytes "-l"); (0%nat, Lines.bytes "/tmp")].

(** The small system for a user without a password entry. *)
Definition nobody_system : system :=
  System None (realpath small_system) (chdir_ok small_system)
         (is_regular small_system) (is_directory small_system)
         (readable small_system) (writeable small_system)
         (max_fds small_system) (help_text small_system)
         (fork_ok small_system) (child_ends small_system).

Definition echo_word : list ascii := Lines.bytes "echo".

(** The keys the editor knows, as the bytes a terminal sends for them. *)
Inductive key :=
  | KeyRight
  | KeyLeft
  | KeyDelete
  | KeyBackspace
  | KeyChar (c : Z).

Definition key_bytes (k : key) : list Z :=
  match k with
  | KeyRight => [27; 91; 67]
  | KeyLeft => [27; 91; 68]
  | KeyDelete => [27; 91; 51; 126]
  | KeyBackspace => [127]
  | KeyChar c => [c]
  end%Z.

Definition key_ok (k : key) : Prop :=
  match k with
  | KeyChar c => printable c
  | _ => True
  end.

(** A line with a cursor in it: the bytes before the cursor, the nearest
    first, and the bytes from the cursor on. *)
Definition cursor_line : Type := list ascii * list ascii.

Definition line_of (t : cursor_line) : list ascii := reverse t.1 ++ t.2.

(** What a key does to such a line. *)
Definition press (t : cursor_line) (k : key) : cursor_line :=
  match k, t with
  | KeyRight, (l, x :: r) => (x :: l, r)
  | KeyLeft, (x :: l, r) => (l, x :: r)
  | KeyDelete, (l, x :: r) => (l, r)
  | KeyBackspace, (x :: l, r) => (l, r)
  | KeyChar c, (l, r) => (to_char c :: l, r)
  | _, _ => t
  end.

(** The locals of [lush_read_line] hold a line with its cursor: the bytes
    of the line at the start of the block, a terminator behind them, and
    [pos] at the cursor. *)
Definition holds (e : editor) (t : cursor_line) : Prop :=
  (exists rest, Editor.buffer e = reverse t.1 ++ t.2 ++ NUL :: rest) /\
  Editor.pos e = Z.of_nat (length t.1) /\
  length (Editor.buffer e) = BUFFER_SIZE /\
  nonzero t.1 /\ nonzero t.2.

(** The keys that type [ac], go back by one and put [b] in between, then
    go to the end, type [x] and take it back. *)
Definition sample_keys : list key :=
  [KeyChar 97; KeyChar 99; KeyLeft; KeyChar 98; KeyRight; KeyRight;
   KeyChar 120; KeyBackspace]%Z.

(** ** Pipelines of commands made of words *)

(** Tokens behind the first, each with its separator in front. *)
Fixpoint seps (sep : ascii) (others : list (list ascii)) : list ascii :=
  match others with
  | [] => []
  | T :: others => sep :: T ++ seps sep others
  end.

(** The places of the tokens of a line whose first token starts at [p]. *)
Fixpoint offsets (p : nat) (T : list ascii) (others : list (list ascii))
  : list nat :=
  p :: match others with
       | [] => []
       | T1 :: others => offsets (p + length T + 1) T1 others
       end.

(** What [strtok] takes for a token. *)
Definition token (T : list ascii) : Prop :=
  T <> [] /\ Mem.nonzero T /\ Forall (fun c => c <> PIPE) T.

(** A command as it is typed between two pipes: blanks, words with spaces
    between them, blanks. *)
Record command_text := CommandText {
  blanks_before : list ascii;
  first_word : list ascii;
  more_words : list (nat * list ascii);
  blanks_after : list ascii
}.

Definition blanks (l : list ascii) : Prop :=
  Forall (fun c => is_blank c = true) l.

Definition command_ok (c : command_text) : Prop :=
  blanks (blanks_before c) /\ word (first_word c) /\
  Forall (fun kw => word kw.2) (more_words c) /\
  blanks (blanks_after c) /\ (length (more_words c) < MAX_ARGS)%nat.

Definition command_words (c : command_text) : list (list ascii) :=
  first_word c :: (more_words c).*2.

(** The bytes of a command: as typed, after [lush_split_pipes] has trimmed
    it, and after [lush_split_args] has split it. *)
Definition typed_command (c : command_text) : list ascii :=
  blanks_before c ++ first_word c ++ spaced SPACE (more_words c) ++
  blanks_after c.

Definition trimmed_command (c : command_text) : list ascii :=
  blanks_before c ++ first_word c ++ spaced SPACE (more_words c) ++
  replicate (length (blanks_after c)) NUL.

Definition split_command (c : command_text) : list ascii :=
  blanks_before c ++ first_word c ++ spaced NUL (more_words c) ++
  replicate (length (blanks_after c)) NUL.

(** Where the commands start once the blanks before them are skipped. *)
Fixpoint starts (p : nat) (c : command_text) (cs : list command_text)
  : list nat :=
  (p + length (blanks_before c))%nat ::
  match cs with
  | [] => []
  | c1 :: cs => starts (p + length (typed_command c) + 1) c1 cs
  end.

(** The argument array of a command: its words, then [NULL]s. *)
Definition stage_of (c : command_text) : stage :=
  (Some <$> word_strings (command_words c)) ++
  replicate (MAX_ARGS - length (command_words c)) None.

(** [ls -l | grep lush |wc]: the commands. *)
Definition ls_command : command_text :=
  CommandText [] (Lines.bytes "ls") [(0%nat, Lines.bytes "-l")] [SPACE].

Definition grep_command : command_text :=
  CommandText [SPACE] (Lines.bytes "grep") [(0%nat, Lines.bytes "lush")]
              [SPACE].

Definition wc_command : command_text :=
  CommandText [] (Lines.bytes "wc") [] [].

End Extra.

(** * Facts about the memory model *)

Module MemFacts.
Import Mem.

Lemma strlen_from_app (s r : list ascii) :
  nonzero s -> strlen_from (s ++ NUL :: r) = Some (length s).
Proof.
  induction 1 as [|c s Hc _ IH]; simpl.
  - done.
  - destruct (decide (c = NUL)); [done|]. by rewrite IH.
Qed.

Lemma strlen_from_split (l : list ascii) (n : nat) :
  strlen_from l = Some n ->
  exists s r, l = s ++ NUL :: r /\ length s = n /\ nonzero s.
Proof.
  revert n. induction l as [|c l IH]; intros n; simpl; [done|].
  case_decide as Hc.
  - intros [= <-]. exists [], l. subst c. split; [done|]. split; [done|constructor].
  - destruct (strlen_from l) as [k|] eqn:Hk; simpl; [|done].
    intros [= <-]. destruct (IH k eq_refl) as (s & r & -> & <- & Hs).
    exists (c :: s), r. split; [done|]. split; [done|]. by constructor.
Qed.

Lemma strlen_inside (s r : list ascii) (p : nat) :
  nonzero s -> (p <= length s)%nat ->
  strlen (s ++ NUL :: r) p = Some (length s - p)%nat.
Proof.
  intros Hs Hp. unfold strlen.
  rewrite drop_app_le by done.
  rewrite strlen_from_app.
  - by rewrite length_drop.
  - by apply Forall_drop.
Qed.

End MemFacts.

(** * The line editor: cursor and termination *)

Module EditorFacts.
Import Mem MemFacts Editor Samples.

Lemma BUFFER_SIZE_small : (Z.of_nat BUFFER_SIZE < 2 ^ 64)%Z.
Proof. by vm_compute. Qed.

Lemma to_char_nonzero (c : Z) : (0 < c < 256)%Z -> to_char c <> NUL.
Proof.
  intros Hc Heq. unfold to_char in Heq.
  rewrite Z.mod_small in Heq by lia.
  apply (f_equal N_of_ascii) in Heq.
  rewrite N_ascii_embedding in Heq by lia.
  change (N_of_ascii NUL) with 0%N in Heq. lia.
Qed.

(** The buffer of a state that meets the invariant splits at the cursor. *)
Lemma inv_shape (e : editor) :
  editor_inv e ->
  exists s1 s2 r,
    buffer e = s1 ++ s2 ++ NUL :: r /\ nonzero s1 /\ nonzero s2 /\
    pos e = Z.of_nat (length s1).
Proof.
  intros [_ (n & Hn & Hpos)]. unfold line_length, strlen in Hn.
  rewrite drop_0 in Hn.
  destruct (strlen_from_split _ _ Hn) as (s & r & Hb & Hlen & Hs).
  exists (take (Z.to_nat (pos e)) s), (drop (Z.to_nat (pos e)) s), r.
  split; [by rewrite app_assoc, take_drop|].
  split; [by apply Forall_take|]. split; [by apply Forall_drop|].
  rewrite length_take. lia.
Qed.

Lemma shape_length (s1 s2 r : list ascii) :
  nonzero s1 -> nonzero s2 ->
  strlen (s1 ++ s2 ++ NUL :: r) 0 = Some (length s1 + length s2)%nat.
Proof.
  intros H1 H2. rewrite app_assoc. rewrite strlen_inside.
  - rewrite length_app. f_equal. lia.
  - by apply Forall_app.
  - lia.
Qed.

Lemma shape_length_at (s1 s2 r : list ascii) :
  nonzero s2 ->
  strlen (s1 ++ s2 ++ NUL :: r) (length s1) = Some (length s2).
Proof.
  intros H2. unfold strlen. rewrite drop_app_length. by apply strlen_from_app.
Qed.

Lemma shape_inv (s1 s2 r : list ascii) :
  nonzero s1 -> nonzero s2 ->
  length (s1 ++ s2 ++ NUL :: r) = BUFFER_SIZE ->
  editor_inv (Editor (s1 ++ s2 ++ NUL :: r) (Z.of_nat (length s1))).
Proof.
  intros H1 H2 Hlen. split; [done|].
  exists (length s1 + length s2)%nat. split; [by apply shape_length|].
  simpl. lia.
Qed.

(** What each key does to a buffer split at the cursor. *)

Lemma to_size_t_small (n : nat) :
  (n <= BUFFER_SIZE)%nat -> to_size_t (Z.of_nat n) = Z.of_nat n.
Proof.
  intros Hn. unfold to_size_t. apply Z.mod_small.
  pose proof BUFFER_SIZE_small. lia.
Qed.

Lemma index_of_nat (n : nat) : index (Z.of_nat n) = Some n.
Proof.
  unfold index. rewrite decide_True by lia. by rewrite Nat2Z.id.
Qed.

Lemma insert_char_shape (s1 s2 r : list ascii) (x : ascii) (c : Z) :
  nonzero s2 ->
  (Z.of_nat (length s1) < Z.of_nat BUFFER_SIZE - 1)%Z ->
  insert_char (Editor (s1 ++ s2 ++ NUL :: x :: r) (Z.of_nat (length s1))) c
  = Some (Editor (s1 ++ to_char c :: s2 ++ NUL :: r)
                 (Z.of_nat (length s1) + 1)).
Proof.
  intros H2 Hroom. unfold insert_char. simpl.
  rewrite decide_True by done.
  rewrite index_of_nat. simpl.
  replace (Z.of_nat (length s1) + 1)%Z with (Z.of_nat (S (length s1))) by lia.
  rewrite index_of_nat. simpl.
  rewrite shape_length_at by done. simpl.
  unfold memmove. rewrite decide_True
    by (rewrite ?length_app; simpl; rewrite ?length_app; simpl; lia).
  simpl.
  rewrite drop_app_length.
  replace (take (S (length s1)) (s1 ++ s2 ++ NUL :: x :: r))
    with (s1 ++ take 1 (s2 ++ NUL :: x :: r))
    by (rewrite (take_app s1); replace (S (length s1) - length s1)%nat with 1%nat by lia;
        by rewrite (take_ge s1) by lia).
  replace (take (length s2 + 1) (s2 ++ NUL :: x :: r)) with (s2 ++ [NUL])
    by (rewrite take_app, (take_ge s2) by lia;
        by replace (length s2 + 1 - length s2)%nat with 1%nat by lia).
  replace (drop (S (length s1 + (length s2 + 1))) (s1 ++ s2 ++ NUL :: x :: r))
    with r.
  2:{ replace (S (length s1 + (length s2 + 1)))
        with (length s1 + (length s2 + 2))%nat by lia.
      rewrite drop_app_add, drop_app_add. done. }
  unfold store. rewrite decide_True.
  2:{ rewrite !length_app. destruct s2; simpl; lia. }
  simpl. f_equal. f_equal.
  rewrite <- (app_assoc s1).
  replace (length s1) with (length s1 + 0)%nat at 1 by lia.
  rewrite insert_app_r. f_equal.
  destruct s2; simpl; by rewrite <- ?app_assoc.
Qed.

Lemma strlen_after (s1 s2 r : list ascii) (x : ascii) :
  nonzero s2 ->
  strlen (s1 ++ x :: s2 ++ NUL :: r) (S (length s1)) = Some (length s2).
Proof.
  intros H2. unfold strlen.
  replace (S (length s1)) with (length s1 + 1)%nat by lia.
  rewrite drop_app_add. simpl. rewrite drop_0. by apply strlen_from_app.
Qed.

(** Both deleting keys close the one-byte gap at [length s1]. *)
Lemma memmove_close_gap (s1 s2 r : list ascii) (x : ascii) :
  memmove (s1 ++ x :: s2 ++ NUL :: r) (length s1) (S (length s1))
          (length s2 + 1)
  = Some (s1 ++ s2 ++ NUL :: NUL :: r).
Proof.
  unfold memmove. rewrite decide_True
    by (rewrite ?length_app; simpl; rewrite ?length_app; simpl; lia).
  f_equal. rewrite take_app_length. f_equal.
  replace (S (length s1)) with (length s1 + 1)%nat by lia.
  rewrite !drop_app_add. simpl. rewrite drop_0.
  rewrite take_app, (take_ge s2) by lia.
  replace (length s2 + 1 - length s2)%nat with 1%nat by lia. simpl.
  rewrite <- app_assoc. f_equal. simpl. f_equal.
  replace (length s2 + 1)%nat with (S (length s2)) by lia. simpl.
  by rewrite drop_app_length.
Qed.

Lemma backspace_shape (s1 s2 r : list ascii) (x : ascii) :
  nonzero s2 ->
  backspace (Editor (s1 ++ x :: s2 ++ NUL :: r) (Z.of_nat (length s1) + 1))
  = Some (Editor (s1 ++ s2 ++ NUL :: NUL :: r) (Z.of_nat (length s1))).
Proof.
  intros H2. unfold backspace. simpl.
  rewrite decide_True by lia.
  replace (Z.of_nat (length s1) + 1 - 1)%Z with (Z.of_nat (length s1)) by lia.
  rewrite index_of_nat. simpl.
  replace (Z.of_nat (length s1) + 1)%Z with (Z.of_nat (S (length s1))) by lia.
  rewrite index_of_nat. simpl.
  rewrite strlen_after by done. simpl.
  by rewrite memmove_close_gap.
Qed.

Lemma forward_delete_shape (s1 s2 r : list ascii) (x : ascii) :
  nonzero s1 -> nonzero s2 -> x <> NUL ->
  (length (s1 ++ x :: s2 ++ NUL :: r) <= BUFFER_SIZE)%nat ->
  forward_delete (Editor (s1 ++ x :: s2 ++ NUL :: r) (Z.of_nat (length s1)))
  = Some (Editor (s1 ++ s2 ++ NUL :: NUL :: r) (Z.of_nat (length s1))).
Proof.
  intros H1 H2 Hx Hlen. unfold forward_delete. simpl.
  assert (nonzero (x :: s2)) as H2' by (by constructor).
  pose proof (shape_length s1 (x :: s2) r H1 H2') as Hl. simpl in Hl.
  rewrite Hl. simpl. rewrite ?length_app in Hlen. simpl in Hlen.
  rewrite to_size_t_small by lia.
  rewrite decide_True by lia.
  rewrite index_of_nat. simpl.
  replace (Z.of_nat (length s1) + 1)%Z with (Z.of_nat (S (length s1))) by lia.
  rewrite index_of_nat. simpl.
  rewrite strlen_after by done. simpl.
  by rewrite memmove_close_gap.
Qed.

(** The invariant, unpacked once for all five keys. *)
Lemma inv_unpack (e : editor) (n : nat) :
  editor_inv e -> line_length e = Some n ->
  exists s1 s2 r,
    e = Editor (s1 ++ s2 ++ NUL :: r) (Z.of_nat (length s1)) /\
    nonzero s1 /\ nonzero s2 /\ n = (length s1 + length s2)%nat /\
    (length s1 + length s2 + 1 + length r)%nat = BUFFER_SIZE.
Proof.
  intros Hinv Hn.
  destruct (inv_shape e Hinv) as (s1 & s2 & r & Hb & H1 & H2 & Hp).
  destruct Hinv as [Hlen _]. destruct e as [b p]. simpl in *. subst b p.
  exists s1, s2, r. split; [done|]. split; [done|]. split; [done|].
  unfold line_length in Hn. simpl in Hn.
  rewrite shape_length in Hn by done. split; [congruence|].
  rewrite <- Hlen, ?length_app. simpl. lia.
Qed.

Lemma left_arrow_inv (e : editor) :
  editor_inv e ->
  exists e', left_arrow e = Some e' /\ editor_inv e' /\
    (pos e = 0%Z -> e' = e) /\
    ((0 < pos e)%Z -> pos e' = (pos e - 1)%Z /\ buffer e' = buffer e).
Proof.
  intros [Hlen (n & Hn & Hp)]. unfold left_arrow.
  destruct (decide (pos e > 0)%Z) as [Hgt|Hle].
  - eexists. split; [done|]. split; [|split; [lia|done]].
    split; [done|]. exists n. split; [done|]. simpl. lia.
  - exists e. split; [done|]. split; [by split; [|exists n]|].
    split; [done|lia].
Qed.

Lemma right_arrow_inv (e : editor) (n : nat) :
  editor_inv e -> line_length e = Some n ->
  exists e', right_arrow e = Some e' /\ editor_inv e' /\
    (pos e = Z.of_nat n -> e' = e) /\
    ((pos e < Z.of_nat n)%Z -> pos e' = (pos e + 1)%Z /\ buffer e' = buffer e).
Proof.
  intros Hinv Hn.
  destruct (inv_unpack e n Hinv Hn) as (s1 & s2 & r & -> & H1 & H2 & -> & Hlen).
  unfold right_arrow. simpl. rewrite shape_length by done. simpl.
  rewrite to_size_t_small by lia.
  destruct (decide (Z.of_nat (length s1) < Z.of_nat (length s1 + length s2))%Z)
    as [Hlt|Hge].
  - eexists. split; [done|]. split; [|split; [lia|done]].
    split; [simpl; rewrite ?length_app; simpl; lia|].
    exists (length s1 + length s2)%nat.
    split; [by apply shape_length|]. simpl. lia.
  - eexists. split; [done|]. split; [done|]. split; [done|lia].
Qed.

Lemma backspace_inv (e : editor) (n : nat) :
  editor_inv e -> line_length e = Some n ->
  exists e', backspace e = Some e' /\ editor_inv e' /\
    (pos e = 0%Z -> e' = e) /\
    ((0 < pos e)%Z ->
     pos e' = (pos e - 1)%Z /\ line_length e' = Some (n - 1)%nat).
Proof.
  intros Hinv Hn.
  destruct (inv_unpack e n Hinv Hn) as (s1 & s2 & r & -> & H1 & H2 & -> & Hlen).
  destruct s1 as [|x s1 _] using rev_ind.
  - exists (Editor (s2 ++ NUL :: r) 0). split; [done|]. split; [done|].
    split; [done|]. simpl. lia.
  - rewrite <- !app_assoc in *. simpl in *.
    rewrite length_app in *. simpl in *.
    replace (Z.of_nat (length s1 + 1)) with (Z.of_nat (length s1) + 1)%Z by lia.
    rewrite backspace_shape by done.
    apply Forall_app in H1 as [H1 _].
    eexists. split; [done|]. split.
    { apply (shape_inv s1 s2 (NUL :: r)); [done..|].
      rewrite ?length_app. simpl. lia. }
    split; [lia|]. intros _. split; [simpl; lia|].
    unfold line_length. simpl. rewrite shape_length by done.
    f_equal. lia.
Qed.

Lemma forward_delete_inv (e : editor) (n : nat) :
  editor_inv e -> line_length e = Some n ->
  exists e', forward_delete e = Some e' /\ editor_inv e' /\
    (pos e = Z.of_nat n -> e' = e) /\
    ((pos e < Z.of_nat n)%Z ->
     pos e' = pos e /\ line_length e' = Some (n - 1)%nat).
Proof.
  intros Hinv Hn.
  destruct (inv_unpack e n Hinv Hn) as (s1 & s2 & r & -> & H1 & H2 & -> & Hlen).
  destruct s2 as [|x s2].
  - exists (Editor (s1 ++ NUL :: r) (Z.of_nat (length s1))).
    unfold forward_delete. simpl.
    pose proof (shape_length s1 [] r H1 H2) as Hl. simpl in Hl.
    rewrite Hl. simpl.
    rewrite to_size_t_small by lia. rewrite decide_False by lia.
    split; [done|]. split; [done|]. split; [done|lia].
  - inversion H2 as [|? ? Hx H2']; subst. simpl in *.
    rewrite forward_delete_shape;
      [|done..|rewrite ?length_app; simpl; rewrite ?length_app; simpl; lia].
    eexists. split; [done|]. split.
    { apply (shape_inv s1 s2 (NUL :: r)); [done..|].
      rewrite ?length_app. simpl. lia. }
    split; [lia|]. intros _. split; [done|].
    unfold line_length. simpl. rewrite shape_length by done.
    f_equal. lia.
Qed.

Lemma insert_char_inv (e : editor) (n : nat) (c : Z) :
  editor_inv e -> line_length e = Some n -> to_char c <> NUL ->
  (n < BUFFER_SIZE - 1)%nat ->
  exists e', insert_char e c = Some e' /\ editor_inv e' /\
    pos e' = (pos e + 1)%Z /\ line_length e' = Some (n + 1)%nat.
Proof.
  intros Hinv Hn Hnz Hroom.
  destruct (inv_unpack e n Hinv Hn) as (s1 & s2 & r & -> & H1 & H2 & -> & Hlen).
  destruct r as [|x r]; [simpl in Hlen; lia|]. simpl in Hlen.
  rewrite insert_char_shape by (done || lia).
  assert (nonzero (s1 ++ [to_char c])) as H1'.
  { apply Forall_app. split; [done|]. by constructor. }
  eexists. split; [done|].
  replace (s1 ++ to_char c :: s2 ++ NUL :: r)
    with ((s1 ++ [to_char c]) ++ s2 ++ NUL :: r) by (by rewrite <- app_assoc).
  replace (Z.of_nat (length s1) + 1)%Z
    with (Z.of_nat (length (s1 ++ [to_char c])))
    by (rewrite length_app; simpl; lia).
  split.
  { apply shape_inv; [done..|]. rewrite ?length_app. simpl.
    rewrite ?length_app. simpl. lia. }
  split; [simpl; rewrite length_app; simpl; lia|].
  unfold line_length. simpl. rewrite shape_length by done.
  f_equal. rewrite length_app. simpl. lia.
Qed.

Lemma insert_char_full (e : editor) (c : Z) :
  pos e = (Z.of_nat BUFFER_SIZE - 1)%Z -> insert_char e c = Some e.
Proof. intros Hp. unfold insert_char. by rewrite decide_False by lia. Qed.

(** The keys and what the loop does on them: the three arrow and delete
    sequences, the backspace byte, and any printable byte. *)
Lemma keys_reach_operations (e : editor) (inp : list Z) :
  step e (27 :: 91 :: 67 :: inp)%Z
    = (e' ← right_arrow e; Some (Continue e' inp)) /\
  step e (27 :: 91 :: 68 :: inp)%Z
    = (e' ← left_arrow e; Some (Continue e' inp)) /\
  step e (27 :: 91 :: 51 :: 126 :: inp)%Z
    = (e' ← forward_delete e; Some (Continue e' inp)) /\
  step e (127 :: inp)%Z = (e' ← backspace e; Some (Continue e' inp)) /\
  (forall c, printable c ->
     step e (c :: inp) = (e' ← insert_char e c; Some (Continue e' inp))).
Proof.
  repeat split; try done.
  intros c [Hlo Hhi]. unfold step. simpl.
  by rewrite !decide_False by lia.
Qed.

(** The keys that keep the cursor invariant.  In every state that meets it
    ([0 <= pos <= strlen(buffer)], inside the [BUFFER_SIZE] block) each of the
    four keys that do not insert is defined on the state and leaves a state
    that meets it again.
    Backspace and left arrow change nothing at [pos = 0], forward delete and
    right arrow change nothing at [pos = strlen(buffer)]; away from those
    ends the arrows move the cursor by one and the deleting keys shorten the
    line by one.  A printable character typed while the line is shorter
    than [BUFFER_SIZE - 1] is put in and moves the cursor one to the right;
    typed at [pos = BUFFER_SIZE - 1] it is dropped and nothing changes.
    The case left out, a full line with the cursor inside it, is the one
    of [insertion_into_full_line_leaves_buffer] below. *)
Lemma editing_keeps_cursor_inside_line (e : editor) (n : nat) :
  editor_inv e -> line_length e = Some n ->
  (exists e', left_arrow e = Some e' /\ editor_inv e' /\
     (pos e = 0%Z -> e' = e) /\
     ((0 < pos e)%Z -> pos e' = (pos e - 1)%Z /\ buffer e' = buffer e)) /\
  (exists e', right_arrow e = Some e' /\ editor_inv e' /\
     (pos e = Z.of_nat n -> e' = e) /\
     ((pos e < Z.of_nat n)%Z ->
      pos e' = (pos e + 1)%Z /\ buffer e' = buffer e)) /\
  (exists e', backspace e = Some e' /\ editor_inv e' /\
     (pos e = 0%Z -> e' = e) /\
     ((0 < pos e)%Z ->
      pos e' = (pos e - 1)%Z /\ line_length e' = Some (n - 1)%nat)) /\
  (exists e', forward_delete e = Some e' /\ editor_inv e' /\
     (pos e = Z.of_nat n -> e' = e) /\
     ((pos e < Z.of_nat n)%Z ->
      pos e' = pos e /\ line_length e' = Some (n - 1)%nat)) /\
  (forall c, printable c ->
     ((n < BUFFER_SIZE - 1)%nat ->
      exists e', insert_char e c = Some e' /\ editor_inv e' /\
        pos e' = (pos e + 1)%Z /\ line_length e' = Some (n + 1)%nat) /\
     (pos e = (Z.of_nat BUFFER_SIZE - 1)%Z -> insert_char e c = Some e)).
Proof.
  intros Hinv Hn.
  split; [by apply left_arrow_inv|].
  split; [by apply right_arrow_inv|].
  split; [by apply backspace_inv|].
  split; [by apply forward_delete_inv|].
  intros c Hc. split.
  - intros Hroom. apply insert_char_inv; [done..| |done].
    apply to_char_nonzero. unfold printable in Hc. lia.
  - apply insert_char_full.
Qed.

Lemma sample_line_inv : editor_inv sample_line.
Proof. split; [reflexivity|]. exists 5%nat. split; [reflexivity|simpl; lia]. Qed.

Lemma editing_keeps_cursor_inside_line_witness :
  editor_inv sample_line /\ line_length sample_line = Some 5%nat /\
  exists e', insert_char sample_line 120 = Some e' /\ editor_inv e' /\
    pos e' = 3%Z /\ line_length e' = Some 6%nat.
Proof.
  split; [exact sample_line_inv|]. split; [reflexivity|].
  destruct (editing_keeps_cursor_inside_line sample_line 5 sample_line_inv
              eq_refl) as (_ & _ & _ & _ & Hins).
  destruct (Hins 120%Z) as [Hroom _]; [unfold printable; lia|].
  apply Hroom. unfold BUFFER_SIZE. lia.
Defined.

(** With the cursor at [BUFFER_SIZE - 1] a typed character is dropped by
    the capacity test, so the cursor does not advance. *)
Lemma insertion_at_capacity_does_not_advance :
  editor_inv full_line /\ printable 98 /\
  ~ (exists e', insert_char full_line 98 = Some e' /\
                pos e' = (pos full_line + 1)%Z).
Proof.
  split.
  { split; [reflexivity|]. exists 1023%nat. split; [by vm_compute|simpl; lia]. }
  split; [unfold printable; lia|].
  intros (e' & He' & Hpos).
  rewrite insert_char_full in He' by reflexivity.
  injection He' as <-. simpl in Hpos. lia.
Qed.

(** *** A full line with the cursor inside it *)

(** C9.  Insertion does not preserve the cursor invariant: it is guarded
    by [pos < BUFFER_SIZE - 1], a test on the cursor and not on the length
    of the line.  In every state that meets the invariant with a line of
    [BUFFER_SIZE - 1] characters and the cursor before its end, the guard
    lets the character through, and [memmove] moves the rest of the line
    with its terminator one byte up: the terminator is written to
    [buffer[BUFFER_SIZE]], outside the block, which is undefined
    behaviour.  No state follows, so neither does the cursor advance nor
    is the invariant kept. *)
Theorem insertion_into_full_line_leaves_buffer (e : editor) (c : Z) :
  editor_inv e ->
  line_length e = Some (BUFFER_SIZE - 1)%nat ->
  (pos e < Z.of_nat BUFFER_SIZE - 1)%Z ->
  insert_char e c = None.
Proof.
  intros Hinv Hn Hpos.
  destruct (inv_unpack e _ Hinv Hn) as (s1 & s2 & r & -> & H1 & H2 & Hlen & Hsz).
  simpl in Hpos. unfold insert_char. simpl.
  rewrite decide_True by done.
  rewrite index_of_nat. simpl.
  replace (Z.of_nat (length s1) + 1)%Z with (Z.of_nat (S (length s1))) by lia.
  rewrite index_of_nat. simpl.
  rewrite shape_length_at by done. simpl.
  unfold memmove. rewrite decide_False; [done|].
  rewrite !length_app. cbn [length]. lia.
Qed.

Lemma insertion_into_full_line_leaves_buffer_witness :
  editor_inv full_line_cursor_back /\
  line_length full_line_cursor_back = Some 1023%nat /\
  insert_char full_line_cursor_back 98 = None.
Proof.
  assert (editor_inv full_line_cursor_back) as Hinv.
  { split; [reflexivity|]. exists 1023%nat.
    split; [by vm_compute|simpl; lia]. }
  assert (line_length full_line_cursor_back = Some (BUFFER_SIZE - 1)%nat)
    as Hn by (by vm_compute).
  split; [exact Hinv|]. split; [exact Hn|].
  apply (insertion_into_full_line_leaves_buffer full_line_cursor_back 98
           Hinv Hn).
  simpl. unfold BUFFER_SIZE. lia.
Defined.

(** The state is reached from the empty line by typing: after the 1024
    rounds that read 1023 letters and one left arrow, the editor is in
    [full_line_cursor_back].  The round that reads one more letter there
    is undefined, and so is the call of [lush_read_line]. *)
Example full_line_is_typed :
  rounds 1024 (Editor (replicate BUFFER_SIZE NUL) 0)
         (full_line_keys ++ [98; 10]%Z)
  = Some (full_line_cursor_back, [98; 10]%Z) /\
  step full_line_cursor_back [98; 10]%Z = None.
Proof. split; by vm_compute. Qed.

Lemma read_loop_after_rounds (k n : nat) :
  forall e inp e' inp',
    rounds n e inp = Some (e', inp') ->
    read_loop (n + k) e inp = read_loop k e' inp'.
Proof.
  induction n as [|n IH]; intros e inp e' inp'; simpl.
  - by intros [= <- <-].
  - destruct (step e inp) as [[e1 inp1|e1 inp1]|]; [|done..]. apply IH.
Qed.

Example typing_into_full_line_is_undefined (fuel : nat) :
  lush_read_line (1024 + S fuel) (full_line_keys ++ [98; 10]%Z) = Undefined.
Proof.
  unfold lush_read_line.
  rewrite (read_loop_after_rounds (S fuel) 1024 _ _
             full_line_cursor_back [98; 10]%Z) by (by vm_compute).
  cbn [read_loop].
  by replace (step full_line_cursor_back [98; 10]%Z)
    with (@None step_result) by (by vm_compute).
Qed.

(** *** End of input *)

(** At end of input [getchar] keeps returning [EOF], which is none of the
    three bytes the loop tests for: the round ends in the inserting branch
    and the loop goes round again. *)
Lemma read_loop_spins (fuel : nat) (e : editor) (n : nat) :
  editor_inv e -> line_length e = Some n -> pos e = Z.of_nat n ->
  read_loop fuel e [] = Spinning.
Proof.
  revert e n. induction fuel as [|fuel IH]; intros e n Hinv Hn Hp; [done|].
  simpl. unfold step. simpl.
  destruct (decide (n < BUFFER_SIZE - 1)%nat) as [Hroom|Hfull].
  - destruct (insert_char_inv e n EOF Hinv Hn) as (e' & -> & Hinv' & Hp' & Hn');
      [by vm_compute|done|].
    simpl. apply (IH e' (n + 1)%nat); [done..|]. lia.
  - destruct (inv_unpack e n Hinv Hn) as (s1 & s2 & r & He & _ & _ & Hlen & Hsz).
    rewrite insert_char_full by lia.
    simpl. by apply (IH e n).
Qed.

(** With nothing left to read no round of the loop reaches the [break],
    in whatever state the editor is. *)
Lemma read_loop_cannot_return (fuel : nat) :
  forall e line rest, read_loop fuel e [] <> Returned line rest.
Proof.
  induction fuel as [|fuel IH]; intros e line rest; [done|].
  simpl. unfold step. simpl.
  destruct (insert_char e EOF) as [e'|]; simpl; [apply IH|done].
Qed.

(** C5: the code.  On an input stream that is at its end [lush_read_line]
    has not returned after any number of rounds of its loop; and once the
    input is used up the loop does not return any more from any state. *)
Theorem read_line_never_returns_at_end_of_input (fuel : nat) :
  lush_read_line fuel [] = Spinning /\
  forall e line rest, read_loop fuel e [] <> Returned line rest.
Proof.
  split; [|apply read_loop_cannot_return].
  unfold lush_read_line. apply (read_loop_spins fuel _ 0%nat); [|done..].
  split; [apply length_replicate|]. exists 0%nat. split; [done|simpl; lia].
Qed.

(** With Enter in the input the same loop does return the typed line. *)
Example read_line_returns_on_enter :
  line_text (lush_read_line 10 (keys "ls" ++ [10%Z])) = Some "ls".
Proof. by vm_compute. Qed.

End EditorFacts.

(** * The tokenizer *)

Module TokenizerFacts.
Import Mem MemFacts Tokenizer Lines Samples.

Lemma split_stages_cons (env : string -> option string) (t : bool)
    (m : list ascii) (c : nat) (cs : list nat)
    (done : list (list (option pointer))) :
  split_stages env t m (c :: cs) done
  = (s ← scan env (S (length m))
           (ScanState m c (calloc MAX_ARGS) 0 false (Some c));
     if inside_string s then Ok (line s, done, UNTERMINATED)
     else
       b ← lift (token_pending (line s) (current_token s));
       a ← (if b : bool
            then lift (put (args s) (pos s) (InLine <$> current_token s))
            else Ok (args s));
       split_stages env t (line s) cs (done ++ [a])).
Proof. reflexivity. Qed.

(** ** The bound on the scanning loop *)

Lemma store_length (m m' : list ascii) (p : nat) (c : ascii) :
  store m p c = Some m' -> length m' = length m.
Proof.
  unfold store. case_decide; [|done]. intros [= <-]. apply length_insert.
Qed.

(** A round of the loop never moves back and never resizes the buffer. *)
Lemma scan_body_progress (env : string -> option string)
    (s s' : scan_state) (c : ascii) :
  scan_body env s c = Some s' ->
  (at_ s <= at_ s')%nat /\ length (line s') = length (line s).
Proof.
  unfold scan_body. intros Hbody.
  repeat first [case_decide | case_match | progress simplify_option_eq];
    simpl;
    repeat match goal with
           | H : store _ _ _ = Some _ |- _ => apply store_length in H
           end;
    split; first [lia | congruence].
Qed.

(** Every round reads a byte of the buffer further on, so the loop is over,
    one way or the other, before as many rounds as the buffer has bytes. *)
Lemma scan_within_fuel (env : string -> option string) (fuel : nat) :
  forall s,
    (1 <= fuel)%nat -> (length (line s) + 1 <= fuel + at_ s)%nat ->
    scan env fuel s <> OutOfFuel.
Proof.
  induction fuel as [|fuel IH]; intros s Hfuel Hlen; [lia|].
  simpl. unfold load.
  destruct (line s !! at_ s) as [c|] eqn:Hc; simpl; [|done].
  apply lookup_lt_Some in Hc.
  destruct (decide (c = NUL)); [done|].
  destruct (scan_body env s c) as [s'|] eqn:Hbody; simpl; [|done].
  destruct (scan_body_progress _ _ _ _ Hbody) as [Hat Hl].
  apply IH; simpl; lia.
Qed.

Lemma split_stages_within_fuel (env : string -> option string) (t : bool)
    (cs : list nat) :
  forall m acc, split_stages env t m cs acc <> OutOfFuel.
Proof.
  induction cs as [|c cs IH]; intros m acc; [by destruct t|].
  rewrite split_stages_cons.
  destruct (scan env (S (length m)) _) as [s| |] eqn:Hscan; simpl; [|done|].
  - destruct (inside_string s); [done|].
    destruct (token_pending (line s) (current_token s)) as [b|]; [|done].
    simpl. destruct b; [|apply IH].
    destruct (put (args s) (pos s) (InLine <$> current_token s)); [|done].
    apply IH.
  - by apply scan_within_fuel in Hscan; simpl; [|lia..].
Qed.

(** The tokenizer's result is never an artefact of the bound. *)
Lemma tokenize_within_fuel (env : string -> option string) (m : list ascii) :
  tokenize env m <> OutOfFuel.
Proof.
  unfold tokenize, lush_split_args.
  destruct (lush_split_pipes m 0) as [[m1 cs]|]; simpl; [|done].
  pose proof (split_stages_within_fuel env
                (bool_decide (length cs < MAX_COMMANDS)%nat) cs m1 []) as Hs.
  destruct (split_stages env _ m1 cs []) as [[[m2 p] status]| |]; simpl;
    [|done..].
  by destruct (read_pipeline m2 p).
Qed.

(** ** Environment variables *)

Lemma cstring_from_strlen (l : list ascii) (s : string) :
  cstring_from l = Some s -> strlen_from l = Some (String.length s).
Proof.
  revert s. induction l as [|c l IH]; intros s; simpl; [done|].
  destruct (decide (c = NUL)).
  - by intros [= <-].
  - destruct (cstring_from l) as [t|]; simpl; [|done].
    intros [= <-]. by rewrite (IH t).
Qed.

(** The variable branch of the scanning loop stores what [getenv] returns,
    so for a variable that is not set it stores [NULL] and counts it as an
    argument. *)
Lemma scan_body_stores_null_for_unset (env : string -> option string)
    (s : scan_state) (c1 : ascii) (name : string) :
  inside_string s = false ->
  load (line s) (S (at_ s)) = Some c1 -> c1 <> NUL -> c1 <> SPACE ->
  cstring (line s) (S (at_ s)) = Some name ->
  env name = None ->
  (pos s < length (args s))%nat ->
  exists s',
    scan_body env s DOLLAR = Some s' /\
    args s' = <[pos s:=None]> (args s) /\ pos s' = S (pos s).
Proof.
  intros Hin Hc1 Hnul Hsp Hname Henv Hpos. unfold scan_body.
  rewrite decide_False by (intros [? _]; done).
  rewrite Hin. rewrite decide_False by done. rewrite decide_True by done.
  rewrite Hc1. simpl. rewrite decide_True by done.
  rewrite Hname. simpl. unfold getenv. rewrite Henv. simpl.
  unfold put. rewrite decide_True by done. simpl.
  unfold cstring in Hname. unfold strlen.
  rewrite (cstring_from_strlen _ _ Hname). simpl.
  eexists. split; [done|]. done.
Qed.

(** C1: the code on [echo $NOPE] with [NOPE] not set.  The array of the
    stage has [NULL] where the variable stood and a further entry, an empty
    string, behind it; with the variable set the array is as long and has
    the value in that place. *)
Theorem unset_variable_becomes_null_entry :
  (exists a,
     tokenize only_home (typed "echo $NOPE") = Ok ([a], 1%Z) /\
     take 4 a = [Some "echo"; None; Some ""; None]) /\
  (exists a,
     tokenize only_home (typed "echo $HOME") = Ok ([a], 1%Z) /\
     take 4 a = [Some "echo"; Some "/home/u"; Some ""; None]).
Proof. split; eexists; (split; [by vm_compute|done]). Qed.

(** ** Splitting at the pipes *)

Lemma strspn_from_run (pipes t : list ascii) (x : ascii) :
  all_pipes pipes -> x <> PIPE ->
  strspn_from (pipes ++ x :: t) = Some (length pipes).
Proof.
  intros Hp Hx. induction Hp as [|c pipes Hc _ IH]; simpl.
  - by rewrite decide_False.
  - rewrite decide_True by done. by rewrite IH.
Qed.

Lemma strcspn_from_run (tok t : list ascii) (x : ascii) :
  nonzero tok -> no_pipes tok -> x = NUL \/ x = PIPE ->
  strcspn_from (tok ++ x :: t) = Some (length tok).
Proof.
  intros Hz Hp Hx. induction tok as [|c tok IH]; simpl.
  - by rewrite decide_True.
  - inversion Hz; inversion Hp; subst.
    rewrite decide_False by (intros [?|?]; done). by rewrite IH.
Qed.

(** A line is a run of pipes, or a run of pipes and a last token, or a run
    of pipes, a token, a pipe and more. *)
Lemma line_cases (l : list ascii) :
  all_pipes l \/
  (exists pipes tok,
     l = pipes ++ tok /\ all_pipes pipes /\ tok <> [] /\ no_pipes tok) \/
  (exists pipes tok l',
     l = pipes ++ tok ++ PIPE :: l' /\ all_pipes pipes /\ tok <> [] /\
     no_pipes tok).
Proof.
  induction l as [|c l IH].
  - left. constructor.
  - destruct (decide (c = PIPE)) as [->|Hc].
    + destruct IH as [Hall|[(pipes & tok & -> & Hp & Hne & Hn)
                           |(pipes & tok & l' & -> & Hp & Hne & Hn)]].
      * left. by constructor.
      * right. left. exists (PIPE :: pipes), tok.
        split; [done|]. split; [by constructor|done].
      * right. right. exists (PIPE :: pipes), tok, l'.
        split; [done|]. split; [by constructor|done].
    + right.
      destruct IH as [Hall|[(pipes & tok & -> & Hp & Hne & Hn)
                           |(pipes & tok & l' & -> & Hp & Hne & Hn)]].
      * destruct l as [|d l].
        { left. exists [], [c]. split; [done|]. split; [constructor|].
          split; [done|]. by constructor. }
        { right. inversion Hall; subst. exists [], [c], l.
          split; [done|]. split; [constructor|]. split; [done|].
          by constructor. }
      * destruct pipes as [|d pipes].
        { left. exists [], (c :: tok). split; [done|].
          split; [constructor|]. split; [done|]. by constructor. }
        { right. inversion Hp; subst. exists [], [c], (pipes ++ tok).
          split; [done|]. split; [constructor|]. split; [done|].
          by constructor. }
      * destruct pipes as [|d pipes].
        { right. exists [], (c :: tok), l'. split; [done|].
          split; [constructor|]. split; [done|]. by constructor. }
        { right. inversion Hp; subst.
          exists [], [c], (pipes ++ tok ++ PIPE :: l').
          split; [done|]. split; [constructor|]. split; [done|].
          by constructor. }
Qed.

Lemma fields_all_pipes (l : list ascii) (b : bool) :
  all_pipes l -> fields b l = 0%nat.
Proof.
  intros Hl. revert b. induction Hl as [|c l Hc _ IH]; intros b; simpl; [done|].
  by rewrite decide_True.
Qed.

Lemma fields_skip_pipes (pipes l : list ascii) (b : bool) :
  all_pipes pipes -> pipes <> [] \/ b = true ->
  fields b (pipes ++ l) = fields true l.
Proof.
  intros Hp. revert b. induction Hp as [|c pipes Hc _ IH]; intros b Hb; simpl.
  - by destruct Hb as [?| ->].
  - rewrite decide_True by done. apply IH. by right.
Qed.

Lemma fields_token (tok l : list ascii) :
  no_pipes tok -> fields false (tok ++ l) = fields false l.
Proof.
  induction 1 as [|c tok Hc _ IH]; simpl; [done|].
  by rewrite decide_False.
Qed.

Lemma fields_first_token (tok l : list ascii) :
  tok <> [] -> no_pipes tok ->
  fields true (tok ++ l) = S (fields false l).
Proof.
  intros Hne Hn. destruct Hn as [|c tok Hc Hn]; [done|]. simpl.
  rewrite decide_False by done. by rewrite fields_token.
Qed.

(** *** One call of [strtok] *)

Lemma load_middle (a b : list ascii) (x : ascii) (n : nat) :
  n = length a -> load (a ++ x :: b) n = Some x.
Proof. intros ->. unfold load. by apply list_lookup_middle. Qed.

Lemma store_middle (a b : list ascii) (x y : ascii) (n : nat) :
  n = length a -> store (a ++ x :: b) n y = Some (a ++ y :: b).
Proof.
  intros ->. unfold store.
  rewrite decide_True by (rewrite length_app; simpl; lia).
  f_equal. replace (length a) with (length a + 0)%nat by lia.
  by rewrite insert_app_r.
Qed.

(** Nothing but pipes is left: [strtok] returns [NULL]. *)
Lemma strtok_none (pre suf rest : list ascii) :
  all_pipes suf ->
  strtok (pre ++ suf ++ NUL :: rest) (length pre)
  = Some (pre ++ suf ++ NUL :: rest, None, (length pre + length suf)%nat).
Proof.
  intros Hs. unfold strtok. destruct Hs as [|c suf -> Hs]; simpl.
  - rewrite load_middle by done. simpl. by rewrite Nat.add_0_r.
  - rewrite load_middle by done. simpl.
    rewrite drop_app_length.
    change (PIPE :: suf ++ NUL :: rest) with ((PIPE :: suf) ++ NUL :: rest).
    rewrite strspn_from_run by (done || by constructor). simpl.
    replace (pre ++ PIPE :: suf ++ NUL :: rest)
      with ((pre ++ PIPE :: suf) ++ NUL :: rest) by (by rewrite <- app_assoc).
    rewrite load_middle by (rewrite length_app; simpl; lia).
    done.
Qed.

(** A token is left, ended by [x]: the terminator of the line or a pipe,
    which [strtok] overwrites. *)
Lemma strtok_token (pre pipes tok t : list ascii) (x : ascii) :
  all_pipes pipes -> tok <> [] -> nonzero tok -> no_pipes tok ->
  x = NUL \/ x = PIPE ->
  strtok (pre ++ pipes ++ tok ++ x :: t) (length pre)
  = Some (pre ++ pipes ++ tok ++ NUL :: t,
          Some (length pre + length pipes)%nat,
          if decide (x = NUL)
          then (length pre + length pipes + length tok)%nat
          else S (length pre + length pipes + length tok)).
Proof.
  intros Hp Hne Hz Hn Hx. unfold strtok.
  destruct tok as [|y tok]; [done|].
  inversion Hz as [|? ? Hy Hz']; inversion Hn as [|? ? Hy' Hn']; subst.
  assert (exists c, load (pre ++ pipes ++ (y :: tok) ++ x :: t) (length pre)
                    = Some c /\ c <> NUL) as (c & -> & Hc).
  { destruct Hp as [|d pipes -> Hp]; simpl.
    - exists y. by rewrite load_middle.
    - exists PIPE. by rewrite load_middle. }
  simpl. rewrite decide_False by done.
  rewrite drop_app_length.
  change (pipes ++ y :: tok ++ x :: t) with (pipes ++ y :: (tok ++ x :: t)).
  rewrite strspn_from_run by done. simpl.
  rewrite (app_assoc pre pipes).
  rewrite load_middle by (by rewrite length_app).
  simpl. rewrite decide_False by done.
  rewrite drop_app_length' by (by rewrite length_app).
  change (y :: tok ++ x :: t) with ((y :: tok) ++ x :: t).
  rewrite strcspn_from_run by (done || by constructor). simpl.
  replace ((pre ++ pipes) ++ y :: tok ++ x :: t)
    with (((pre ++ pipes) ++ y :: tok) ++ x :: t)
    by (by rewrite <- (app_assoc (pre ++ pipes))).
  rewrite load_middle by (rewrite !length_app; simpl; lia).
  simpl. destruct (decide (x = NUL)) as [->|Hnz].
  - by rewrite <- !app_assoc.
  - rewrite store_middle by (rewrite !length_app; simpl; lia).
    simpl. by rewrite <- !app_assoc.
Qed.

(** *** The loop over the tokens *)

Lemma same_but_pipes_refl (m : list ascii) : same_but_pipes m m.
Proof. by split. Qed.

Lemma same_but_pipes_trans (m1 m2 m3 : list ascii) :
  same_but_pipes m1 m2 -> same_but_pipes m2 m3 -> same_but_pipes m1 m3.
Proof.
  intros [Hl1 H1] [Hl2 H2]. split; [congruence|].
  intros j Hj. rewrite H2; [by apply H1|]. by rewrite H1.
Qed.

Lemma same_but_pipes_store (a b : list ascii) (x : ascii) :
  x = NUL \/ x = PIPE ->
  same_but_pipes (a ++ x :: b) (a ++ NUL :: b).
Proof.
  intros [-> | ->]; [apply same_but_pipes_refl|].
  split; [by rewrite !length_app|].
  intros j Hj. destruct (decide (j = length a)) as [->|Hne].
  - by rewrite list_lookup_middle in Hj.
  - destruct (decide (j < length a)%nat).
    + by rewrite !lookup_app_l by done.
    + rewrite !lookup_app_r by lia.
      destruct (j - length a)%nat as [|k] eqn:Hk; [lia|done].
Qed.

Lemma fields_step (pipes tok l' : list ascii) :
  all_pipes pipes -> tok <> [] -> no_pipes tok ->
  fields true (pipes ++ tok ++ PIPE :: l') = S (fields true l').
Proof.
  intros Hp Hne Hn. rewrite fields_skip_pipes by (done || by right).
  by rewrite fields_first_token by done.
Qed.

Lemma fields_last (pipes tok : list ascii) :
  all_pipes pipes -> tok <> [] -> no_pipes tok ->
  fields true (pipes ++ tok) = 1%nat.
Proof.
  intros Hp Hne Hn. rewrite fields_skip_pipes by (done || by right).
  rewrite <- (app_nil_r tok). by rewrite fields_first_token.
Qed.

Lemma split_loop_none (room : nat) (m : list ascii) (save : nat) :
  split_loop room m save None = Some (m, []).
Proof. by destruct room. Qed.

Lemma split_loop_first (room : nat) (m : list ascii) (line c : nat)
    (m' : list ascii) (cs : list nat) :
  split_loop (S room) m line (Some c) = Some (m', c :: cs) ->
  ('(m, command, save) ← strtok m line; split_loop room m save command)
  = Some (m', cs).
Proof.
  simpl. destruct (strtok m line) as [[[m1 command] save]|]; [|done]. simpl.
  destruct (split_loop room m1 save command) as [[m2 cs2]|]; [|done]. simpl.
  by intros [= -> ->].
Qed.

(** With enough room in [commands] the loop stores one pointer for each
    non-empty run and overwrites nothing but pipes. *)
Lemma split_loop_fields (rest : list ascii) (n : nat) :
  forall suf pre c room,
    (length suf <= n)%nat -> nonzero suf -> (fields true suf < room)%nat ->
    exists m' cs,
      split_loop room (pre ++ suf ++ NUL :: rest) (length pre) (Some c)
      = Some (m', c :: cs) /\
      length cs = fields true suf /\
      Forall (fun x => (length pre <= x <= length pre + length suf)%nat) cs /\
      same_but_pipes (pre ++ suf ++ NUL :: rest) m'.
Proof.
  induction n as [|n IH]; intros suf pre c room Hlen Hz Hroom.
  - destruct suf; [|simpl in Hlen; lia]. simpl in *.
    destruct room as [|room]; [lia|]. simpl.
    pose proof (strtok_none pre [] rest (Forall_nil_2 _)) as Hs.
    simpl in Hs. rewrite Hs. simpl. rewrite split_loop_none. simpl.
    eexists _, []. split; [done|]. split; [done|].
    split; [constructor|apply same_but_pipes_refl].
  - destruct room as [|room]; [lia|]. simpl.
    destruct (line_cases suf) as [Hall|[(pipes & tok & -> & Hp & Hne & Hn)
                                      |(pipes & tok & l' & -> & Hp & Hne & Hn)]].
    + rewrite strtok_none by done. simpl. rewrite split_loop_none. simpl.
      rewrite fields_all_pipes by done.
      eexists _, []. split; [done|]. split; [done|].
      split; [constructor|apply same_but_pipes_refl].
    + apply Forall_app in Hz as [_ Hz].
      rewrite fields_last in * by done.
      rewrite <- (app_assoc pipes tok).
      rewrite strtok_token by (done || by left). simpl.
      replace (pre ++ pipes ++ tok ++ NUL :: rest)
        with ((pre ++ pipes ++ tok) ++ [] ++ NUL :: rest)
        by (by rewrite <- !app_assoc).
      replace (length pre + length pipes + length tok)%nat
        with (length (pre ++ pipes ++ tok)) by (rewrite !length_app; lia).
      destruct (IH [] (pre ++ pipes ++ tok) (length pre + length pipes)%nat room)
        as (m' & cs & -> & Hcs & _ & Hsame); [simpl; lia|constructor|simpl; lia|].
      simpl. eexists _, _. split; [done|].
      destruct cs; [|done]. split; [done|]. split; [|done].
      constructor; [|constructor]. rewrite !length_app. lia.
    + apply Forall_app in Hz as [_ Hz]. apply Forall_app in Hz as [Hz Hz'].
      inversion Hz' as [|? ? _ Hz'']; subst.
      rewrite fields_step in * by done.
      rewrite <- !app_assoc. simpl.
      rewrite strtok_token by (done || by right). simpl.
      replace (pre ++ pipes ++ tok ++ NUL :: l' ++ NUL :: rest)
        with ((pre ++ pipes ++ tok ++ [NUL]) ++ l' ++ NUL :: rest)
        by (by rewrite <- !app_assoc).
      replace (S (length pre + length pipes + length tok))
        with (length (pre ++ pipes ++ tok ++ [NUL]))
        by (rewrite !length_app; simpl; lia).
      rewrite !length_app in Hlen. simpl in Hlen.
      destruct (IH l' (pre ++ pipes ++ tok ++ [NUL])
                  (length pre + length pipes)%nat room)
        as (m' & cs & -> & Hcs & Hb & Hsame); [lia|done|lia|].
      simpl. eexists _, _. split; [done|]. split; [simpl; lia|]. split.
      * constructor; [rewrite !length_app; lia|].
        eapply Forall_impl; [exact Hb|]. intros x. simpl.
        rewrite !length_app. simpl. lia.
      * eapply same_but_pipes_trans; [|exact Hsame].
        replace (pre ++ pipes ++ tok ++ PIPE :: l' ++ NUL :: rest)
          with ((pre ++ pipes ++ tok) ++ PIPE :: l' ++ NUL :: rest)
          by (by rewrite <- !app_assoc).
        replace ((pre ++ pipes ++ tok ++ [NUL]) ++ l' ++ NUL :: rest)
          with ((pre ++ pipes ++ tok) ++ NUL :: l' ++ NUL :: rest)
          by (by rewrite <- !app_assoc).
        apply same_but_pipes_store. by right.
Qed.

(** *** Trimming *)

Lemma skip_blank_from_stops (l : list ascii) (j : nat) :
  text_at l j ->
  exists k, skip_blank_from l = Some k /\ (k <= j)%nat /\ text_at l k.
Proof.
  revert j. induction l as [|c l IH]; intros j (x & Hx & Hb); [done|].
  simpl. destruct (is_blank c) eqn:Hc.
  - destruct j as [|j]; [simpl in Hx; congruence|].
    destruct (IH j) as (k & -> & Hk & Ht); [by exists x|].
    exists (S k). split; [done|]. split; [lia|done].
  - exists 0%nat. split; [done|]. split; [lia|]. by exists c.
Qed.

Lemma strlen_from_stops (l : list ascii) (j : nat) :
  l !! j = Some NUL ->
  exists n, strlen_from l = Some n /\ (n <= j)%nat /\
            (n = 0%nat -> l !! 0%nat = Some NUL).
Proof.
  revert j. induction l as [|c l IH]; intros j Hj; [done|].
  simpl. destruct (decide (c = NUL)) as [->|Hc].
  - exists 0%nat. split; [done|]. split; [lia|done].
  - destruct j as [|j]; [simpl in Hj; congruence|].
    destruct (IH j Hj) as (n & -> & Hn & _).
    exists (S n). split; [done|]. split; [lia|done].
Qed.

Lemma trim_back_stops (e : nat) :
  forall m i,
    (i < e <= length m)%nat -> text_at m i ->
    exists m', trim_back m e = Some m' /\ length m' = length m /\
               forall j, (j <= i \/ e <= j)%nat -> m' !! j = m !! j.
Proof.
  induction e as [|p IH]; intros m i Hi (x & Hx & Hb); [lia|].
  simpl. unfold load.
  destruct (m !! p) as [c|] eqn:Hc.
  2:{ apply lookup_ge_None in Hc. lia. }
  simpl. destruct (is_blank c) eqn:Hbc.
  - assert (i <> p) as Hne by (intros ->; congruence).
    destruct (IH (<[p:=NUL]> m) i) as (m' & -> & Hlen & Hsame).
    { rewrite length_insert. lia. }
    { exists x. by rewrite list_lookup_insert_ne. }
    exists m'. split; [done|]. split; [by rewrite Hlen, length_insert|].
    intros j Hj. rewrite Hsame by lia. apply list_lookup_insert_ne. lia.
  - by exists m.
Qed.

Lemma trim_commands_defined (i0 E : nat) (cs : list nat) :
  forall m,
    trimmable m i0 E -> Forall (fun c => (c <= E)%nat) cs ->
    exists m' cs',
      trim_commands m cs = Some (m', cs') /\ length cs' = length cs.
Proof.
  induction cs as [|c cs IH]; intros m Hm Hcs.
  - by exists m, [].
  - inversion Hcs as [|? ? Hc Hcs']; subst.
    destruct Hm as (HE & Hnul & (c0 & Hc0 & Hb0 & Hnz0) & Hblank).
    simpl.
    destruct (skip_blank_from_stops (drop c m) (E - c)) as (k & -> & Hk & Ht).
    { exists NUL. rewrite lookup_drop.
      by replace (c + (E - c))%nat with E by lia. }
    simpl. destruct Ht as (y & Hy & Hby). rewrite lookup_drop in Hy.
    destruct (strlen_from_stops (drop (c + k) m) (E - (c + k)))
      as (n & Hn & Hle & Hzero).
    { rewrite lookup_drop. by replace (c + k + (E - (c + k)))%nat with E by lia. }
    unfold strlen. rewrite Hn. simpl.
    assert (i0 < c + k + n)%nat as Hi0.
    { destruct (decide (i0 < c + k)%nat) as [|Hge]; [lia|].
      assert (c + k = i0)%nat as Heq.
      { destruct (decide (c + k = i0)%nat) as [|Hne]; [done|].
        destruct (Hblank (c + k)%nat) as (b & Hb & Hbb); [lia|]. congruence. }
      destruct n as [|n]; [|lia].
      specialize (Hzero eq_refl). rewrite lookup_drop, Nat.add_0_r in Hzero.
      congruence. }
    destruct (trim_back_stops (c + k + n) m i0) as (m1 & -> & Hlen & Hsame).
    { lia. }
    { by exists c0. }
    simpl.
    destruct (IH m1) as (m' & cs' & -> & Hcs''); [|done|].
    { split; [lia|]. split; [rewrite Hsame by lia; done|]. split.
      - exists c0. by rewrite Hsame by lia.
      - intros j Hj. destruct (Hblank j Hj) as (b & Hb & Hbb).
        exists b. by rewrite Hsame by lia. }
    simpl. exists m', (c + k :: cs')%nat. split; [done|]. simpl. lia.
Qed.

(** *** The number of stages *)

Lemma starts_with_text_split (l : list ascii) :
  starts_with_text l = true ->
  exists i0 c0,
    l !! i0 = Some c0 /\ is_blank c0 = false /\ c0 <> PIPE /\
    forall j, (j < i0)%nat -> blank_at l j.
Proof.
  induction l as [|c l IH]; simpl; [done|].
  destruct (is_blank c) eqn:Hc.
  - intros Hl. destruct (IH Hl) as (i0 & c0 & Hi0 & Hb & Hp & Hblank).
    exists (S i0), c0. split; [done|]. split; [done|]. split; [done|].
    intros [|j] Hj; [by exists c|]. apply Hblank. lia.
  - intros Hp. apply bool_decide_eq_true in Hp.
    exists 0%nat, c. split; [done|]. split; [done|]. split; [done|]. lia.
Qed.

Lemma separated_fields (l : list ascii) (b : bool) :
  separated b l = true ->
  fields b l = if b then S (count_pipes l) else count_pipes l.
Proof.
  revert b. induction l as [|c l IH]; intros b; simpl.
  - by destruct b.
  - destruct (decide (c = PIPE)).
    + destruct b; simpl; [done|]. intros Hs. by rewrite (IH true Hs).
    + intros Hs. rewrite (IH false Hs). by destruct b.
Qed.

(** The status of [lush_split_args] is -1 or the number of commands, and
    then every command has its array. *)
Lemma split_stages_status (env : string -> option string) (t : bool)
    (cs : list nat) :
  forall m done m' p status,
    split_stages env t m cs done = Ok (m', p, status) ->
    status = UNTERMINATED \/
    (status = Z.of_nat (length done + length cs) /\
     length p = (length done + length cs)%nat).
Proof.
  induction cs as [|c cs IH]; intros m done m' p status.
  - simpl. destruct t; [|done].
    intros [= <- <- <-]. right. split; [f_equal; lia|lia].
  - rewrite split_stages_cons.
    destruct (scan env (S (length m)) _) as [s| |]; simpl; [|done..].
    destruct (inside_string s).
    + intros [= <- <- <-]. by left.
    + destruct (token_pending (line s) (current_token s)) as [b|]; [|done].
      simpl.
      destruct (if b then lift (put (args s) (pos s) (InLine <$> current_token s))
                else Ok (args s)) as [a| |]; simpl; [|done..].
      intros Hrec. destruct (IH _ _ _ _ _ Hrec) as [?|[-> ->]]; [by left|].
      right. rewrite length_app. simpl. split; [f_equal; lia|lia].
Qed.

(** C3, as the code has it.  [strtok] skips every pipe it stands on, so
    [lush_split_pipes] cuts the line into as many commands as there are
    non-empty runs of characters between the pipes of the line.  That is
    one more than the number of pipes when every pipe stands between two
    non-empty runs.  Whenever [lush_split_args] then returns with a status
    other than -1, the status and the number of argument arrays, the
    stages of the pipeline, are that number of commands; when it returns
    -1 no pipeline is run.  The line has to start with text (its first
    character that is not blank is not a pipe) and to hold fewer runs than
    the [commands] array has entries.  The bound on the scanning loop is
    never what keeps [lush_split_args] from returning. *)
Theorem stages_are_the_runs_between_pipes (l rest : list ascii) :
  nonzero l -> starts_with_text l = true ->
  (fields true l < MAX_COMMANDS)%nat ->
  exists m cs,
    lush_split_pipes (l ++ NUL :: rest) 0 = Some (m, cs) /\
    length cs = fields true l /\
    (separated true l = true -> length cs = S (count_pipes l)) /\
    (forall env m' p status,
       lush_split_args env m cs = Ok (m', p, status) ->
       status <> UNTERMINATED ->
       status = Z.of_nat (length cs) /\ length p = length cs) /\
    (forall env, lush_split_args env m cs <> OutOfFuel).
Proof.
  intros Hz Htext Hroom.
  destruct (starts_with_text_split l Htext) as (i0 & c0 & Hi0 & Hb0 & Hp0 & Hblank).
  cut (exists m cs,
         lush_split_pipes (l ++ NUL :: rest) 0 = Some (m, cs) /\
         length cs = fields true l).
  { intros (m & cs & Hpipes & Hlen). exists m, cs.
    split; [done|]. split; [done|]. split; [|split].
    - intros Hsep. by rewrite Hlen, (separated_fields l true).
    - intros env m' p status Hargs Hst. unfold lush_split_args in Hargs.
      destruct (split_stages_status _ _ _ _ _ _ _ _ Hargs) as [?|[-> ->]]; done.
    - intros env. apply split_stages_within_fuel. }
  unfold lush_split_pipes. revert Hroom. generalize MAX_COMMANDS as room.
  intros room Hroom.
  destruct (split_loop_fields rest (length l) l [] 0%nat (S room))
    as (m2 & cs & Hloop & Hlen & Hbound & Hsame); [done|done|lia|].
  apply split_loop_first in Hloop. simpl in Hloop.
  destruct (strtok (l ++ NUL :: rest) 0) as [[[m1 command] save]|]; [|done].
  simpl in *. rewrite Hloop. simpl.
  assert (i0 < length l)%nat as Hi0l by (by apply lookup_lt_Some in Hi0).
  destruct (trim_commands_defined i0 (length l) cs m2) as (m3 & cs' & -> & Hcs').
  { destruct Hsame as [Hl Hsame]. split.
    { rewrite Hl, length_app. simpl. lia. }
    split.
    { rewrite Hsame; by rewrite list_lookup_middle. }
    split.
    - exists c0. split; [|split; [done|]].
      + rewrite Hsame; rewrite lookup_app_l by done; [done|congruence].
      + intros ->. by apply (Forall_lookup_1 _ _ _ _ Hz Hi0).
    - intros j Hj. destruct (Hblank j Hj) as (b & Hb & Hbb). exists b.
      split; [|done].
      rewrite Hsame; rewrite lookup_app_l by lia; [done|].
      intros Heq. rewrite Hb in Heq. injection Heq as ->. done. }
  { eapply Forall_impl; [exact Hbound|]. intros x. simpl. lia. }
  exists m3, cs'. split; [done|]. lia.
Qed.

Lemma stages_are_the_runs_between_pipes_witness :
  exists m cs,
    lush_split_pipes (bytes "ls -l | wc" ++ NUL :: []) 0 = Some (m, cs) /\
    length cs = 2%nat.
Proof.
  destruct (stages_are_the_runs_between_pipes (bytes "ls -l | wc") [])
    as (m & cs & Hpipes & _ & Hsep & _ & _).
  - by apply (bool_decide_unpack _).
  - reflexivity.
  - unfold MAX_COMMANDS. simpl. lia.
  - exists m, cs. split; [exact Hpipes|]. exact (Hsep eq_refl).
Defined.

(** The count of the spec fails in two ways.  Two pipes in a row are one
    cut: the line [a||b] has two pipes, none of them quoted or after a
    backslash, and two stages, not three.  And a backslash does not keep a
    pipe from cutting the line: the line [a\|b] has one pipe, which
    follows a backslash, and two stages, not one. *)
Lemma stage_count_is_not_pipe_count :
  (count_pipes (bytes "a||b") = 2%nat /\
   exists p,
     tokenize only_home (typed "a||b") = Ok (p, 2%Z) /\
     argv <$> p = [["a"]; ["b"]]) /\
  (count_pipes (bytes "a\|b") = 1%nat /\
   exists p,
     tokenize only_home (typed "a\|b") = Ok (p, 2%Z) /\
     argv <$> p = [["a\"]; ["b"]]).
Proof.
  split; (split; [done|]); eexists; (split; [by vm_compute|done]).
Qed.

(** ** Unterminated quotes *)

(** Commands that tokenize without an open quote at their end do not keep
    the loop from going on to the commands behind them. *)
Lemma split_stages_app (env : string -> option string) (t : bool)
    (pre cs : list nat) :
  forall m done m1 done1 status,
    split_stages env true m pre done = Ok (m1, done1, status) ->
    status <> UNTERMINATED ->
    split_stages env t m (pre ++ cs) done = split_stages env t m1 cs done1.
Proof.
  induction pre as [|c pre IH]; intros m done m1 done1 status.
  - simpl. by intros [= <- <- <-].
  - rewrite <- app_comm_cons, !split_stages_cons.
    destruct (scan env (S (length m)) _) as [s| |]; simpl; [|done..].
    destruct (inside_string s); [by intros [= <- <- <-]|].
    destruct (token_pending (line s) (current_token s)) as [b|]; [|done].
    simpl.
    destruct (if b then lift (put (args s) (pos s) (InLine <$> current_token s))
              else Ok (args s)) as [a| |]; simpl; [|done..].
    apply IH.
Qed.

(** The status -1 is stored only when the scan of some command ends inside
    a string. *)
Lemma unterminated_only_inside_string (env : string -> option string)
    (t : bool) (cs : list nat) :
  forall m done m' p,
    split_stages env t m cs done = Ok (m', p, UNTERMINATED) ->
    exists pre c post m1 done1 s,
      cs = pre ++ c :: post /\
      split_stages env true m pre done
        = Ok (m1, done1, Z.of_nat (length done + length pre)) /\
      scan env (S (length m1))
           (ScanState m1 c (calloc MAX_ARGS) 0 false (Some c)) = Ok s /\
      inside_string s = true /\ m' = line s /\ p = done1.
Proof.
  induction cs as [|c cs IH]; intros m done m' p.
  - simpl. destruct t; [|done].
    intros [= _ _ Hst]. unfold UNTERMINATED in Hst. lia.
  - rewrite split_stages_cons.
    destruct (scan env (S (length m)) _) as [s| |] eqn:Hscan; simpl; [|done..].
    destruct (inside_string s) eqn:Hin.
    + intros [= <- <-]. exists [], c, cs, m, done, s.
      split; [done|]. simpl. rewrite Nat.add_0_r. done.
    + destruct (token_pending (line s) (current_token s)) as [b|] eqn:Hb;
        [|done].
      simpl.
      destruct (if b then lift (put (args s) (pos s) (InLine <$> current_token s))
                else Ok (args s)) as [a| |] eqn:Ha; simpl; [|done..].
      intros Hrec.
      destruct (IH _ _ _ _ Hrec)
        as (pre & c' & post & m1 & done1 & s' & -> & Hpre & Hs' & Hin' & -> & ->).
      exists (c :: pre), c', post, m1, done1, s'.
      split; [done|]. split; [|done].
      rewrite split_stages_cons, Hscan. simpl. rewrite Hin, Hb. simpl.
      rewrite Ha. simpl. rewrite Hpre. rewrite length_app. simpl.
      do 3 f_equal. lia.
Qed.

(** What the code does when it sees the open quote.  When the scan of a
    command ends with [inside_string] set, after the commands before it
    have been tokenized, [lush_split_args] stores the status -1 and
    returns with the arrays of the earlier commands only.  A
    status that is not -1 is the number of commands, so it is never
    negative.  On the status -1 the shell prints its error and goes on to
    the next line: [lush_run] is not called, nothing is started and nothing
    else changes. *)
Lemma unterminated_quote_is_reported_and_nothing_runs
    (sys : Shell.system) (env : string -> option string)
    (buffer m : list ascii) (cs pre post : list nat) (c : nat)
    (m1 : list ascii) (done1 : list (list (option pointer)))
    (s : scan_state) (o : Shell.os) :
  lush_split_pipes buffer 0 = Some (m, cs) ->
  cs = pre ++ c :: post ->
  split_stages env true m pre [] = Ok (m1, done1, Z.of_nat (length pre)) ->
  scan env (S (length m1)) (ScanState m1 c (calloc MAX_ARGS) 0 false (Some c))
    = Ok s ->
  inside_string s = true ->
  lush_split_args env m cs = Ok (line s, done1, UNTERMINATED) /\
  (forall m' cs' m'' p status,
     lush_split_args env m' cs' = Ok (m'', p, status) ->
     status <> UNTERMINATED ->
     status = Z.of_nat (length cs') /\ (0 <= status)%Z) /\
  Shell.split_and_run sys env buffer o
    = Ok (Shell.Goes_on (line s, UNTERMINATED)
            (Shell.emit (Shell.Stderr "lush: Expected end of quoted string") o)) /\
  (forall n, strlen buffer 0 = Some n -> n <> 0%nat ->
     Shell.main_round sys env buffer o
       = Ok (Shell.Goes_on ()
               (Shell.emit (Shell.Stderr "lush: Expected end of quoted string")
                  (Shell.emit (Shell.Stdout "") o)))).
Proof.
  intros Hpipes -> Hpre Hscan Hin.
  assert (lush_split_args env m (pre ++ c :: post)
          = Ok (line s, done1, UNTERMINATED)) as Hargs.
  { unfold lush_split_args.
    rewrite (split_stages_app env _ pre (c :: post) m [] m1 done1 _ Hpre)
      by (unfold UNTERMINATED; lia).
    rewrite split_stages_cons, Hscan. simpl. by rewrite Hin. }
  assert (forall o', Shell.split_and_run sys env buffer o'
            = Ok (Shell.Goes_on (line s, UNTERMINATED)
                    (Shell.emit
                       (Shell.Stderr "lush: Expected end of quoted string") o')))
    as Hrun.
  { intros o'. unfold Shell.split_and_run. rewrite Hpipes. simpl.
    rewrite Hargs. simpl. done. }
  split; [done|]. split; [|split; [done|]].
  - intros m' cs' m'' p status Hargs' Hst. unfold lush_split_args in Hargs'.
    destruct (split_stages_status _ _ _ _ _ _ _ _ Hargs') as [?|[-> _]]; [done|].
    simpl. split; [done|lia].
  - intros n Hn Hne. unfold Shell.main_round. rewrite Hn. simpl.
    rewrite decide_False by done. by rewrite Hrun.
Qed.

Lemma unterminated_quote_is_reported_and_nothing_runs_witness :
  Shell.main_round small_system only_home open_quote_line at_prompt
  = Ok (Shell.Goes_on ()
          (Shell.OS "/home/u" [0; 1; 2]%nat
             [Shell.Stdout "";
              Shell.Stderr "lush: Expected end of quoted string"])).
Proof.
  destruct (unterminated_quote_is_reported_and_nothing_runs
              small_system only_home open_quote_line open_quote_split
              [0%nat] [] [] 0%nat open_quote_split [] open_quote_scanned
              at_prompt) as (_ & _ & _ & Hmain).
  - by vm_compute.
  - reflexivity.
  - reflexivity.
  - by vm_compute.
  - reflexivity.
  - apply (Hmain 9%nat); [by vm_compute|done].
Defined.

(** The same with the open quote in the second command of a pipeline. *)
Example open_quote_in_second_stage :
  exists p,
    tokenize only_home
      (in_buffer (bytes "ls | grep " ++ DQUOTE :: bytes "x y"))
    = Ok (p, UNTERMINATED) /\
    argv <$> p = [["ls"]].
Proof. eexists. split; [by vm_compute|done]. Qed.

(** *** Lines with one quote *)

Lemma scan_S (env : string -> option string) (fuel : nat) (s : scan_state) :
  scan env (S fuel) s
  = (c ← lift (load (line s) (at_ s));
     if decide (c = NUL) then Ok s
     else
       s' ← lift (scan_body env s c);
       scan env fuel (ScanState (line s') (S (at_ s')) (args s') (pos s')
                                (inside_string s') (current_token s'))).
Proof. reflexivity. Qed.

(** Inside a string the loop runs on to the terminator. *)
Lemma scan_inside_string (env : string -> option string) (body : list ascii) :
  forall front rest fuel a p tok,
    quoted body -> (length body < fuel)%nat ->
    scan env fuel
         (ScanState (front ++ body ++ NUL :: rest) (length front) a p true tok)
    = Ok (ScanState (front ++ body ++ NUL :: rest)
                    (length front + length body) a p true tok).
Proof.
  induction body as [|c body IH]; intros front rest fuel a p tok Hq Hfuel;
    (destruct fuel as [|fuel]; [simpl in Hfuel; lia|]);
    rewrite scan_S; cbn [line at_ app].
  - rewrite load_middle by done. simpl. by rewrite Nat.add_0_r.
  - inversion Hq as [|? ? [Hc1 Hc2] Hq']; subst.
    rewrite load_middle by done. cbn [lift mbind res_bind].
    rewrite decide_False by done.
    unfold scan_body. cbn [line at_ inside_string].
    rewrite decide_False by (intros [_ ?]; done).
    rewrite decide_False by done.
    cbn [mbind lift res_bind line at_ args pos inside_string current_token].
    replace (front ++ c :: body ++ NUL :: rest)
      with ((front ++ [c]) ++ body ++ NUL :: rest) by (by rewrite <- app_assoc).
    replace (S (length front)) with (length (front ++ [c]))
      by (rewrite length_app; simpl; lia).
    rewrite IH by (done || simpl in Hfuel; lia).
    do 2 f_equal. rewrite length_app. simpl. lia.
Qed.

Lemma spaces_cons (c : ascii) (l : list ascii) :
  spaces (c :: l) = if decide (c = SPACE) then S (spaces l) else spaces l.
Proof. unfold spaces. rewrite filter_cons. by destruct (decide (c = SPACE)). Qed.

Lemma token_pending_defined (m : list ascii) (tok : option nat) (n : nat) :
  (forall t, tok = Some t -> (t <= n)%nat) -> (n < length m)%nat ->
  exists b, token_pending m tok = Some b.
Proof.
  intros Htok Hn. destruct tok as [t|]; simpl; [|by exists false].
  unfold load. destruct (lookup_lt_is_Some_2 m t) as [x ->].
  { specialize (Htok t eq_refl). lia. }
  simpl. by eexists.
Qed.

(** Outside a string the loop steps over plain bytes, storing at most one
    argument per space, until the quote puts it inside a string, where it
    stays up to the terminator. *)
Lemma scan_opens_string (env : string -> option string) (pre : list ascii) :
  forall front c1 body rest fuel a p tok,
    plain pre -> c1 <> DQUOTE -> quoted body ->
    (p + spaces pre < length a)%nat ->
    (forall t, tok = Some t -> (t <= length front)%nat) ->
    (length pre + length body + 1 < fuel)%nat ->
    exists s,
      scan env fuel
           (ScanState (front ++ pre ++ DQUOTE :: c1 :: body ++ NUL :: rest)
                      (length front) a p false tok) = Ok s /\
      inside_string s = true.
Proof.
  induction pre as [|c pre IH];
    intros front c1 body rest fuel a p tok Hpre Hc1 Hbody Hroom Htok Hfuel;
    (destruct fuel as [|fuel]; [simpl in Hfuel; lia|]);
    rewrite scan_S; cbn [line at_ app].
  - rewrite load_middle by done. cbn [lift mbind res_bind].
    rewrite decide_False by done.
    unfold scan_body. cbn [line at_ inside_string args pos current_token].
    rewrite decide_True by done.
    rewrite store_middle by done. cbn [mbind option_bind].
    replace (front ++ NUL :: c1 :: body ++ NUL :: rest)
      with ((front ++ [NUL]) ++ c1 :: body ++ NUL :: rest)
      by (by rewrite <- app_assoc).
    rewrite load_middle by (rewrite length_app; simpl; lia).
    cbn [mbind option_bind]. rewrite decide_True by done.
    cbn [lift mbind res_bind line at_ inside_string args pos current_token].
    replace ((front ++ [NUL]) ++ c1 :: body ++ NUL :: rest)
      with ((front ++ [NUL; c1]) ++ body ++ NUL :: rest)
      by (by rewrite <- !app_assoc).
    replace (S (S (length front))) with (length (front ++ [NUL; c1]))
      by (rewrite length_app; simpl; lia).
    rewrite scan_inside_string by (done || simpl in Hfuel; lia).
    by eexists.
  - inversion Hpre as [|? ? (Hn & Hq & Hd) Hpre']; subst.
    rewrite load_middle by done. cbn [lift mbind res_bind].
    rewrite decide_False by done.
    unfold scan_body. cbn [line at_ inside_string args pos current_token].
    rewrite decide_False by (intros [? _]; done).
    rewrite spaces_cons in Hroom.
    destruct (decide (c = SPACE)) as [->|Hsp].
    + destruct (token_pending_defined
                  (front ++ SPACE :: pre ++ DQUOTE :: c1 :: body ++ NUL :: rest)
                  tok (length front) Htok) as [b ->].
      { rewrite length_app. simpl. lia. }
      cbn [mbind option_bind].
      assert (exists a' p',
                (if b
                 then a0 ← put a p (InLine <$> tok); Some (a0, S p)
                 else Some (a, p)) = Some (a', p') /\
                length a' = length a /\ (p' <= S p)%nat)
        as (a' & p' & -> & Ha' & Hp').
      { destruct b.
        - unfold put. rewrite decide_True by lia. simpl.
          eexists _, _. split; [done|]. split; [apply length_insert|lia].
        - eexists _, _. split; [done|]. split; [done|lia]. }
      cbn [mbind option_bind]. rewrite store_middle by done.
      cbn [lift mbind option_bind res_bind line at_ inside_string args pos
             current_token].
      replace (front ++ NUL :: pre ++ DQUOTE :: c1 :: body ++ NUL :: rest)
        with ((front ++ [NUL]) ++ pre ++ DQUOTE :: c1 :: body ++ NUL :: rest)
        by (by rewrite <- app_assoc).
      replace (S (length front)) with (length (front ++ [NUL]))
        by (rewrite length_app; simpl; lia).
      apply IH; try done.
      * lia.
      * intros t [= <-]. done.
      * simpl in Hfuel. lia.
    + rewrite decide_False by done.
      cbn [lift mbind option_bind res_bind line at_ inside_string args pos
             current_token].
      replace (front ++ c :: pre ++ DQUOTE :: c1 :: body ++ NUL :: rest)
        with ((front ++ [c]) ++ pre ++ DQUOTE :: c1 :: body ++ NUL :: rest)
        by (by rewrite <- app_assoc).
      replace (S (length front)) with (length (front ++ [c]))
        by (rewrite length_app; simpl; lia).
      apply IH; try done.
      * intros t Ht. specialize (Htok t Ht). rewrite length_app. lia.
      * simpl in Hfuel. lia.
Qed.

(** A line without pipes and without blanks at its ends is one command, and
    [lush_split_pipes] leaves the buffer as it is. *)
Lemma lush_split_pipes_single (l rest : list ascii) :
  l <> [] -> nonzero l -> no_pipes l ->
  (forall x, head l = Some x -> is_blank x = false) ->
  (forall z, last l = Some z -> is_blank z = false) ->
  lush_split_pipes (l ++ NUL :: rest) 0 = Some (l ++ NUL :: rest, [0%nat]).
Proof.
  intros Hne Hz Hp Hhead Hlast. unfold lush_split_pipes.
  pose proof (strtok_token [] [] l rest NUL (Forall_nil_2 _) Hne Hz Hp
                (or_introl eq_refl)) as Htok.
  simpl in Htok. rewrite Htok. cbn [mbind option_bind].
  change MAX_COMMANDS with (S 15). cbn [split_loop].
  pose proof (strtok_none l [] rest (Forall_nil_2 _)) as Hnone.
  simpl in Hnone. rewrite Hnone. cbn [mbind option_bind].
  cbn [trim_commands]. rewrite drop_0.
  destruct l as [|x l]; [done|]. cbn [app skip_blank_from].
  rewrite (Hhead x eq_refl). cbn [mbind option_bind].
  change (x :: l ++ NUL :: rest) with ((x :: l) ++ NUL :: rest).
  rewrite strlen_inside by (done || simpl; lia).
  cbn [mbind option_bind]. rewrite Nat.sub_0_r.
  destruct (x :: l) as [|z l'] using rev_ind; [done|]. clear IHl'.
  rewrite length_app. simpl.
  replace (length l' + 1)%nat with (S (length l')) by lia.
  cbn [trim_back]. rewrite <- app_assoc. simpl.
  rewrite load_middle by done. cbn [mbind option_bind].
  rewrite (Hlast z) by (by rewrite last_snoc). done.
Qed.

(** What [main] does with a line on which [lush_split_args] stores -1. *)
Lemma main_round_after_unterminated (sys : Shell.system)
    (env : string -> option string) (buffer m m' : list ascii) (cs : list nat)
    (p : list (list (option pointer))) (n : nat) (o : Shell.os) :
  strlen buffer 0 = Some n -> n <> 0%nat ->
  lush_split_pipes buffer 0 = Some (m, cs) ->
  lush_split_args env m cs = Ok (m', p, UNTERMINATED) ->
  Shell.main_round sys env buffer o
  = Ok (Shell.Goes_on ()
          (Shell.emit (Shell.Stderr "lush: Expected end of quoted string")
             (Shell.emit (Shell.Stdout "") o))).
Proof.
  intros Hn Hne Hpipes Hargs. unfold Shell.main_round. rewrite Hn. simpl.
  rewrite decide_False by done.
  unfold Shell.split_and_run. rewrite Hpipes. simpl. by rewrite Hargs.
Qed.

(** A line made of one command with one quote in it, no variable before the
    quote and no blank at either end, is a parse error whatever else it
    holds: the status is -1 and [main] runs nothing.  The byte behind the
    terminator of the line has to be a terminator too, as it is in the
    zero-filled buffer of the prompt. *)
Lemma one_open_quote_is_a_parse_error (sys : Shell.system)
    (env : string -> option string) (pre t rest : list ascii) (o : Shell.os) :
  plain pre -> quoted t -> no_pipes (pre ++ DQUOTE :: t) ->
  (forall x, head (pre ++ DQUOTE :: t) = Some x -> is_blank x = false) ->
  (forall z, last (pre ++ DQUOTE :: t) = Some z -> is_blank z = false) ->
  (spaces pre < MAX_ARGS)%nat ->
  let buffer := (pre ++ DQUOTE :: t) ++ NUL :: NUL :: rest in
  (exists m, lush_split_args env buffer [0%nat] = Ok (m, [], UNTERMINATED)) /\
  Shell.main_round sys env buffer o
  = Ok (Shell.Goes_on ()
          (Shell.emit (Shell.Stderr "lush: Expected end of quoted string")
             (Shell.emit (Shell.Stdout "") o))).
Proof.
  intros Hpre Ht Hpipes Hhead Hlast Hroom buffer.
  assert (nonzero (pre ++ DQUOTE :: t)) as Hz.
  { apply Forall_app. split.
    - eapply Forall_impl; [exact Hpre|]. by intros ? (? & _).
    - constructor; [done|]. eapply Forall_impl; [exact Ht|]. by intros ? (? & _). }
  assert (exists s,
            scan env (S (length buffer))
                 (ScanState buffer 0 (calloc MAX_ARGS) 0 false (Some 0%nat))
            = Ok s /\ inside_string s = true) as (s & Hscan & Hin).
  { unfold buffer. rewrite <- app_assoc. cbn [app].
    destruct t as [|c1 t'].
    - apply (scan_opens_string env pre [] NUL [] rest);
        [done|done|constructor| | |].
      + unfold calloc. rewrite length_replicate. lia.
      + intros t [= <-]. simpl. lia.
      + rewrite !length_app. simpl. lia.
    - inversion Ht as [|? ? [Hc1 Hc1'] Ht']; subst.
      apply (scan_opens_string env pre [] c1 t' (NUL :: rest));
        [done|done|done| | |].
      + unfold calloc. rewrite length_replicate. lia.
      + intros t [= <-]. simpl. lia.
      + rewrite !length_app. simpl. rewrite !length_app. simpl. lia. }
  assert (lush_split_args env buffer [0%nat] = Ok (line s, [], UNTERMINATED))
    as Hargs.
  { unfold lush_split_args. rewrite split_stages_cons, Hscan.
    cbn [mbind res_bind]. by rewrite Hin. }
  split; [by eexists|].
  apply (main_round_after_unterminated sys env buffer buffer (line s) [0%nat]
           [] (length (pre ++ DQUOTE :: t))); [| | |done].
  - unfold buffer. rewrite strlen_inside by (done || lia). f_equal. lia.
  - rewrite length_app. simpl. lia.
  - apply lush_split_pipes_single; [by destruct pre|done..].
Qed.

(** *** Open quotes the scan does not see *)

(** C4.  A line that ends inside a quoted token is not always refused.
    In [echo] followed by three quotes and [abc], the first two quotes are
    an empty string and the third opens a token that is never closed; the
    branch for an empty pair of quotes steps over the byte behind the
    pair, so the third quote is never looked at.  In [echo $HOME]
    followed by a quote and [abc], the branch for a variable takes the
    rest of the command as the name, quote included.  On both lines
    [lush_split_args] stores the status 1, not -1, and a round of [main]
    prints no error and starts [echo]: with the quote as part of its
    argument on the first line, without the quoted text on the second. *)
Theorem unmatched_quote_is_run :
  length (filter (fun c => c = DQUOTE) quote_after_empty_pair) = 3%nat /\
  (exists p,
     tokenize only_home quote_after_empty_pair = Ok (p, 1%Z) /\
     argv <$> p = [["echo"; String DQUOTE "abc"]]) /\
  Shell.main_round small_system only_home quote_after_empty_pair at_prompt
  = Ok (Shell.Goes_on ()
          (Shell.OS "/home/u" [0; 1; 2]%nat
             [Shell.Stdout "";
              Shell.Spawn (Some ["echo"; String DQUOTE "abc"]) 0 1])) /\
  length (filter (fun c => c = DQUOTE) quote_after_variable) = 1%nat /\
  (exists p,
     tokenize only_home quote_after_variable = Ok (p, 1%Z) /\
     argv <$> p = [["echo"]]) /\
  Shell.main_round small_system only_home quote_after_variable at_prompt
  = Ok (Shell.Goes_on ()
          (Shell.OS "/home/u" [0; 1; 2]%nat
             [Shell.Stdout ""; Shell.Spawn (Some ["echo"]) 0 1])).
Proof.
  split; [by vm_compute|]. split.
  { eexists. split; [by vm_compute|done]. }
  split; [by vm_compute|]. split; [by vm_compute|]. split.
  { eexists. split; [by vm_compute|done]. }
  by vm_compute.
Qed.

End TokenizerFacts.
(** * Builtins, dispatch and the pipeline executor *)

Module ShellFacts.
Import Mem Tokenizer Shell Samples.

(** ** The bound on the scanning loop does not show *)

Lemma lift_within_fuel {A : Type} (o : option A) : lift o <> OutOfFuel.
Proof. by destruct o. Qed.

Lemma bind_within_fuel {A B : Type} (r : res A) (f : A -> res B) :
  r <> OutOfFuel -> (forall a, f a <> OutOfFuel) -> r ≫= f <> OutOfFuel.
Proof. intros Hr Hf. destruct r; simpl; [apply Hf|done..]. Qed.

Lemma and_then_within_fuel {A B : Type} (r : outcome A)
    (f : A -> os -> res (outcome B)) :
  (forall a o, f a o <> OutOfFuel) -> and_then r f <> OutOfFuel.
Proof. intros Hf. destruct r; simpl; [apply Hf|done..]. Qed.

Lemma returns_within_fuel {A : Type} (r : res (A * os)) :
  r <> OutOfFuel -> returns r <> OutOfFuel.
Proof. intros Hr. by destruct r as [[a o]| |]. Qed.

Lemma lush_cd_within_fuel (sys : system) (args : stage) (o : os) :
  lush_cd sys args o <> OutOfFuel.
Proof.
  unfold lush_cd. destruct (pw_dir sys); [|done].
  apply bind_within_fuel; [apply lift_within_fuel|]. intros [arg|]; [|done].
  apply bind_within_fuel; [apply lift_within_fuel|]. intros path.
  by destruct (realpath sys (cwd o) path).
Qed.

Lemma lush_execute_pipeline_within_fuel (sys : system)
    (commands : list (option stage)) (n : Z) (o : os) :
  lush_execute_pipeline sys commands n o <> OutOfFuel.
Proof.
  unfold lush_execute_pipeline.
  repeat (apply bind_within_fuel; [apply lift_within_fuel|]; intros ?).
  repeat case_decide; try done;
    (destruct (create_pipes sys _ o) as [?|[pipes o']]; [done|]);
    (apply bind_within_fuel; [apply lift_within_fuel|]; intros r);
    apply and_then_within_fuel; intros _ o'';
    repeat (apply bind_within_fuel; [apply lift_within_fuel|]; intros ?);
    by apply and_then_within_fuel.
Qed.

Lemma lush_run_from_within_fuel (sys : system) (first : stage) :
  forall rest n o, lush_run_from sys first rest n o <> OutOfFuel.
Proof.
  induction first as [|a args IH]; intros rest n o; [done|].
  destruct a as [name|]; [|done]. cbn [lush_run_from].
  destruct (find_builtin name) as [[|[|[|[|[|k]]]]]|];
    try apply lush_execute_pipeline_within_fuel; try done.
  - apply returns_within_fuel, lush_cd_within_fuel.
  - apply bind_within_fuel; [apply lift_within_fuel|]. intros i.
    apply bind_within_fuel; [apply IH|]. intros r.
    by apply and_then_within_fuel.
  - apply returns_within_fuel. unfold lush_lush.
    apply bind_within_fuel; [apply lift_within_fuel|done].
Qed.

(** A round of [main] is defined or undefined by the code alone: the bound
    on the scanning loop is never what ends it. *)
Lemma main_round_within_fuel (sys : system) (env : string -> option string)
    (m : list ascii) (o : os) :
  main_round sys env m o <> OutOfFuel.
Proof.
  unfold main_round.
  apply bind_within_fuel; [apply lift_within_fuel|]. intros n.
  case_decide; [done|].
  apply bind_within_fuel; [|by intros [? ?|? ?|?]].
  unfold split_and_run.
  apply bind_within_fuel; [apply lift_within_fuel|]. intros [m1 cs].
  apply bind_within_fuel;
    [apply TokenizerFacts.split_stages_within_fuel|].
  intros [[m2 p] status]. case_decide; [done|].
  apply bind_within_fuel; [apply lift_within_fuel|]. intros p'.
  apply bind_within_fuel.
  - unfold lush_run. destruct (command_args p') as [|[first|] rest]; try done.
    apply lush_run_from_within_fuel.
  - intros r. apply and_then_within_fuel. intros rc o'. by case_decide.
Qed.

(** ** Tilde expansion *)

Lemma strchr_tilde_first (pre post : string) :
  strchr_tilde pre = None ->
  strchr_tilde (pre +:+ String TILDE post) = Some (String.length pre).
Proof.
  induction pre as [|c pre IH]; simpl; intros Hpre.
  - done.
  - destruct (decide (c = TILDE)); [done|].
    destruct (strchr_tilde pre); [done|]. by rewrite IH.
Qed.

Lemma string_drop_past (pre post : string) (c : ascii) :
  string_drop (S (String.length pre)) (pre +:+ String c post) = post.
Proof. induction pre as [|d pre IH]; simpl; [done|]. exact IH. Qed.

Lemma fits_small (s : string) :
  (String.length s < PATH_MAX)%nat -> fits s = Some s.
Proof. intros Hs. unfold fits. by rewrite decide_True. Qed.

(** C10.  An argument with a tilde in it is replaced by the home directory
    followed by what comes after the first tilde, whatever stands before
    that tilde; an argument without a tilde is taken as it is.  This is the
    path that [get_expanded_path] hands to [realpath], and the one that
    [lush_cd] resolves and changes to.  The path has to fit the [PATH_MAX]
    bytes of the array it is built in. *)
Theorem tilde_expands_at_first_occurrence
    (sys : system) (home : string) (args : stage) (o : os) :
  pw_dir sys = Some home ->
  (forall pre post,
     strchr_tilde pre = None ->
     (String.length (home +:+ post) < PATH_MAX)%nat ->
     let arg := pre +:+ String TILDE post in
     expand_tilde home arg = Some (home +:+ post) /\
     get_expanded_path sys arg o
       = Ok (realpath sys (cwd o) (home +:+ post), o) /\
     (args !! 1%nat = Some (Some arg) ->
      lush_cd sys args o
        = Ok (1%Z, match realpath sys (cwd o) (home +:+ post) with
                   | Some exp_path => chdir sys exp_path o
                   | None => emit (Perror "realpath") o
                   end))) /\
  (forall arg,
     strchr_tilde arg = None ->
     (String.length arg < PATH_MAX)%nat ->
     expand_tilde home arg = Some arg /\
     get_expanded_path sys arg o = Ok (realpath sys (cwd o) arg, o) /\
     (args !! 1%nat = Some (Some arg) ->
      lush_cd sys args o
        = Ok (1%Z, match realpath sys (cwd o) arg with
                   | Some exp_path => chdir sys exp_path o
                   | None => emit (Perror "realpath") o
                   end))).
Proof.
  intros Hhome. split.
  - intros pre post Hpre Hfit arg.
    assert (expand_tilde home arg = Some (home +:+ post)) as Hexp.
    { unfold expand_tilde, arg. rewrite strchr_tilde_first by done.
      rewrite string_drop_past. by apply fits_small. }
    split; [done|]. split.
    + unfold get_expanded_path. rewrite Hhome, Hexp. done.
    + intros Harg. unfold lush_cd. rewrite Hhome, Harg. simpl.
      rewrite Hexp. simpl. by destruct (realpath sys (cwd o) (home +:+ post)).
  - intros arg Hno Hfit.
    assert (expand_tilde home arg = Some arg) as Hexp.
    { unfold expand_tilde. rewrite Hno. by apply fits_small. }
    split; [done|]. split.
    + unfold get_expanded_path. rewrite Hhome, Hexp. done.
    + intros Harg. unfold lush_cd. rewrite Hhome, Harg. simpl.
      rewrite Hexp. simpl. by destruct (realpath sys (cwd o) arg).
Qed.

Lemma tilde_expands_at_first_occurrence_witness :
  expand_tilde "/home/u" "x~/tmp" = Some "/home/u/tmp" /\
  expand_tilde "/home/u" "/tmp" = Some "/tmp".
Proof.
  destruct (tilde_expands_at_first_occurrence small_system "/home/u"
              [Some "cd"; Some "x~/tmp"; None] at_prompt eq_refl)
    as [Htilde Hplain].
  split.
  - apply (Htilde "x" "/tmp"); [reflexivity|]. unfold PATH_MAX. simpl. lia.
  - apply (Hplain "/tmp"); [reflexivity|]. unfold PATH_MAX. simpl. lia.
Defined.

(** The wrappers of the bridge ask the system about the path that comes out
    of that expansion. *)
Lemma bridge_asks_about_expanded_path (sys : system) (home arg path : string)
    (o : os) :
  pw_dir sys = Some home -> expand_tilde home arg = Some path ->
  let resolved := realpath sys (cwd o) path in
  l_exists sys arg o = Ok (bool_decide (resolved <> None), o) /\
  l_is_file sys arg o = Ok (from_option (is_regular sys) false resolved, o) /\
  l_is_dir sys arg o = Ok (from_option (is_directory sys) false resolved, o) /\
  l_is_readable sys arg o = Ok (from_option (readable sys) false resolved, o) /\
  l_is_writeable sys arg o = Ok (from_option (writeable sys) false resolved, o) /\
  (forall p, resolved = Some p -> chdir_ok sys p = true ->
             l_cd sys arg o = Ok (true, chdir sys p o)) /\
  (resolved = None -> l_cd sys arg o = Ok (false, o)).
Proof.
  intros Hhome Hexp resolved.
  unfold l_exists, l_is_file, l_is_dir, l_is_readable, l_is_writeable, l_cd,
    query, get_expanded_path.
  rewrite Hhome, Hexp. simpl. fold resolved.
  destruct resolved as [p|]; simpl.
  - repeat split; try done. by intros ? [= <-] ->.
  - repeat split; done.
Qed.

(** ** [cd] *)

(** C8, as the code has it.  [lush_cd] on an argument whose expansion fits
    the [PATH_MAX] bytes of [path].  When the password entry of the user
    cannot be read it prints that error and returns 0, and the working
    directory stays.  In every other case it returns 1.  When [realpath]
    cannot resolve the path it prints its error and the working directory
    stays.  When it can, the working directory becomes the resolved path
    if [chdir] to it succeeds, without any message; if [chdir] fails the
    error of [chdir] is printed and the working directory stays. *)
Theorem cd_changes_directory_when_chdir_succeeds
    (sys : system) (arg : string) (args : stage) (o : os) :
  args !! 1%nat = Some (Some arg) ->
  (pw_dir sys = None ->
   lush_cd sys args o
     = Ok (0%Z, OS (cwd o) (fds o) (out o ++ [Perror "retrieve home dir"]))) /\
  (forall home path,
     pw_dir sys = Some home ->
     expand_tilde home arg = Some path ->
     (realpath sys (cwd o) path = None ->
      lush_cd sys args o
        = Ok (1%Z, OS (cwd o) (fds o) (out o ++ [Perror "realpath"]))) /\
     (forall exp_path,
        realpath sys (cwd o) path = Some exp_path ->
        (chdir_ok sys exp_path = true ->
         lush_cd sys args o
           = Ok (1%Z, OS exp_path (fds o) (out o ++ [Chdir exp_path true]))) /\
        (chdir_ok sys exp_path = false ->
         lush_cd sys args o
           = Ok (1%Z, OS (cwd o) (fds o)
                         (out o ++ [Chdir exp_path false;
                                    Perror "lush: cd"]))))).
Proof.
  intros Harg. split.
  - intros Hpw. unfold lush_cd. by rewrite Hpw.
  - intros home path Hhome Hexp. unfold lush_cd. rewrite Hhome, Harg. simpl.
    rewrite Hexp. simpl. split.
    + by intros ->.
    + intros exp_path ->. unfold chdir. split; intros ->; [done|].
      unfold emit. simpl. by rewrite <- app_assoc.
Qed.

Lemma cd_changes_directory_when_chdir_succeeds_witness :
  lush_cd small_system [Some "cd"; Some "/tmp"; None] at_prompt
  = Ok (1%Z, OS "/tmp" [0; 1; 2]%nat [Chdir "/tmp" true]).
Proof.
  destruct (cd_changes_directory_when_chdir_succeeds small_system
              "/tmp" [Some "cd"; Some "/tmp"; None] at_prompt
              eq_refl) as [_ Hres].
  destruct (Hres "/home/u" "/tmp" eq_refl eq_refl) as [_ Hpath].
  destruct (Hpath "/tmp" eq_refl) as [Hok _]. exact (Hok eq_refl).
Defined.

(** C8 as the spec states it fails where the path resolves and [chdir]
    does not succeed: [/etc/passwd] resolves, the working directory is not
    changed to it, and what is reported is an error. *)
Lemma cd_to_resolved_file_stays :
  realpath small_system "/home/u" "/etc/passwd" = Some "/etc/passwd" /\
  lush_cd small_system [Some "cd"; Some "/etc/passwd"; None] at_prompt
  = Ok (1%Z, OS "/home/u" [0; 1; 2]%nat
                   [Chdir "/etc/passwd" false; Perror "lush: cd"]).
Proof. split; reflexivity. Qed.

(** ** The bridge's [exec] *)

(** The shell leaves a command through [exit(EXIT_FAILURE)] only. *)
Lemma lush_execute_command_exit_code (sys : system) (args : option stage)
    (input_fd output_fd : nat) (o o' : os) (code : Z) :
  lush_execute_command sys args input_fd output_fd o = Exits code o' ->
  code = 1%Z.
Proof.
  unfold lush_execute_command. intros H.
  destruct (fork_ok sys o).
  - by destruct (child_ends sys _ _ _ _).
  - by injection H as <- _.
Qed.

Lemma run_commands_exit_code (sys : system) (commands : list (option stage))
    (pipes : list (nat * nat)) (n : nat) :
  forall i o o' code,
    run_commands sys commands pipes i n o = Some (Exits code o') ->
    code = 1%Z.
Proof.
  induction n as [|n IH]; intros i o o' code H; [done|].
  cbn [run_commands] in H.
  destruct (if decide (i = 0%nat) then _ else _) as [input_fd|]; [|done].
  cbn [mbind option_bind] in H.
  destruct (snd <$> pipes !! i) as [output_fd|]; [|done].
  cbn [mbind option_bind] in H.
  destruct (commands !! i) as [args|]; [|done].
  cbn [mbind option_bind] in H.
  destruct (lush_execute_command sys args input_fd output_fd o)
    as [[] o1|code1 o1|o1] eqn:Hcmd.
  - by apply IH in H.
  - injection H as -> _. by apply lush_execute_command_exit_code in Hcmd.
  - done.
Qed.

Lemma lush_execute_pipeline_exit_code (sys : system)
    (commands : list (option stage)) (n : Z) (o o' : os) (code : Z) :
  lush_execute_pipeline sys commands n o = Ok (Exits code o') -> code = 1%Z.
Proof.
  unfold lush_execute_pipeline. intros H.
  destruct (commands !! 0%nat) as [[[|[name|] args0]|]|]; try done.
  simpl in H. case_decide; [done|]. case_decide; [done|].
  destruct (create_pipes sys _ o) as [?|[pipes o1]]; [done|].
  destruct (run_commands sys commands pipes 0 _ o1) as [[[] o2|code2 o2|o2]|]
    eqn:Hrun; [| | |done]; simpl in H.
  - destruct (if decide (n > 1)%Z then _ else _) as [input_fd|]; [|done].
    simpl in H. destruct (commands !! _) as [args|]; [|done]. simpl in H.
    destruct (lush_execute_command sys args input_fd STDOUT_FILENO o2)
      as [[] o3|code3 o3|o3] eqn:Hcmd; [done| |done].
    simpl in H. injection H as -> _.
    by apply lush_execute_command_exit_code in Hcmd.
  - injection H as -> _. by apply run_commands_exit_code in Hrun.
  - done.
Qed.

Lemma lush_run_from_exit_code (sys : system) (first : stage) :
  forall rest n o o' code,
    lush_run_from sys first rest n o = Ok (Exits code o') -> code = 1%Z.
Proof.
  induction first as [|a args IH]; intros rest n o o' code H; [done|].
  destruct a as [name|]; [|done]. cbn [lush_run_from] in H.
  destruct (find_builtin name) as [[|[|[|[|[|k]]]]]|];
    try by apply lush_execute_pipeline_exit_code in H.
  - by destruct (lush_cd sys _ o) as [[? ?]| |].
  - done.
  - done.
  - destruct (count_commands _) as [i|]; [|done]. simpl in H.
    destruct (lush_run_from sys args rest i o) as [[rc o1|code1 o1|o1]| |]
      eqn:Hrun; try done.
    simpl in H. injection H as -> _. by apply IH in Hrun.
  - by destruct (lush_lush args o) as [[? ?]| |].
Qed.

Lemma lush_run_exit_code (sys : system) (commands : list (option stage))
    (n : Z) (o o' : os) (code : Z) :
  lush_run sys commands n o = Ok (Exits code o') -> code = 1%Z.
Proof.
  unfold lush_run. destruct commands as [|[first|] rest]; try done.
  apply lush_run_from_exit_code.
Qed.

Lemma split_and_run_status (sys : system) (env : string -> option string)
    (line : list ascii) (o : os) (r : outcome (list ascii * Z)) :
  split_and_run sys env line o = Ok r ->
  exists m cs m' p status,
    lush_split_pipes line 0 = Some (m, cs) /\
    lush_split_args env m cs = Ok (m', p, status) /\
    match r with
    | Goes_on (m'', status') _ => m'' = m' /\ status' = status
    | Exits code _ => code = 1%Z /\ status <> (-1)%Z
    | Waits _ => status <> (-1)%Z
    end.
Proof.
  unfold split_and_run. intros Hrun.
  destruct (lush_split_pipes line 0) as [[m cs]|] eqn:Hpipes; [|done].
  simpl in Hrun.
  destruct (lush_split_args env m cs) as [[[m' p] status]| |] eqn:Hargs;
    [|done..].
  simpl in Hrun. exists m, cs, m', p, status. split; [done|]. split; [done|].
  destruct (decide (status = (-1)%Z)) as [->|Hst].
  - by injection Hrun as <-.
  - destruct (read_pipeline m' p) as [p'|]; [|done]. simpl in Hrun.
    destruct (lush_run sys (command_args p') status o)
      as [[rc o'|code o'|o']| |] eqn:Hlush; [| | |done..]; simpl in Hrun.
    + destruct (decide (rc = 0%Z)); by injection Hrun as <-.
    + injection Hrun as <-. split; [|done].
      by apply (lush_run_exit_code _ _ _ _ _ _ Hlush).
    + by injection Hrun as <-.
Qed.

(** Where the boolean of [exec] comes from.  When [exec] comes back, the
    boolean it pushes is true exactly when the status stored by
    [lush_split_args] is not -1; what the commands of the line did plays no
    part.  When [lush_run] returns 0 or a [fork] fails, [exec] does not come
    back: the process exits with code 1. *)
Lemma exec_pushes_the_parse_status
    (sys : system) (env : string -> option string) (debug_mode : bool)
    (command : string) (o : os) (r : outcome bool) :
  l_execute_command sys env debug_mode command o = Ok r ->
  exists m cs m' p status,
    lush_split_pipes (lua_string command) 0 = Some (m, cs) /\
    lush_split_args env m cs = Ok (m', p, status) /\
    match r with
    | Goes_on rc _ => rc = bool_decide (status <> (-1)%Z)
    | Exits code _ => code = 1%Z /\ status <> (-1)%Z
    | Waits _ => status <> (-1)%Z
    end.
Proof.
  unfold l_execute_command, execute_command. intros Hexec.
  destruct (split_and_run sys env (lua_string command) o) as [r0| |] eqn:Hrun;
    [|done..].
  destruct (split_and_run_status _ _ _ _ _ Hrun)
    as (m & cs & m' & p & status & Hpipes & Hargs & Hr0).
  exists m, cs, m', p, status. split; [done|]. split; [done|].
  simpl in Hexec. destruct r0 as [[m'' status'] o'|code o'|o'].
  - destruct Hr0 as [-> ->]. cbn [and_then] in Hexec.
    destruct (cstring m' 0) as [h|] eqn:Hh; [|done]. simpl in Hexec.
    rewrite Hh in Hexec. simpl in Hexec. by injection Hexec as <-.
  - simpl in Hexec. by injection Hexec as <-.
  - simpl in Hexec. by injection Hexec as <-.
Qed.

Lemma exec_pushes_the_parse_status_witness :
  exists m cs m' p status,
    lush_split_pipes (lua_string "echo hi") 0 = Some (m, cs) /\
    lush_split_args only_home m cs = Ok (m', p, status) /\
    true = bool_decide (status <> (-1)%Z).
Proof.
  exact (exec_pushes_the_parse_status small_system only_home false "echo hi"
           at_prompt
           (Goes_on true
              (OS "/home/u" [0; 1; 2]%nat
                  [Spawn (Some ["echo"; "hi"]) 0 1; PushHistory "echo"]))
           eq_refl).
Defined.

(** C7.  The boolean of [exec] does not tell whether the line ran well:
    for the line [cd /nonexistent], on a system where that path does not
    exist, [lush_cd] prints the error of [realpath] and leaves the working
    directory as it was, and [exec] pushes true all the same.  The Lua
    example of the repository documents [exec] as returning whether the
    command executed successfully. *)
Theorem exec_is_true_after_failed_cd :
  l_execute_command small_system only_home false "cd /nonexistent" at_prompt
  = Ok (Goes_on true
          (OS "/home/u" [0; 1; 2]%nat [Perror "realpath"; PushHistory "cd"])).
Proof. by vm_compute. Qed.

(** ** [time] *)

(** The counting loop of [lush_time] leaves [i] one above the number of
    commands. *)
Lemma time_counts_one_too_many (p : list stage) :
  (length p < MAX_ARGS)%nat ->
  count_commands (command_args p) = Some (Z.of_nat (length p) + 1)%Z.
Proof.
  unfold command_args. generalize MAX_ARGS as cap.
  induction p as [|a p IH]; intros cap Hcap; simpl in *.
  - destruct cap; [lia|done].
  - destruct cap; [lia|]. simpl. rewrite IH by lia. simpl. f_equal. lia.
Qed.

(** C2: the code on [time echo hi].  [lush_time] hands [lush_run] a count of
    2 for the one command, so the executor opens a pipe, starts [echo hi]
    with its output on the write end of that pipe (descriptor 4, not
    standard output), and starts a second child on the [NULL] entry behind
    the command.  The time is printed after that. *)
Theorem time_echo_hi_writes_into_a_pipe :
  main_round small_system only_home (typed "time echo hi") at_prompt
  = Ok (Goes_on ()
          (OS "/home/u" [0; 1; 2]%nat
              [Stdout ""; Pipe 3 4; Spawn (Some ["echo"; "hi"]) 0 4;
               Close 4 true; Spawn None 3 1; Close 3 true; Close 4 false;
               PrintTime])).
Proof. by vm_compute. Qed.

(** Without [time] in front the same command writes to standard output. *)
Example echo_hi_writes_to_stdout :
  main_round small_system only_home (typed "echo hi") at_prompt
  = Ok (Goes_on ()
          (OS "/home/u" [0; 1; 2]%nat
              [Stdout ""; Spawn (Some ["echo"; "hi"]) 0 1])).
Proof. by vm_compute. Qed.

(** ** Pipe descriptors *)

(** C6: the code on a pipeline of two stages.  The write end of the pipe
    (descriptor 4) is closed right after the first command has been started
    and once more by the loop that closes the pipes, where the call fails;
    the read end (descriptor 3) is closed once.  No pipe descriptor is open
    at the end. *)
Theorem pipeline_closes_write_end_twice :
  main_round small_system only_home (typed "echo hello | tr a-z A-Z") at_prompt
  = Ok (Goes_on ()
          (OS "/home/u" [0; 1; 2]%nat
              [Stdout ""; Pipe 3 4; Spawn (Some ["echo"; "hello"]) 0 4;
               Close 4 true; Spawn (Some ["tr"; "a-z"; "A-Z"]) 3 1;
               Close 3 true; Close 4 false])).
Proof. by vm_compute. Qed.

(** When [pipe] fails the executor returns 0 at once, with the pipes it has
    opened before still open; [main] then exits. *)
Example failed_pipe_leaves_descriptors_open :
  main_round tight_system only_home (typed "a | b | c") at_prompt
  = Ok (Exits 1
          (OS "/home/u" [4; 3; 0; 1; 2]%nat
              [Stdout ""; Pipe 3 4; PipeFailed; Perror "pipe"])).
Proof. by vm_compute. Qed.

(** The same for every number of stages the [commands] array can hold. *)
Lemma every_pipeline_closes_write_ends_twice :
  Forall (fun n => closes_write_ends_twice n = true) (seq 2 14).
Proof. apply (bool_decide_unpack _). by vm_compute. Qed.

End ShellFacts.

(** * The line editor: typing, deleting *)

Module EditorMore.
Import Mem MemFacts Editor EditorFacts Samples Extra.

Lemma cstring_from_app (s r : list ascii) :
  nonzero s ->
  cstring_from (s ++ NUL :: r) = Some (String.string_of_list_ascii s).
Proof.
  induction 1 as [|c s Hc _ IH]; simpl; [done|].
  destruct (decide (c = NUL)); [done|]. by rewrite IH.
Qed.

Lemma cstring_shape (s1 s2 r : list ascii) :
  nonzero s1 -> nonzero s2 ->
  cstring (s1 ++ s2 ++ NUL :: r) 0
  = Some (String.string_of_list_ascii (s1 ++ s2)).
Proof.
  intros H1 H2. unfold cstring. rewrite drop_0, app_assoc.
  apply cstring_from_app. by apply Forall_app.
Qed.

Lemma step_enter (e : editor) (inp : list Z) :
  step e (10%Z :: inp) = Some (Break e inp).
Proof. reflexivity. Qed.

(** Typing at the end of the line appends, up to the capacity; Enter hands
    the buffer back. *)
Lemma read_loop_typing (rest : list Z) (l : list Z) :
  forall s1 r fuel,
    Forall printable l -> nonzero s1 ->
    length (s1 ++ NUL :: r) = BUFFER_SIZE -> (length l < fuel)%nat ->
    exists r',
      read_loop fuel (Editor (s1 ++ NUL :: r) (Z.of_nat (length s1)))
                (l ++ 10%Z :: rest)
      = Returned (take (BUFFER_SIZE - 1) (s1 ++ (to_char <$> l)) ++ NUL :: r')
                 rest.
Proof.
  induction l as [|c l IH]; intros s1 r fuel Hl Hs1 Hlen Hfuel;
    (destruct fuel as [|fuel]; [simpl in Hfuel; lia|]);
    rewrite length_app in Hlen; simpl in Hlen.
  - exists r. cbn [app read_loop]. rewrite step_enter. cbn [buffer].
    rewrite fmap_nil, app_nil_r. by rewrite take_ge by lia.
  - inversion Hl as [|? ? Hc Hl']; subst.
    cbn [app read_loop].
    destruct (keys_reach_operations
                (Editor (s1 ++ NUL :: r) (Z.of_nat (length s1)))
                (l ++ 10%Z :: rest)) as (_ & _ & _ & _ & Hins).
    rewrite (Hins c Hc). clear Hins.
    destruct (decide (length s1 < BUFFER_SIZE - 1)%nat) as [Hroom|Hfull].
    + destruct r as [|x r]; [simpl in Hlen; lia|].
      pose proof (insert_char_shape s1 [] r x c (Forall_nil_2 _)) as Hshape.
      simpl in Hshape. rewrite Hshape by lia. cbn [mbind option_bind].
      replace (s1 ++ to_char c :: NUL :: r)
        with ((s1 ++ [to_char c]) ++ NUL :: r) by (by rewrite <- app_assoc).
      replace (Z.of_nat (length s1) + 1)%Z
        with (Z.of_nat (length (s1 ++ [to_char c])))
        by (rewrite length_app; simpl; lia).
      destruct (IH (s1 ++ [to_char c]) r fuel) as [r' ->]; [done| | |simpl in Hfuel; lia|].
      * apply Forall_app. split; [done|]. constructor; [|done].
        apply to_char_nonzero. unfold printable in Hc. lia.
      * rewrite !length_app. simpl in *. lia.
      * exists r'. rewrite <- app_assoc. done.
    + rewrite insert_char_full by (simpl; lia). cbn [mbind option_bind].
      destruct (IH s1 r fuel) as [r' ->]; [done|done| |simpl in Hfuel; lia|].
      * rewrite length_app. simpl. lia.
      * exists r'. rewrite !take_app_length' by lia. done.
Qed.

(** X1.  A run of printable characters followed by Enter comes back from
    [lush_read_line] as the line, cut after [BUFFER_SIZE - 1] characters;
    what was typed behind the Enter is left in the input. *)
Theorem typing_then_enter_returns_the_text (l rest : list Z) (fuel : nat) :
  Forall printable l -> (length l < fuel)%nat ->
  exists b,
    lush_read_line fuel (l ++ 10%Z :: rest) = Returned b rest /\
    cstring b 0 = Some (typed_text (take (BUFFER_SIZE - 1) l)).
Proof.
  intros Hl Hfuel. unfold lush_read_line.
  destruct (read_loop_typing rest l [] (replicate (BUFFER_SIZE - 1) NUL) fuel)
    as [r' Hrun]; [done|constructor| |done|].
  { rewrite length_app. cbn [length]. rewrite length_replicate.
    unfold BUFFER_SIZE. lia. }
  change (replicate BUFFER_SIZE NUL)
    with ([] ++ NUL :: replicate (BUFFER_SIZE - 1) NUL).
  change 0%Z with (Z.of_nat (length (@nil ascii))).
  rewrite Hrun. eexists. split; [done|].
  unfold cstring. rewrite drop_0. simpl app.
  rewrite cstring_from_app.
  - unfold typed_text. by rewrite fmap_take.
  - apply Forall_take. apply Forall_fmap. eapply Forall_impl; [exact Hl|].
    intros c Hc. simpl. apply to_char_nonzero. unfold printable in Hc. lia.
Qed.

Lemma typing_then_enter_returns_the_text_witness :
  exists b,
    lush_read_line 6 (keys "ls -l" ++ 10%Z :: []) = Returned b [] /\
    cstring b 0 = Some "ls -l".
Proof.
  destruct (typing_then_enter_returns_the_text (keys "ls -l") [] 6)
    as (b & Hb & Htext).
  - repeat constructor; unfold printable; simpl; lia.
  - simpl. lia.
  - exists b. split; [exact Hb|]. exact Htext.
Defined.

(** X2.  Backspace takes back an insertion: after a printable character
    has been put into a line with room for it, backspace leaves the text
    and the cursor as they were before. *)
Theorem backspace_undoes_insertion (e : editor) (n : nat) (c : Z) :
  editor_inv e -> line_length e = Some n -> printable c ->
  (n < BUFFER_SIZE - 1)%nat ->
  exists e1 e2,
    insert_char e c = Some e1 /\ backspace e1 = Some e2 /\
    pos e2 = pos e /\ editor_text e2 = editor_text e /\ editor_inv e2.
Proof.
  intros Hinv Hn Hc Hroom.
  destruct (inv_unpack e n Hinv Hn) as (s1 & s2 & r & -> & H1 & H2 & -> & Hlen).
  destruct r as [|x r]; [simpl in Hlen; lia|]. simpl in Hlen.
  rewrite insert_char_shape by (done || lia).
  eexists _, _. split; [done|].
  rewrite backspace_shape by done.
  split; [done|]. split; [done|]. split.
  - unfold editor_text. cbn [buffer]. by rewrite !cstring_shape.
  - apply (shape_inv s1 s2 (NUL :: r)); [done..|].
    rewrite !length_app. simpl. lia.
Qed.

Lemma backspace_undoes_insertion_witness :
  exists e1 e2,
    insert_char sample_line 120 = Some e1 /\ backspace e1 = Some e2 /\
    pos e2 = 2%Z /\ editor_text e2 = Some "ls -l".
Proof.
  destruct (backspace_undoes_insertion sample_line 5 120 sample_line_inv
              eq_refl) as (e1 & e2 & H1 & H2 & Hp & Ht & _).
  - unfold printable. lia.
  - unfold BUFFER_SIZE. lia.
  - exists e1, e2. split; [exact H1|]. split; [exact H2|].
    split; [exact Hp|]. exact Ht.
Defined.

(** X3.  Inside the line, forward delete does what right arrow followed by
    backspace does: the character under the cursor goes, the cursor stays. *)
Theorem forward_delete_is_right_arrow_then_backspace (e : editor) (n : nat) :
  editor_inv e -> line_length e = Some n -> (pos e < Z.of_nat n)%Z ->
  exists e',
    forward_delete e = Some e' /\ right_arrow e ≫= backspace = Some e' /\
    pos e' = pos e /\ line_length e' = Some (n - 1)%nat.
Proof.
  intros Hinv Hn Hpos.
  destruct (inv_unpack e n Hinv Hn) as (s1 & s2 & r & -> & H1 & H2 & -> & Hlen).
  destruct s2 as [|x s2]; [simpl in Hpos; lia|].
  inversion H2 as [|? ? Hx H2']; subst. simpl in Hlen.
  cbn [app].
  rewrite forward_delete_shape;
    [|done..|rewrite !length_app; simpl; rewrite !length_app; simpl; lia].
  eexists. split; [done|]. split; [|split; [done|]].
  - unfold right_arrow. cbn [buffer pos].
    pose proof (shape_length s1 (x :: s2) r H1 H2) as Hl. simpl in Hl.
    rewrite Hl. cbn [mbind option_bind].
    rewrite to_size_t_small by lia.
    rewrite decide_True by (simpl; lia). cbn [mbind option_bind].
    by rewrite backspace_shape.
  - unfold line_length. cbn [buffer]. rewrite shape_length by done.
    f_equal. simpl. lia.
Qed.

Lemma forward_delete_is_right_arrow_then_backspace_witness :
  exists e',
    forward_delete sample_line = Some e' /\
    right_arrow sample_line ≫= backspace = Some e' /\
    line_length e' = Some 4%nat.
Proof.
  destruct (forward_delete_is_right_arrow_then_backspace sample_line 5
              sample_line_inv eq_refl) as (e' & Hd & Hrb & _ & Hlen).
  - simpl. lia.
  - exists e'. split; [exact Hd|]. split; [exact Hrb|]. exact Hlen.
Defined.

End EditorMore.

(** * The prompt *)

Module PromptFacts.
Import Shell Extra.

Lemma prefix_append (a s : string) : String.prefix a (a +:+ s) = true.
Proof.
  induction a as [|c a IH]; simpl; [by destruct s|].
  by destruct (ascii_dec c c).
Qed.

Lemma string_drop_append (a s : string) :
  string_drop (String.length a) (a +:+ s) = s.
Proof. induction a as [|c a IH]; simpl; [by destruct s|done]. Qed.

Lemma string_drop_append2 (a b s : string) :
  string_drop (String.length a + String.length b) (a +:+ b +:+ s) = s.
Proof.
  induction a as [|c a IH]; [exact (string_drop_append b s)|exact IH].
Qed.

Lemma prefix_split (a b s : string) :
  String.prefix (a +:+ b) s
  = String.prefix a s && String.prefix b (string_drop (String.length a) s).
Proof.
  revert s. induction a as [|c a IH]; intros s; simpl.
  - by destruct s.
  - destruct s as [|d s]; simpl; [done|].
    destruct (ascii_dec c d); [apply IH|done].
Qed.

(** X4.  In a directory whose name starts with [/home/] followed by the
    user name, the prompt shows a tilde for that part and the rest of the
    name as it is, whether or not the rest starts a new path component; in
    any other directory it shows the whole name. *)
Theorem prompt_collapses_home_prefix (username device_name : string) :
  (forall rest,
     print_prompt (Some username) device_name ("/home/" +:+ username +:+ rest)
     = Some ("[" +:+ username +:+ "@" +:+ device_name +:+ ":~" +:+ rest +:+ "] ")) /\
  (forall cwd,
     String.prefix ("/home/" +:+ username) cwd = false ->
     print_prompt (Some username) device_name cwd
     = Some ("[" +:+ username +:+ "@" +:+ device_name +:+ ":" +:+ cwd +:+ "] ")).
Proof.
  split.
  - intros rest. unfold print_prompt. cbn [mbind option_bind].
    rewrite (prefix_append "/home/").
    change 6%nat with (String.length "/home/").
    rewrite (string_drop_append "/home/"), prefix_append. cbn [andb].
    by rewrite (string_drop_append2 "/home/").
  - intros cwd Hno. unfold print_prompt. cbn [mbind option_bind].
    rewrite (prefix_split "/home/" username) in Hno.
    change (String.length "/home/") with 6%nat in Hno. by rewrite Hno.
Qed.

Lemma prompt_collapses_home_prefix_witness :
  print_prompt (Some "bob") "box" "/home/bobby"
    = Some "[bob@box:~by] " /\
  print_prompt (Some "bob") "box" "/tmp" = Some "[bob@box:/tmp] ".
Proof.
  destruct (prompt_collapses_home_prefix "bob" "box") as [Hhome Hother].
  split.
  - exact (Hhome "by").
  - exact (Hother "/tmp" eq_refl).
Defined.

End PromptFacts.

(** * The tokenizer: what it writes, what it returns *)

Module TokenizerMore.
Import Mem MemFacts Tokenizer Lines Samples TokenizerFacts Extra.

(** ** Only terminators are written *)

Lemma only_cleared_refl (P : ascii -> Prop) (m : list ascii) :
  only_cleared P m m.
Proof. split; [done|]. intros j c Hj. by left. Qed.

Lemma only_cleared_trans (P : ascii -> Prop) (m1 m2 m3 : list ascii) :
  only_cleared P m1 m2 -> only_cleared P m2 m3 -> only_cleared P m1 m3.
Proof.
  intros [Hl1 H1] [Hl2 H2]. split; [congruence|].
  intros j c Hj. destruct (H1 j c Hj) as [Hsame|[Hnul Hc]].
  - apply H2 in Hsame. done.
  - right. split; [|done].
    destruct (H2 j NUL Hnul) as [?|[? _]]; done.
Qed.

Lemma only_cleared_weaken (P Q : ascii -> Prop) (m m' : list ascii) :
  (forall c, P c -> Q c) -> only_cleared P m m' -> only_cleared Q m m'.
Proof.
  intros HPQ [Hl H]. split; [done|]. intros j c Hj.
  destruct (H j c Hj) as [?|[? ?]]; [by left|right; split; [done|by apply HPQ]].
Qed.

Lemma only_cleared_insert (P : ascii -> Prop) (m : list ascii) (p : nat)
    (c : ascii) :
  m !! p = Some c -> P c -> only_cleared P m (<[p:=NUL]> m).
Proof.
  intros Hp Hc. split; [apply length_insert|].
  intros j d Hj. destruct (decide (j = p)) as [->|Hne].
  - right. rewrite list_lookup_insert_eq by (by eapply lookup_lt_Some).
    split; [done|]. congruence.
  - left. by rewrite list_lookup_insert_ne.
Qed.

Lemma only_cleared_store (P : ascii -> Prop) (m m' : list ascii) (p : nat)
    (c : ascii) :
  store m p NUL = Some m' -> m !! p = Some c -> P c -> only_cleared P m m'.
Proof.
  unfold store. case_decide; [|done]. intros [= <-].
  apply only_cleared_insert.
Qed.

Lemma strcspn_from_stops (l : list ascii) (n : nat) (c : ascii) :
  strcspn_from l = Some n -> l !! n = Some c -> c = NUL \/ c = PIPE.
Proof.
  revert n. induction l as [|d l IH]; intros n; simpl; [done|].
  case_decide as Hd.
  - intros [= <-] [= <-]. done.
  - destruct (strcspn_from l) as [k|]; simpl; [|done].
    intros [= <-]. simpl. by apply IH.
Qed.

Lemma strtok_cleared (m m' : list ascii) (s save : nat) (tok : option nat) :
  strtok m s = Some (m', tok, save) ->
  only_cleared (fun c => c = PIPE) m m' /\
  (forall t, tok = Some t -> (t < length m)%nat).
Proof.
  unfold strtok, load. intros Htok.
  destruct (m !! s) as [c0|]; simpl in Htok; [|done].
  destruct (decide (c0 = NUL)) as [?|Hn0].
  { injection Htok as <- <- <-. split; [apply only_cleared_refl|done]. }
  destruct (strspn_from (drop s m)) as [k|]; simpl in Htok; [|done].
  destruct (m !! (s + k)%nat) as [c1|] eqn:Hc1; simpl in Htok; [|done].
  destruct (decide (c1 = NUL)) as [?|Hn1].
  { injection Htok as <- <- <-. split; [apply only_cleared_refl|done]. }
  destruct (strcspn_from (drop (s + k) m)) as [n|] eqn:Hn; simpl in Htok; [|done].
  destruct (m !! (s + k + n)%nat) as [c2|] eqn:Hc2; simpl in Htok; [|done].
  assert (forall t, Some (s + k)%nat = Some t -> (t < length m)%nat) as Hin.
  { intros t [= <-]. by eapply lookup_lt_Some. }
  destruct (decide (c2 = NUL)) as [?|Hn2].
  { injection Htok as <- <- <-. split; [apply only_cleared_refl|done]. }
  destruct (store m (s + k + n) NUL) as [m1|] eqn:Hst; simpl in Htok; [|done].
  injection Htok as <- <- <-. split; [|done].
  apply (only_cleared_store _ _ _ _ c2 Hst Hc2).
  destruct (strcspn_from_stops _ _ c2 Hn); [|done|done].
  by rewrite lookup_drop.
Qed.

Lemma split_loop_cleared (room : nat) :
  forall m save command m' cs,
    (forall t, command = Some t -> (t < length m)%nat) ->
    split_loop room m save command = Some (m', cs) ->
    only_cleared (fun c => c = PIPE) m m' /\
    Forall (fun c => (c < length m)%nat) cs /\ (length cs <= room)%nat.
Proof.
  induction room as [|room IH]; intros m save command m' cs Hcmd;
    destruct command as [c|]; simpl; try done;
    try (intros [= <- <-]; split; [apply only_cleared_refl|];
         split; [constructor|simpl; lia]).
  destruct (strtok m save) as [[[m1 next] save1]|] eqn:Htok; simpl; [|done].
  destruct (strtok_cleared _ _ _ _ _ Htok) as [Hc1 Hnext].
  destruct (split_loop room m1 save1 next) as [[m2 cs2]|] eqn:Hloop; simpl;
    [|done].
  intros [= <- <-].
  destruct (IH m1 save1 next m2 cs2) as (Hc2 & Hcs & Hlen); [|done|].
  { intros t Ht. rewrite (proj1 Hc1). by apply Hnext. }
  split; [by eapply only_cleared_trans|].
  split; [|simpl; lia].
  constructor; [by apply Hcmd|].
  eapply Forall_impl; [exact Hcs|]. intros x. simpl. by rewrite (proj1 Hc1).
Qed.

Lemma skip_blank_from_inside (l : list ascii) (k : nat) :
  skip_blank_from l = Some k ->
  exists x, l !! k = Some x /\ is_blank x = false.
Proof.
  revert k. induction l as [|c l IH]; intros k; simpl; [done|].
  destruct (is_blank c) eqn:Hc.
  - destruct (skip_blank_from l) as [j|]; simpl; [|done].
    intros [= <-]. simpl. by apply IH.
  - intros [= <-]. by exists c.
Qed.

Lemma trim_back_cleared (e : nat) :
  forall m m',
    trim_back m e = Some m' ->
    only_cleared (fun c => is_blank c = true) m m'.
Proof.
  induction e as [|p IH]; intros m m'; simpl; [done|].
  unfold load. destruct (m !! p) as [c|] eqn:Hc; simpl; [|done].
  destruct (is_blank c) eqn:Hb.
  - intros Hrec. apply IH in Hrec.
    eapply only_cleared_trans; [|exact Hrec].
    by apply (only_cleared_insert _ _ _ c).
  - intros [= <-]. apply only_cleared_refl.
Qed.

(** A byte that is not blank stays a byte that is not blank. *)
Lemma starts_unblank_kept (m m' : list ascii) (c : nat) :
  only_cleared (fun c => is_blank c = true) m m' ->
  starts_unblank m c -> starts_unblank m' c.
Proof.
  intros [_ H] (x & Hx & Hb). destruct (H c x Hx) as [?|[_ ?]]; [|congruence].
  by exists x.
Qed.

Lemma trim_commands_cleared (cs : list nat) :
  forall m m' cs',
    trim_commands m cs = Some (m', cs') ->
    only_cleared (fun c => is_blank c = true) m m' /\
    length cs' = length cs /\
    Forall (starts_unblank m') cs'.
Proof.
  induction cs as [|c cs IH]; intros m m' cs'; simpl.
  - intros [= <- <-]. split; [apply only_cleared_refl|]. split; [done|constructor].
  - destruct (skip_blank_from (drop c m)) as [k|] eqn:Hk; simpl; [|done].
    destruct (strlen m (c + k)) as [n|]; simpl; [|done].
    destruct (trim_back m (c + k + n)) as [m1|] eqn:Ht; simpl; [|done].
    destruct (trim_commands m1 cs) as [[m2 cs2]|] eqn:Hrec; simpl; [|done].
    intros [= <- <-].
    destruct (IH _ _ _ Hrec) as (Hc2 & Hlen & Hall).
    apply trim_back_cleared in Ht.
    split; [by eapply only_cleared_trans|]. split; [simpl; lia|].
    constructor; [|done].
    apply (starts_unblank_kept m1); [done|].
    apply (starts_unblank_kept m); [done|].
    destruct (skip_blank_from_inside _ _ Hk) as (x & Hx & Hb).
    rewrite lookup_drop in Hx. by exists x.
Qed.

(** X5.  Whatever the line, [lush_split_pipes] leaves the buffer at its
    length and writes nothing but terminators, and those only over pipes,
    spaces and newlines; it returns at most 16 commands, each of them a
    pointer to a byte of the buffer that is not a space or a newline. *)
Theorem split_pipes_only_clears_pipes_and_blanks
    (m m' : list ascii) (cs : list nat) :
  lush_split_pipes m 0 = Some (m', cs) ->
  only_cleared (fun c => c = PIPE \/ is_blank c = true) m m' /\
  (length cs <= MAX_COMMANDS)%nat /\
  Forall (starts_unblank m') cs.
Proof.
  unfold lush_split_pipes. intros Hsplit.
  destruct (strtok m 0) as [[[m1 command] save]|] eqn:Htok;
    cbn [mbind option_bind] in Hsplit; [|done].
  destruct (strtok_cleared _ _ _ _ _ Htok) as [Hc1 Hcmd].
  destruct (split_loop MAX_COMMANDS m1 save command) as [[m2 cs2]|] eqn:Hloop;
    cbn [mbind option_bind] in Hsplit; [|done].
  assert (forall t, command = Some t -> (t < length m1)%nat) as Hcmd1.
  { intros t Ht. rewrite (proj1 Hc1). by apply Hcmd. }
  destruct (split_loop_cleared _ _ _ _ _ _ Hcmd1 Hloop) as (Hc2 & _ & Hlen).
  destruct (trim_commands_cleared _ _ _ _ Hsplit) as (Hc3 & Hlen' & Hall).
  split; [|split; [lia|done]].
  eapply only_cleared_trans;
    [eapply only_cleared_weaken; [|exact Hc1]; by left|].
  eapply only_cleared_trans;
    [eapply only_cleared_weaken; [|exact Hc2]; by left|].
  eapply only_cleared_weaken; [|exact Hc3]. by right.
Qed.

Lemma split_pipes_only_clears_pipes_and_blanks_witness :
  exists m' cs,
    lush_split_pipes (typed " ls | wc ") 0 = Some (m', cs) /\
    only_cleared (fun c => c = PIPE \/ is_blank c = true)
                 (typed " ls | wc ") m' /\
    Forall (starts_unblank m') cs.
Proof.
  destruct (lush_split_pipes (typed " ls | wc ") 0) as [[m' cs]|] eqn:Hsplit.
  - exists m', cs. split; [reflexivity|].
    destruct (split_pipes_only_clears_pipes_and_blanks _ _ _ Hsplit)
      as (Hc & _ & Hall).
    split; [exact Hc|exact Hall].
  - vm_compute in Hsplit. discriminate Hsplit.
Defined.

(** ** The argument splitter *)

Lemma put_length {A : Type} (a a' : list A) (p : nat) (x : A) :
  put a p x = Some a' -> length a' = length a.
Proof.
  unfold put. case_decide; [|done]. intros [= <-]. apply length_insert.
Qed.

Section ArgumentSplitter.

Variable env : string -> option string.

Let separator (c : ascii) : Prop := c = SPACE \/ c = DQUOTE.

Lemma scan_body_cleared (s s' : scan_state) (c : ascii) :
  load (line s) (at_ s) = Some c ->
  scan_body env s c = Some s' ->
  only_cleared separator (line s) (line s') /\
  length (args s') = length (args s).
Proof.
  unfold scan_body. intros Hc Hbody.
  destruct (decide (c = DQUOTE /\ inside_string s = false)) as [[-> Hin]|Hno].
  { destruct (store (line s) (at_ s) NUL) as [m1|] eqn:Hs1;
      cbn [mbind option_bind] in Hbody; [|done].
    pose proof (only_cleared_store separator _ _ _ _ Hs1 Hc
                  (or_intror eq_refl)) as H1.
    destruct (load m1 (S (at_ s))) as [c1|] eqn:Hc1;
      cbn [mbind option_bind] in Hbody; [|done].
    destruct (decide (c1 <> DQUOTE)) as [Hq|Hq].
    - injection Hbody as <-. done.
    - apply dec_stable in Hq. subst c1.
      destruct (store m1 (S (at_ s)) NUL) as [m2|] eqn:Hs2;
        cbn [mbind option_bind] in Hbody; [|done].
      injection Hbody as <-. split; [|done].
      eapply only_cleared_trans; [exact H1|].
      exact (only_cleared_store separator _ _ _ _ Hs2 Hc1 (or_intror eq_refl)). }
  destruct (inside_string s) eqn:Hin.
  { destruct (decide (c = DQUOTE)) as [->|Hq].
    - destruct (store (line s) (at_ s) NUL) as [m1|] eqn:Hs1;
        cbn [mbind option_bind] in Hbody; [|done].
      destruct (put (args s) (pos s) (InLine <$> current_token s)) as [a|] eqn:Ha;
        cbn [mbind option_bind] in Hbody; [|done].
      injection Hbody as <-. split.
      + exact (only_cleared_store separator _ _ _ _ Hs1 Hc (or_intror eq_refl)).
      + exact (put_length _ _ _ _ Ha).
    - injection Hbody as <-. split; [apply only_cleared_refl|done]. }
  destruct (decide (c = SPACE)) as [->|Hsp].
  { destruct (token_pending (line s) (current_token s)) as [b|];
      cbn [mbind option_bind] in Hbody; [|done].
    destruct b.
    - destruct (put (args s) (pos s) (InLine <$> current_token s)) as [a|] eqn:Ha;
        cbn [mbind option_bind] in Hbody; [|done].
      destruct (store (line s) (at_ s) NUL) as [m1|] eqn:Hs1;
        cbn [mbind option_bind] in Hbody; [|done].
      injection Hbody as <-. split.
      + exact (only_cleared_store separator _ _ _ _ Hs1 Hc (or_introl eq_refl)).
      + exact (put_length _ _ _ _ Ha).
    - cbn [mbind option_bind] in Hbody.
      destruct (store (line s) (at_ s) NUL) as [m1|] eqn:Hs1;
        cbn [mbind option_bind] in Hbody; [|done].
      injection Hbody as <-. split; [|done].
      exact (only_cleared_store separator _ _ _ _ Hs1 Hc (or_introl eq_refl)). }
  destruct (decide (c = DOLLAR)) as [->|Hd].
  { destruct (load (line s) (S (at_ s))) as [c1|];
      cbn [mbind option_bind] in Hbody; [|done].
    destruct (decide (c1 <> NUL /\ c1 <> SPACE)) as [Hname|Hname].
    - destruct (cstring (line s) (S (at_ s))) as [name|];
        cbn [mbind option_bind] in Hbody; [|done].
      destruct (put (args s) (pos s) (getenv env name)) as [a|] eqn:Ha;
        cbn [mbind option_bind] in Hbody; [|done].
      destruct (strlen (line s) (S (at_ s))) as [n|];
        cbn [mbind option_bind] in Hbody; [|done].
      injection Hbody as <-. split; [apply only_cleared_refl|].
      exact (put_length _ _ _ _ Ha).
    - injection Hbody as <-. split; [apply only_cleared_refl|done]. }
  injection Hbody as <-. split; [apply only_cleared_refl|done].
Qed.

Lemma scan_cleared (fuel : nat) :
  forall s s',
    scan env fuel s = Ok s' ->
    only_cleared separator (line s) (line s') /\
    length (args s') = length (args s).
Proof.
  induction fuel as [|fuel IH]; intros s s'; [done|].
  rewrite scan_S.
  destruct (load (line s) (at_ s)) as [c|] eqn:Hc; [|done].
  cbn [lift mbind res_bind].
  destruct (decide (c = NUL)) as [?|Hn].
  { intros [= <-]. split; [apply only_cleared_refl|done]. }
  destruct (scan_body env s c) as [s1|] eqn:Hbody; [|done].
  cbn [lift mbind res_bind]. intros Hscan.
  destruct (scan_body_cleared _ _ _ Hc Hbody) as [H1 Hl1].
  destruct (IH _ _ Hscan) as [H2 Hl2]. cbn [line args] in H2, Hl2.
  split; [by eapply only_cleared_trans|congruence].
Qed.

Lemma split_stages_cleared (terminated : bool) (cs : list nat) :
  forall m acc m' p status,
    split_stages env terminated m cs acc = Ok (m', p, status) ->
    Forall (fun a => length a = MAX_ARGS) acc ->
    only_cleared separator m m' /\
    Forall (fun a => length a = MAX_ARGS) p /\
    (status = UNTERMINATED \/ status = Z.of_nat (length p)).
Proof.
  induction cs as [|c cs IH]; intros m acc m' p status.
  - simpl. destruct terminated; [|done]. intros [= <- <- <-] Hacc.
    split; [apply only_cleared_refl|]. split; [done|by right].
  - rewrite split_stages_cons.
    destruct (scan env (S (length m))
                (ScanState m c (calloc MAX_ARGS) 0 false (Some c)))
      as [s| |] eqn:Hscan; [|done|done].
    cbn [mbind res_bind].
    destruct (scan_cleared _ _ _ Hscan) as [H1 Hl1]. cbn [line args] in H1, Hl1.
    destruct (inside_string s).
    { intros [= <- <- <-] Hacc. split; [done|]. split; [done|by left]. }
    destruct (token_pending (line s) (current_token s)) as [b|]; [|done].
    cbn [lift mbind res_bind].
    assert (length (calloc (A:=pointer) MAX_ARGS) = MAX_ARGS) as Hcalloc
      by apply length_replicate.
    destruct b.
    + destruct (put (args s) (pos s) (InLine <$> current_token s)) as [a|] eqn:Ha;
        [|done].
      cbn [lift mbind res_bind]. intros Hrec Hacc.
      apply put_length in Ha.
      destruct (IH _ _ _ _ _ Hrec) as (H2 & Hp & Hst).
      { apply Forall_app. split; [done|]. constructor; [congruence|done]. }
      split; [by eapply only_cleared_trans|done].
    + cbn [lift mbind res_bind]. intros Hrec Hacc.
      destruct (IH _ _ _ _ _ Hrec) as (H2 & Hp & Hst).
      { apply Forall_app. split; [done|]. constructor; [congruence|done]. }
      split; [by eapply only_cleared_trans|done].
Qed.

End ArgumentSplitter.

(** X6.  Whatever the commands, [lush_split_args] leaves the buffer at its
    length and writes nothing but terminators, and those only over spaces
    and double quotes; every argument array it returns has 128 entries, and
    the status is either -1 or the number of arrays returned. *)
Theorem split_args_only_clears_spaces_and_quotes
    (env : string -> option string) (m m' : list ascii) (cs : list nat)
    (p : list (list (option pointer))) (status : Z) :
  lush_split_args env m cs = Ok (m', p, status) ->
  only_cleared (fun c => c = SPACE \/ c = DQUOTE) m m' /\
  Forall (fun a => length a = MAX_ARGS) p /\
  (status = UNTERMINATED \/ status = Z.of_nat (length p)).
Proof.
  unfold lush_split_args. intros Hsplit.
  by apply (split_stages_cleared env _ _ _ _ _ _ _ Hsplit).
Qed.

Lemma split_args_only_clears_spaces_and_quotes_witness :
  exists m' p status,
    lush_split_args only_home sample_split_buffer [0%nat] = Ok (m', p, status) /\
    only_cleared (fun c => c = SPACE \/ c = DQUOTE) sample_split_buffer m' /\
    Forall (fun a => length a = MAX_ARGS) p.
Proof.
  destruct (lush_split_args only_home sample_split_buffer [0%nat])
    as [[[m' p] status]| |] eqn:Hsplit.
  - exists m', p, status. split; [reflexivity|].
    destruct (split_args_only_clears_spaces_and_quotes _ _ _ _ _ _ Hsplit)
      as (Hc & Hp & _).
    split; [exact Hc|exact Hp].
  - vm_compute in Hsplit. discriminate Hsplit.
  - vm_compute in Hsplit. discriminate Hsplit.
Defined.

End TokenizerMore.

(** * The executor: descriptors *)

Module ShellMore.
Import Mem Tokenizer Shell Samples ShellFacts Extra.

Lemma filter_all {A : Type} (P : A -> Prop) `{!forall x, Decision (P x)}
    (l : list A) :
  (forall x, x ∈ l -> P x) -> filter P l = l.
Proof.
  induction l as [|x l IH]; intros Hall; [done|].
  rewrite filter_cons_True by (apply Hall; left).
  f_equal. apply IH. intros y Hy. apply Hall. by right.
Qed.

Lemma pipe_fds_cons (r w : nat) (ps : list (nat * nat)) :
  pipe_fds ((r, w) :: ps) = r :: w :: pipe_fds ps.
Proof. reflexivity. Qed.

(** What a call of [lush_execute_command] that returns has done. *)
Lemma lush_execute_command_returns (sys : system) (args : option stage)
    (input_fd output_fd : nat) (o o' : os) :
  lush_execute_command sys args input_fd output_fd o = Goes_on () o' ->
  o' = emit (Spawn (argv <$> args) input_fd output_fd) o.
Proof.
  unfold lush_execute_command. intros H.
  destruct (fork_ok sys o); [|done].
  destruct (child_ends sys _ _ _ _); [|done]. by injection H as <-.
Qed.

Lemma lush_execute_command_exits (sys : system) (args : option stage)
    (input_fd output_fd : nat) (o o' : os) (code : Z) :
  lush_execute_command sys args input_fd output_fd o = Exits code o' ->
  code = 1%Z /\ o' = emit (Perror "fork") o /\ fork_ok sys o = false.
Proof.
  unfold lush_execute_command. intros H.
  destruct (fork_ok sys o).
  - by destruct (child_ends sys _ _ _ _).
  - by injection H as <- <-.
Qed.

Lemma lush_execute_command_waits (sys : system) (args : option stage)
    (input_fd output_fd : nat) (o o' : os) :
  lush_execute_command sys args input_fd output_fd o = Waits o' ->
  o' = emit (Spawn (argv <$> args) input_fd output_fd) o /\
  child_ends sys (argv <$> args) input_fd output_fd o' = false.
Proof.
  unfold lush_execute_command. intros H.
  destruct (fork_ok sys o); [|done].
  destruct (child_ends sys _ _ _ _) eqn:Hends; [done|].
  by injection H as <-.
Qed.

Section Descriptors.

Variable sys : system.

Lemma lowest_free_fresh (open : list nat) (x : nat) :
  lowest_free sys open = Some x -> x ∉ open.
Proof.
  unfold lowest_free. intros Hfind.
  apply List.find_some in Hfind as [_ Hx].
  by apply bool_decide_eq_true in Hx.
Qed.

Lemma close_fds (fd : nat) (o : os) :
  fds (close fd o) = filter (fun x => x <> fd) (fds o) /\
  cwd (close fd o) = cwd o.
Proof.
  unfold close. case_decide as Hin; simpl; [done|].
  split; [|done]. symmetry. apply filter_all. intros x Hx ->. done.
Qed.

Lemma pipe_fds_fresh (o o' : os) (r w : nat) :
  pipe sys o = (Some (r, w), o') ->
  fds o' = w :: r :: fds o /\ cwd o' = cwd o /\
  (r ∉ fds o) /\ (w ∉ fds o) /\ r <> w.
Proof.
  unfold pipe.
  destruct (lowest_free sys (fds o)) as [r'|] eqn:Hr; [|done].
  destruct (lowest_free sys (r' :: fds o)) as [w'|] eqn:Hw; [|done].
  intros [= -> -> <-]. simpl.
  apply lowest_free_fresh in Hr, Hw.
  apply not_elem_of_cons in Hw as [? ?]. done.
Qed.

Lemma pipe_failed (o o' : os) :
  pipe sys o = (None, o') -> fds o' = fds o /\ cwd o' = cwd o.
Proof.
  unfold pipe.
  destruct (lowest_free sys (fds o)) as [r'|]; [|by intros [= <-]].
  destruct (lowest_free sys (r' :: fds o)) as [w'|]; [done|by intros [= <-]].
Qed.

Lemma create_pipes_fds (n : nat) :
  forall o ps o',
    create_pipes sys n o = inr (ps, o') ->
    filter (fun x => x ∉ pipe_fds ps) (fds o') = fds o /\
    cwd o' = cwd o /\ length ps = n.
Proof.
  induction n as [|n IH]; intros o ps o'; simpl.
  - intros [= <- <-]. split; [|done]. apply filter_all. intros x _.
    unfold pipe_fds. simpl. apply not_elem_of_nil.
  - destruct (pipe sys o) as [[[r w]|] o1] eqn:Hpipe; [|done].
    destruct (create_pipes sys n o1) as [|[ps1 o2]] eqn:Hrec; [done|].
    intros [= <- <-].
    destruct (pipe_fds_fresh _ _ _ _ Hpipe) as (Hf & Hc & Hr & Hw & _).
    destruct (IH _ _ _ Hrec) as (Hf2 & Hc2 & Hl).
    split; [|split; [congruence|simpl; lia]].
    transitivity (filter (fun x => x ∉ [r; w])
                    (filter (fun x => x ∉ pipe_fds ps1) (fds o2))).
    + rewrite list_filter_filter. apply list_filter_iff. intros x.
      rewrite pipe_fds_cons, !not_elem_of_cons.
      pose proof (not_elem_of_nil x). tauto.
    + rewrite Hf2, Hf.
      rewrite filter_cons_False by (intros H; apply H; right; left).
      rewrite filter_cons_False by (intros H; apply H; left).
      apply filter_all. intros x Hx.
      rewrite !not_elem_of_cons.
      split; [|split; [|apply not_elem_of_nil]]; intros ->; done.
Qed.

Lemma create_pipes_failed (n : nat) :
  forall o o', create_pipes sys n o = inl o' -> cwd o' = cwd o.
Proof.
  induction n as [|n IH]; intros o o'; simpl; [done|].
  destruct (pipe sys o) as [[[r w]|] o1] eqn:Hpipe.
  - destruct (create_pipes sys n o1) as [o2|[ps1 o2]] eqn:Hrec; [|done].
    intros [= <-]. apply IH in Hrec.
    destruct (pipe_fds_fresh _ _ _ _ Hpipe) as (_ & Hc & _). congruence.
  - intros [= <-]. simpl. by apply pipe_failed in Hpipe as [_ ?].
Qed.

Lemma close_keeps_others (S : list nat) (fd : nat) (o : os) :
  fd ∈ S ->
  filter (fun x => x ∉ S) (fds (close fd o)) = filter (fun x => x ∉ S) (fds o).
Proof.
  intros Hfd. rewrite (proj1 (close_fds fd o)).
  apply list_filter_filter_l. intros x Hx ->. done.
Qed.

Lemma run_commands_fds (commands : list (option stage))
    (pipes : list (nat * nat)) (n : nat) :
  forall i o o',
    run_commands sys commands pipes i n o = Some (Goes_on () o') ->
    filter (fun x => x ∉ pipe_fds pipes) (fds o') =
      filter (fun x => x ∉ pipe_fds pipes) (fds o) /\
    cwd o' = cwd o.
Proof.
  induction n as [|n IH]; intros i o o'; simpl.
  - by intros [= <-].
  - intros Hrun.
    destruct (if decide (i = 0%nat) then Some STDIN_FILENO
              else fst <$> pipes !! (i - 1)%nat) as [input_fd|];
      cbn [mbind option_bind] in Hrun; [|done].
    destruct (pipes !! i) as [p|] eqn:Hp; cbn [fmap option_fmap option_map
      mbind option_bind] in Hrun; [|done].
    destruct (commands !! i) as [args|]; cbn [mbind option_bind] in Hrun;
      [|done].
    destruct (lush_execute_command sys args input_fd p.2 o)
      as [[] o1|code1 o1|o1] eqn:Hcmd; [|done..].
    apply lush_execute_command_returns in Hcmd as ->.
    destruct (IH _ _ _ Hrun) as [Hf Hc]. rewrite Hf, Hc.
    split; [|by rewrite (proj2 (close_fds _ _))].
    rewrite close_keeps_others; [done|].
    unfold pipe_fds. apply list_elem_of_bind. exists p.
    split; [right; left|by eapply list_elem_of_lookup_2].
Qed.

Lemma close_pipes_fds (pipes : list (nat * nat)) :
  forall o,
    fds (close_pipes pipes o) =
      filter (fun x => x ∉ pipe_fds pipes) (fds o) /\
    cwd (close_pipes pipes o) = cwd o.
Proof.
  unfold close_pipes.
  induction pipes as [|[r w] pipes IH]; intros o; cbn [foldl fst snd].
  - split; [|done]. symmetry. apply filter_all. intros x _. apply not_elem_of_nil.
  - destruct (IH (close w (close r o))) as [Hf Hc]. rewrite Hf, Hc.
    rewrite !(proj2 (close_fds _ _)). split; [|done].
    rewrite (proj1 (close_fds w _)), (proj1 (close_fds r _)).
    rewrite !list_filter_filter. apply list_filter_iff. intros x.
    rewrite pipe_fds_cons, !not_elem_of_cons. tauto.
Qed.

End Descriptors.

(** X7.  A pipeline that [lush_execute_pipeline] runs to its [return 1]
    leaves the process with the open descriptors it had, in the same order:
    every descriptor the pipes took is closed again, and none that was open
    before is closed.  Whatever it returns, the working directory is the
    one it started in. *)
Theorem pipeline_leaves_descriptors_as_found
    (sys : system) (commands : list (option stage)) (num_commands rc : Z)
    (o o' : os) :
  lush_execute_pipeline sys commands num_commands o = Ok (Goes_on rc o') ->
  cwd o' = cwd o /\ (rc = 1%Z -> fds o' = fds o).
Proof.
  unfold lush_execute_pipeline. intros Hrun.
  destruct (commands !! 0%nat) as [c0|]; cbn [lift mbind res_bind] in Hrun;
    [|done].
  destruct c0 as [args0|]; cbn [lift mbind res_bind] in Hrun; [|done].
  destruct (args0 !! 0%nat) as [a0|]; cbn [lift mbind res_bind] in Hrun;
    [|done].
  destruct a0 as [name|]; cbn [lift mbind res_bind] in Hrun; [|done].
  destruct (decide (name = "")); [by injection Hrun as <- <-|].
  destruct (decide (num_commands < 1)%Z); [done|].
  destruct (create_pipes sys (Z.to_nat (num_commands - 1)) o)
    as [o1|[pipes o1]] eqn:Hpipes.
  { injection Hrun as <- <-. split; [|done].
    by eapply create_pipes_failed. }
  destruct (create_pipes_fds _ _ _ _ _ Hpipes) as (Hf1 & Hc1 & _).
  destruct (run_commands sys commands pipes 0 (Z.to_nat (num_commands - 1)) o1)
    as [[[] o2|code2 o2|o2]|] eqn:Hloop;
    cbn [lift mbind res_bind and_then] in Hrun; [|done..].
  destruct (run_commands_fds _ _ _ _ _ _ _ Hloop) as [Hf2 Hc2].
  destruct (if decide (num_commands > 1)%Z
            then fst <$> pipes !! (Z.to_nat (num_commands - 1) - 1)%nat
            else Some STDIN_FILENO) as [input_fd|];
    cbn [lift mbind res_bind] in Hrun; [|done].
  destruct (commands !! Z.to_nat (num_commands - 1)) as [args|];
    cbn [lift mbind res_bind] in Hrun; [|done].
  destruct (lush_execute_command sys args input_fd STDOUT_FILENO o2)
    as [[] o3|code3 o3|o3] eqn:Hcmd; cbn [and_then] in Hrun; [|done..].
  apply lush_execute_command_returns in Hcmd as ->.
  injection Hrun as <- <-.
  destruct (close_pipes_fds pipes
              (emit (Spawn (argv <$> args) input_fd STDOUT_FILENO) o2))
    as [Hf3 Hc3].
  rewrite Hf3, Hc3. simpl. split; [congruence|]. intros _. congruence.
Qed.

Lemma pipeline_leaves_descriptors_as_found_witness :
  exists o',
    lush_execute_pipeline small_system ls_wc 2 at_prompt
      = Ok (Goes_on 1%Z o') /\
    cwd o' = cwd at_prompt /\ fds o' = fds at_prompt.
Proof.
  destruct (lush_execute_pipeline small_system ls_wc 2 at_prompt)
    as [[rc o'|code o'|o']| |] eqn:Hrun.
  - assert (rc = 1%Z) as Hrc by (vm_compute in Hrun; congruence).
    exists o'. subst rc. split; [reflexivity|].
    destruct (pipeline_leaves_descriptors_as_found _ _ _ _ _ _ Hrun) as [Hc Hf].
    split; [exact Hc|exact (Hf eq_refl)].
  - vm_compute in Hrun. discriminate Hrun.
  - vm_compute in Hrun. discriminate Hrun.
  - vm_compute in Hrun. discriminate Hrun.
  - vm_compute in Hrun. discriminate Hrun.
Defined.

(** ** The executor: what it starts and what it closes *)

Lemma spawns_app (t1 t2 : list event) :
  spawns (t1 ++ t2) = spawns t1 ++ spawns t2.
Proof.
  induction t1 as [|e t1 IH]; [done|]. destruct e; simpl; by rewrite ?IH.
Qed.

Lemma pipes_of_app (t1 t2 : list event) :
  pipes_of (t1 ++ t2) = pipes_of t1 ++ pipes_of t2.
Proof.
  induction t1 as [|e t1 IH]; [done|]. destruct e; simpl; by rewrite ?IH.
Qed.

Lemma closes_app (fd : nat) (t1 t2 : list event) :
  closes fd (t1 ++ t2) = (closes fd t1 + closes fd t2)%nat.
Proof.
  induction t1 as [|e t1 IH]; [done|]. destruct e; simpl; try done.
  case_decide; simpl; by rewrite IH.
Qed.

Lemma close_out (fd : nat) (o : os) :
  exists ok, out (close fd o) = out o ++ [Close fd ok].
Proof. unfold close. case_decide; simpl; by eexists. Qed.

Section Traces.

Variable sys : system.

Lemma pipe_out (o o' : os) (r w : nat) :
  pipe sys o = (Some (r, w), o') -> out o' = out o ++ [Pipe r w].
Proof.
  unfold pipe.
  destruct (lowest_free sys (fds o)) as [r'|]; [|done].
  destruct (lowest_free sys (r' :: fds o)) as [w'|]; [|done].
  by intros [= -> -> <-].
Qed.

Lemma create_pipes_out (n : nat) :
  forall o ps o',
    create_pipes sys n o = inr (ps, o') ->
    spawns (out o') = spawns (out o) /\
    pipes_of (out o') = pipes_of (out o) ++ ps /\
    (forall fd, closes fd (out o') = closes fd (out o)).
Proof.
  induction n as [|n IH]; intros o ps o'; simpl.
  - intros [= <- <-]. by rewrite app_nil_r.
  - destruct (pipe sys o) as [[[r w]|] o1] eqn:Hpipe; [|done].
    destruct (create_pipes sys n o1) as [|[ps1 o2]] eqn:Hrec; [done|].
    intros [= <- <-]. apply pipe_out in Hpipe.
    destruct (IH _ _ _ Hrec) as (Hs & Hp & Hcl).
    rewrite Hs, Hp, Hpipe, spawns_app, pipes_of_app. simpl.
    rewrite app_nil_r, <- app_assoc. split; [done|]. split; [done|].
    intros fd. rewrite Hcl, Hpipe, closes_app. simpl. lia.
Qed.

Lemma create_pipes_distinct (n : nat) :
  forall o ps o',
    create_pipes sys n o = inr (ps, o') ->
    NoDup (pipe_fds ps) /\ (forall x, x ∈ pipe_fds ps -> x ∉ fds o).
Proof.
  induction n as [|n IH]; intros o ps o'; simpl.
  - intros [= <- <-]. split; [constructor|]. intros x Hx.
    by apply elem_of_nil in Hx.
  - destruct (pipe sys o) as [[[r w]|] o1] eqn:Hpipe; [|done].
    destruct (create_pipes sys n o1) as [|[ps1 o2]] eqn:Hrec; [done|].
    intros [= <- <-].
    destruct (pipe_fds_fresh _ _ _ _ _ Hpipe) as (Hf & _ & Hr & Hw & Hrw).
    destruct (IH _ _ _ Hrec) as (Hnd & Hfresh).
    rewrite pipe_fds_cons.
    assert (r ∉ pipe_fds ps1) as Hr1.
    { intros Hin. apply Hfresh in Hin. apply Hin. rewrite Hf. right; left. }
    assert (w ∉ pipe_fds ps1) as Hw1.
    { intros Hin. apply Hfresh in Hin. apply Hin. rewrite Hf. left. }
    split.
    + constructor; [|by constructor].
      rewrite not_elem_of_cons. done.
    + intros x Hx. apply elem_of_cons in Hx as [->|Hx]; [done|].
      apply elem_of_cons in Hx as [->|Hx]; [done|].
      apply Hfresh in Hx. rewrite Hf in Hx.
      apply not_elem_of_cons in Hx as [_ Hx].
      by apply not_elem_of_cons in Hx as [_ Hx].
Qed.

End Traces.

Lemma run_commands_out (sys : system) (commands : list (option stage))
    (pipes : list (nat * nat)) (n : nat) :
  forall i o o',
    run_commands sys commands pipes i n o = Some (Goes_on () o') ->
    spawns (out o') =
      spawns (out o) ++
      imap (fun k args => (argv <$> args, input_of pipes (i + k),
                           output_of pipes (i + k)))
           (take n (drop i commands)) /\
    pipes_of (out o') = pipes_of (out o) /\
    (forall fd, closes fd (out o') =
                (closes fd (out o) +
                 length (filter (fun x => x = fd)
                                (snd <$> take n (drop i pipes))))%nat).
Proof.
  induction n as [|n IH]; intros i o o'.
  - simpl. intros [= <-]. rewrite app_nil_r.
    split; [done|]. split; [done|]. intros fd. lia.
  - cbn [run_commands]. intros Hrun.
    destruct (if decide (i = 0%nat) then Some STDIN_FILENO
              else fst <$> pipes !! (i - 1)%nat) as [input_fd|] eqn:Hin;
      cbn [mbind option_bind] in Hrun; [|done].
    destruct (pipes !! i) as [p|] eqn:Hp; cbn [fmap option_fmap option_map
      mbind option_bind] in Hrun; [|done].
    destruct (commands !! i) as [args|] eqn:Hargs;
      cbn [mbind option_bind] in Hrun; [|done].
    destruct (lush_execute_command sys args input_fd p.2 o)
      as [[] o1|code1 o1|o1] eqn:Hcmd; [|done..].
    apply lush_execute_command_returns in Hcmd as ->.
    destruct (IH _ _ _ Hrun) as (Hs & Hpo & Hcl).
    destruct (close_out p.2 (emit (Spawn (argv <$> args) input_fd p.2) o))
      as [ok Hout].
    simpl in Hout.
    rewrite Hs, Hpo, Hout. rewrite !spawns_app, !pipes_of_app. simpl.
    rewrite !app_nil_r.
    rewrite (drop_S _ _ _ Hargs), (drop_S _ _ _ Hp). cbn [take fmap list_fmap].
    rewrite imap_cons. rewrite <- app_assoc. cbn [app].
    split; [|split; [done|]].
    + f_equal. f_equal.
      * rewrite Nat.add_0_r. f_equal; [f_equal|].
        -- destruct i as [|j]; simpl in *; [congruence|].
           rewrite Nat.sub_0_r in Hin. by rewrite Hin.
        -- unfold output_of. by rewrite Hp.
      * apply imap_ext. intros k x _. simpl.
        by rewrite Nat.add_succ_r.
    + intros fd. rewrite Hcl, Hout, !closes_app. simpl.
      rewrite filter_cons. destruct (decide (p.2 = fd)); simpl; lia.
Qed.

(** The loop when it does not come back: a [fork] has failed before one of
    the commands, or the shell is waiting for one of them; the commands
    before that one have been started as in the loop that returns. *)
Lemma run_commands_stopped (sys : system) (commands : list (option stage))
    (pipes : list (nat * nat)) (n : nat) :
  forall i o r,
    run_commands sys commands pipes i n o = Some r ->
    match r with
    | Goes_on _ _ => True
    | Exits code o' =>
        code = 1%Z /\ cwd o' = cwd o /\
        last (out o') = Some (Perror "fork") /\
        pipes_of (out o') = pipes_of (out o) /\
        exists k, (k < n)%nat /\
          spawns (out o') =
            spawns (out o) ++
            imap (fun j args => (argv <$> args, input_of pipes (i + j),
                                 output_of pipes (i + j)))
                 (take k (drop i commands))
    | Waits o' =>
        cwd o' = cwd o /\
        pipes_of (out o') = pipes_of (out o) /\
        exists k, (k < n)%nat /\
          spawns (out o') =
            spawns (out o) ++
            imap (fun j args => (argv <$> args, input_of pipes (i + j),
                                 output_of pipes (i + j)))
                 (take (S k) (drop i commands))
    end.
Proof.
  induction n as [|n IH]; intros i o r.
  - simpl. by intros [= <-].
  - cbn [run_commands]. intros Hrun.
    destruct (if decide (i = 0%nat) then Some STDIN_FILENO
              else fst <$> pipes !! (i - 1)%nat) as [input_fd|] eqn:Hin;
      cbn [mbind option_bind] in Hrun; [|done].
    destruct (pipes !! i) as [p|] eqn:Hp; cbn [fmap option_fmap option_map
      mbind option_bind] in Hrun; [|done].
    destruct (commands !! i) as [args|] eqn:Hargs;
      cbn [mbind option_bind] in Hrun; [|done].
    assert ((argv <$> args, input_fd, p.2)
            = (argv <$> args, input_of pipes (i + 0),
               output_of pipes (i + 0))) as Hfirst.
    { rewrite Nat.add_0_r. f_equal; [f_equal|].
      - destruct i as [|j]; simpl in *; [congruence|].
        rewrite Nat.sub_0_r in Hin. by rewrite Hin.
      - unfold output_of. by rewrite Hp. }
    assert (forall l : list (option stage),
              imap (fun j a => (argv <$> a, input_of pipes (S i + j),
                                output_of pipes (S i + j))) l
              = imap ((fun j a => (argv <$> a, input_of pipes (i + j),
                                   output_of pipes (i + j))) ∘ S) l)
      as Hshift.
    { intros l. apply imap_ext. intros j x _. simpl.
      by rewrite Nat.add_succ_r. }
    destruct (lush_execute_command sys args input_fd p.2 o)
      as [[] o1|code1 o1|o1] eqn:Hcmd.
    + apply lush_execute_command_returns in Hcmd as ->.
      specialize (IH _ _ _ Hrun).
      destruct (close_out p.2 (emit (Spawn (argv <$> args) input_fd p.2) o))
        as [ok Hout].
      simpl in Hout.
      assert (cwd (close p.2 (emit (Spawn (argv <$> args) input_fd p.2) o))
              = cwd o) as Hcwd.
      { by rewrite (proj2 (close_fds _ _)). }
      destruct r as [? o'|code o'|o']; [done| |].
      * destruct IH as (-> & Hc & Hl & Hp' & k & Hk & Hs).
        split; [done|]. split; [congruence|]. split; [done|].
        split.
        { rewrite Hp', Hout, !pipes_of_app. simpl. by rewrite !app_nil_r. }
        exists (S k). split; [lia|].
        rewrite Hs, Hout, !spawns_app. simpl. rewrite app_nil_r.
        rewrite (drop_S _ _ _ Hargs). cbn [take]. rewrite imap_cons.
        rewrite <- app_assoc. cbn [app]. rewrite Hfirst, Hshift. done.
      * destruct IH as (Hc & Hp' & k & Hk & Hs).
        split; [congruence|].
        split.
        { rewrite Hp', Hout, !pipes_of_app. simpl. by rewrite !app_nil_r. }
        exists (S k). split; [lia|].
        rewrite Hs, Hout, !spawns_app. simpl. rewrite app_nil_r.
        rewrite (drop_S _ _ _ Hargs). cbn [take]. rewrite imap_cons.
        rewrite <- app_assoc. cbn [app]. rewrite Hfirst, Hshift. done.
    + injection Hrun as <-.
      apply lush_execute_command_exits in Hcmd as (-> & -> & _).
      split; [done|]. split; [done|]. simpl. rewrite last_snoc.
      split; [done|].
      split; [rewrite pipes_of_app; simpl; by rewrite app_nil_r|].
      exists 0%nat. split; [lia|].
      rewrite spawns_app. simpl. by rewrite !app_nil_r.
    + injection Hrun as <-.
      apply lush_execute_command_waits in Hcmd as (-> & _).
      split; [done|].
      split; [simpl; rewrite pipes_of_app; simpl; by rewrite app_nil_r|].
      exists 0%nat. split; [lia|].
      simpl. rewrite spawns_app. simpl.
      rewrite (drop_S _ _ _ Hargs). cbn [take imap]. by rewrite Hfirst.
Qed.

(** On a system where every [fork] succeeds and every child comes to an
    end, the executor comes back. *)
Lemma run_commands_comes_back (sys : system)
    (commands : list (option stage)) (pipes : list (nat * nat)) (n : nat) :
  (forall o, fork_ok sys o = true) ->
  (forall a i j o, child_ends sys a i j o = true) ->
  forall i o r,
    run_commands sys commands pipes i n o = Some r ->
    exists o', r = Goes_on () o'.
Proof.
  intros Hfork Hends.
  induction n as [|n IH]; intros i o r.
  - simpl. intros [= <-]. by eexists.
  - cbn [run_commands]. intros Hrun.
    destruct (if decide (i = 0%nat) then Some STDIN_FILENO
              else fst <$> pipes !! (i - 1)%nat) as [input_fd|];
      cbn [mbind option_bind] in Hrun; [|done].
    destruct (snd <$> pipes !! i) as [output_fd|];
      cbn [mbind option_bind] in Hrun; [|done].
    destruct (commands !! i) as [args|];
      cbn [mbind option_bind] in Hrun; [|done].
    unfold lush_execute_command in Hrun.
    rewrite Hfork, Hends in Hrun. by apply IH in Hrun.
Qed.

Lemma lush_execute_pipeline_comes_back (sys : system)
    (commands : list (option stage)) (num_commands : Z) (o : os)
    (r : outcome Z) :
  (forall o, fork_ok sys o = true) ->
  (forall a i j o, child_ends sys a i j o = true) ->
  lush_execute_pipeline sys commands num_commands o = Ok r ->
  exists rc o', r = Goes_on rc o'.
Proof.
  intros Hfork Hends. unfold lush_execute_pipeline. intros Hrun.
  destruct (commands !! 0%nat) as [c0|]; cbn [lift mbind res_bind] in Hrun;
    [|done].
  destruct c0 as [args0|]; cbn [lift mbind res_bind] in Hrun; [|done].
  destruct (args0 !! 0%nat) as [a0|]; cbn [lift mbind res_bind] in Hrun;
    [|done].
  destruct a0 as [name|]; cbn [lift mbind res_bind] in Hrun; [|done].
  destruct (decide (name = "")); [injection Hrun as <-; by eexists _, _|].
  destruct (decide (num_commands < 1)%Z); [done|].
  destruct (create_pipes sys (Z.to_nat (num_commands - 1)) o)
    as [o1|[pipes o1]]; [injection Hrun as <-; by eexists _, _|].
  destruct (run_commands sys commands pipes 0 (Z.to_nat (num_commands - 1))
              o1) as [r1|] eqn:Hloop;
    cbn [lift mbind res_bind] in Hrun; [|done].
  destruct (run_commands_comes_back _ _ _ _ Hfork Hends _ _ _ Hloop)
    as [o2 ->].
  cbn [and_then] in Hrun.
  destruct (if decide (num_commands > 1)%Z
            then fst <$> pipes !! (Z.to_nat (num_commands - 1) - 1)%nat
            else Some STDIN_FILENO) as [input_fd|];
    cbn [lift mbind res_bind] in Hrun; [|done].
  destruct (commands !! Z.to_nat (num_commands - 1)) as [last|];
    cbn [lift mbind res_bind] in Hrun; [|done].
  unfold lush_execute_command in Hrun. rewrite Hfork, Hends in Hrun.
  cbn [and_then] in Hrun. injection Hrun as <-. by eexists _, _.
Qed.

(** A failed call of [pipe] is the last thing [create_pipes] reports. *)
Lemma create_pipes_failed_out (sys : system) (n : nat) :
  forall o o',
    create_pipes sys n o = inl o' ->
    last (out o') = Some (Perror "pipe") /\ spawns (out o') = spawns (out o).
Proof.
  induction n as [|n IH]; intros o o'; simpl; [done|].
  destruct (pipe sys o) as [[[r w]|] o2] eqn:Hpipe.
  - destruct (create_pipes sys n o2) as [o3|[ps1 o3]] eqn:Hrec; [|done].
    intros [= <-]. destruct (IH _ _ Hrec) as (Hl & Hs).
    apply pipe_out in Hpipe. rewrite Hpipe, spawns_app in Hs.
    simpl in Hs. by rewrite app_nil_r in Hs.
  - intros [= <-]. unfold pipe in Hpipe.
    assert (o2 = emit PipeFailed o) as ->.
    { destruct (lowest_free sys (fds o)) as [r'|]; [|congruence].
      destruct (lowest_free sys (r' :: fds o)) as [w'|]; congruence. }
    simpl. rewrite last_snoc, !spawns_app. simpl. by rewrite !app_nil_r.
Qed.

Lemma close_pipes_out (pipes : list (nat * nat)) :
  forall o,
    spawns (out (close_pipes pipes o)) = spawns (out o) /\
    pipes_of (out (close_pipes pipes o)) = pipes_of (out o) /\
    (forall fd, closes fd (out (close_pipes pipes o)) =
                (closes fd (out o) +
                 length (filter (fun x => x = fd) (pipe_fds pipes)))%nat).
Proof.
  unfold close_pipes.
  induction pipes as [|[r w] pipes IH]; intros o; cbn [foldl fst snd].
  - split; [done|]. split; [done|]. intros fd. simpl. lia.
  - destruct (IH (close w (close r o))) as (Hs & Hp & Hcl).
    destruct (close_out r o) as [ok1 H1].
    destruct (close_out w (close r o)) as [ok2 H2].
    split; [|split].
    + rewrite Hs, H2, H1, !spawns_app. simpl. by rewrite !app_nil_r.
    + rewrite Hp, H2, H1, !pipes_of_app. simpl. by rewrite !app_nil_r.
    + intros fd.
      rewrite Hcl, H2, H1, !closes_app, pipe_fds_cons, !filter_cons. simpl.
      destruct (decide (r = fd)), (decide (w = fd)); simpl; lia.
Qed.

(** How often a descriptor occurs among the ends of the pipes. *)
Lemma count_pipe_fds (fd : nat) (pipes : list (nat * nat)) :
  length (filter (fun x => x = fd) (pipe_fds pipes)) =
  (length (filter (fun x => x = fd) (fst <$> pipes)) +
   length (filter (fun x => x = fd) (snd <$> pipes)))%nat.
Proof.
  induction pipes as [|[r w] pipes IH]; [done|].
  rewrite pipe_fds_cons. cbn [fmap list_fmap fst snd].
  rewrite !filter_cons.
  destruct (decide (r = fd)), (decide (w = fd)); simpl; lia.
Qed.

Lemma count_present (fd : nat) (l : list nat) :
  fd ∈ l -> (1 <= length (filter (fun x => x = fd) l))%nat.
Proof.
  induction l as [|x l IH]; intros Hin.
  - by apply elem_of_nil in Hin.
  - rewrite filter_cons. destruct (decide (x = fd)); [simpl; lia|].
    apply elem_of_cons in Hin as [->|Hin]; [done|]. by apply IH.
Qed.

Lemma count_NoDup (fd : nat) (l : list nat) :
  NoDup l -> (length (filter (fun x => x = fd) l) <= 1)%nat.
Proof.
  induction 1 as [|x l Hx Hnd IH]; [simpl; lia|].
  rewrite filter_cons. destruct (decide (x = fd)) as [->|]; [|done].
  simpl. rewrite (proj2 (length_zero_iff_nil _)); [lia|].
  destruct (filter (fun x => x = fd) l) as [|y k] eqn:Hf; [done|].
  assert (y ∈ filter (fun x => x = fd) l) as Hy by (rewrite Hf; left).
  apply list_elem_of_filter in Hy as [-> Hy]. done.
Qed.



(** X9.  In every pipeline the executor runs to its [return 1], whatever
    the descriptors the system hands out, the read end of each pipe is
    closed once and the write end twice: once after the command that
    writes it has been started, and once more by the loop that closes both
    ends of every pipe. *)
Theorem pipeline_closes_every_write_end_twice
    (sys : system) (commands : list (option stage)) (num_commands : Z)
    (name : string) (args : stage) (o o' : os) :
  commands !! 0%nat = Some (Some (Some name :: args)) ->
  name <> "" ->
  lush_execute_pipeline sys commands num_commands o = Ok (Goes_on 1%Z o') ->
  exists pipes,
    pipes_of (out o') = pipes_of (out o) ++ pipes /\
    Forall (fun p =>
              closes (fst p) (out o') = (closes (fst p) (out o) + 1)%nat /\
              closes (snd p) (out o') = (closes (snd p) (out o) + 2)%nat)
           pipes.
Proof.
  unfold lush_execute_pipeline. intros Hc0 Hname Hrun.
  unfold stage in *. rewrite Hc0 in Hrun. cbn [lift mbind res_bind lookup list_lookup] in Hrun.
  rewrite decide_False in Hrun by done.
  destruct (decide (num_commands < 1)%Z); [done|].
  destruct (create_pipes sys (Z.to_nat (num_commands - 1)) o)
    as [o1|[pipes o1]] eqn:Hpipes; [done|].
  destruct (create_pipes_out _ _ _ _ _ Hpipes) as (_ & Hp1 & Hc1).
  destruct (create_pipes_fds _ _ _ _ _ Hpipes) as (_ & _ & Hlen).
  destruct (create_pipes_distinct _ _ _ _ _ Hpipes) as (Hnd & _).
  destruct (run_commands sys commands pipes 0 (Z.to_nat (num_commands - 1)) o1)
    as [[[] o2|code2 o2|o2]|] eqn:Hloop;
    cbn [lift mbind res_bind and_then] in Hrun; [|done..].
  destruct (run_commands_out _ _ _ _ _ _ _ Hloop) as (_ & Hp2 & Hc2).
  destruct (if decide (num_commands > 1)%Z
            then fst <$> pipes !! (Z.to_nat (num_commands - 1) - 1)%nat
            else Some STDIN_FILENO) as [input_fd|];
    cbn [lift mbind res_bind] in Hrun; [|done].
  destruct (commands !! Z.to_nat (num_commands - 1)) as [last|];
    cbn [lift mbind res_bind] in Hrun; [|done].
  destruct (lush_execute_command sys last input_fd STDOUT_FILENO o2)
    as [[] o3|code3 o3|o3] eqn:Hcmd; cbn [and_then] in Hrun; [|done..].
  apply lush_execute_command_returns in Hcmd as ->.
  injection Hrun as <-.
  exists pipes.
  destruct (close_pipes_out pipes
              (emit (Spawn (argv <$> last) input_fd STDOUT_FILENO) o2))
    as (_ & Hp3 & Hc3).
  split.
  { rewrite Hp3. simpl.
    rewrite pipes_of_app. simpl. rewrite app_nil_r. congruence. }
  assert (forall fd,
            closes fd (out (close_pipes pipes
                       (emit (Spawn (argv <$> last) input_fd STDOUT_FILENO)
                             o2))) =
            (closes fd (out o) +
             length (filter (fun x => x = fd) (snd <$> pipes)) +
             length (filter (fun x => x = fd) (pipe_fds pipes)))%nat) as Hall.
  { intros fd. rewrite Hc3. simpl.
    rewrite closes_app, Hc2, Hc1, drop_0. simpl.
    rewrite take_ge by lia. lia. }
  apply Forall_forall. intros [r w] Hp. cbn [fst snd]. rewrite !Hall.
  assert (r ∈ pipe_fds pipes) as Hr.
  { apply list_elem_of_bind. exists (r, w). split; [left|done]. }
  assert (w ∈ pipe_fds pipes) as Hw.
  { apply list_elem_of_bind. exists (r, w). split; [right; left|done]. }
  assert (r ∈ fst <$> pipes) as Hr1.
  { apply list_elem_of_fmap. by exists (r, w). }
  assert (w ∈ snd <$> pipes) as Hw1.
  { apply list_elem_of_fmap. by exists (r, w). }
  pose proof (count_pipe_fds r pipes). pose proof (count_pipe_fds w pipes).
  pose proof (count_NoDup r _ Hnd). pose proof (count_NoDup w _ Hnd).
  pose proof (count_present _ _ Hr1). pose proof (count_present _ _ Hw1).
  lia.
Qed.

Lemma pipeline_closes_every_write_end_twice_witness :
  exists o' pipes,
    lush_execute_pipeline tight_system ls_wc 2 at_prompt
      = Ok (Goes_on 1%Z o') /\
    pipes_of (out o') = pipes /\
    Forall (fun p => closes (fst p) (out o') = 1%nat /\
                     closes (snd p) (out o') = 2%nat) pipes.
Proof.
  destruct (lush_execute_pipeline tight_system ls_wc 2 at_prompt)
    as [[rc o'|code o'|o']| |] eqn:Hrun.
  - assert (rc = 1%Z) as Hrc by (vm_compute in Hrun; congruence).
    subst rc.
    destruct (pipeline_closes_every_write_end_twice
                tight_system ls_wc 2 "ls" [None] at_prompt o' eq_refl
                ltac:(discriminate) Hrun) as (pipes & Hp & Hall).
    exists o', pipes. split; [reflexivity|]. split; [exact Hp|exact Hall].
  - vm_compute in Hrun. discriminate Hrun.
  - vm_compute in Hrun. discriminate Hrun.
  - vm_compute in Hrun. discriminate Hrun.
  - vm_compute in Hrun. discriminate Hrun.
Defined.

(** X10.  When the executor returns 0 a call of [pipe] has failed: it has
    reported that as its last action, it has started no command and closed
    no descriptor, and the descriptors of the pipes it opened before the
    failure are left open in front of those that were open before the
    call. *)
Theorem failed_pipeline_starts_nothing
    (sys : system) (commands : list (option stage)) (num_commands : Z)
    (o o' : os) :
  lush_execute_pipeline sys commands num_commands o = Ok (Goes_on 0%Z o') ->
  last (out o') = Some (Perror "pipe") /\
  spawns (out o') = spawns (out o) /\
  (forall fd, closes fd (out o') = closes fd (out o)) /\
  (exists pipes, pipes_of (out o') = pipes_of (out o) ++ pipes /\
                 fds o' = reverse (pipe_fds pipes) ++ fds o).
Proof.
  unfold lush_execute_pipeline. intros Hrun.
  destruct (commands !! 0%nat) as [c0|]; cbn [lift mbind res_bind] in Hrun;
    [|done].
  destruct c0 as [args0|]; cbn [lift mbind res_bind] in Hrun; [|done].
  destruct (args0 !! 0%nat) as [a0|]; cbn [lift mbind res_bind] in Hrun;
    [|done].
  destruct a0 as [name|]; cbn [lift mbind res_bind] in Hrun; [|done].
  destruct (decide (name = "")); [done|].
  destruct (decide (num_commands < 1)%Z); [done|].
  destruct (create_pipes sys (Z.to_nat (num_commands - 1)) o)
    as [o1|[pipes o1]] eqn:Hpipes.
  - injection Hrun as <-. clear -Hpipes.
    revert o o1 Hpipes.
    induction (Z.to_nat (num_commands - 1)) as [|n IH]; intros o o1; simpl;
      [done|].
    destruct (pipe sys o) as [[[r w]|] o2] eqn:Hpipe.
    + destruct (create_pipes sys n o2) as [o3|[ps1 o3]] eqn:Hrec; [|done].
      intros [= <-]. destruct (IH _ _ Hrec) as (Hl & Hs & Hc & ps & Hp & Hf).
      destruct (pipe_fds_fresh _ _ _ _ _ Hpipe) as (Hf2 & _).
      apply pipe_out in Hpipe. rewrite Hpipe in Hs, Hc, Hp.
      rewrite spawns_app in Hs. rewrite pipes_of_app in Hp.
      simpl in Hs, Hp. rewrite app_nil_r in Hs. rewrite <- app_assoc in Hp.
      split; [done|]. split; [done|]. split.
      { intros fd. rewrite Hc, closes_app. simpl. lia. }
      exists ((r, w) :: ps). split; [done|].
      rewrite pipe_fds_cons, !reverse_cons, <- !app_assoc. simpl. congruence.
    + intros [= <-]. unfold pipe in Hpipe.
      assert (o2 = emit PipeFailed o) as ->.
      { destruct (lowest_free sys (fds o)) as [r'|]; [|congruence].
        destruct (lowest_free sys (r' :: fds o)) as [w'|]; congruence. }
      simpl. rewrite last_snoc, !spawns_app, !pipes_of_app.
      simpl. rewrite !app_nil_r.
      split; [done|]. split; [done|]. split.
      { intros fd. rewrite !closes_app. simpl. lia. }
      exists []. by rewrite app_nil_r.
  - destruct (run_commands sys commands pipes 0 (Z.to_nat (num_commands - 1))
                o1)
      as [[[] o2|code2 o2|o2]|];
      cbn [lift mbind res_bind and_then] in Hrun; [|done..].
    destruct (if decide (num_commands > 1)%Z
              then fst <$> pipes !! (Z.to_nat (num_commands - 1) - 1)%nat
              else Some STDIN_FILENO) as [input_fd|];
      cbn [lift mbind res_bind] in Hrun; [|done].
    destruct (commands !! Z.to_nat (num_commands - 1)) as [last|];
      cbn [lift mbind res_bind] in Hrun; [|done].
    by destruct (lush_execute_command sys last input_fd STDOUT_FILENO o2)
      as [[] o3|code3 o3|o3].
Qed.

Lemma failed_pipeline_starts_nothing_witness :
  exists o',
    lush_execute_pipeline tight_system a_b_c 3 at_prompt
      = Ok (Goes_on 0%Z o') /\
    last (out o') = Some (Perror "pipe") /\ spawns (out o') = [].
Proof.
  destruct (lush_execute_pipeline tight_system a_b_c 3 at_prompt)
    as [[rc o'|code o'|o']| |] eqn:Hrun.
  - assert (rc = 0%Z) as Hrc by (vm_compute in Hrun; congruence).
    subst rc. exists o'. split; [reflexivity|].
    destruct (failed_pipeline_starts_nothing _ _ _ _ _ Hrun)
      as (Hl & Hs & _).
    split; [exact Hl|exact Hs].
  - vm_compute in Hrun. discriminate Hrun.
  - vm_compute in Hrun. discriminate Hrun.
  - vm_compute in Hrun. discriminate Hrun.
  - vm_compute in Hrun. discriminate Hrun.
Defined.

End ShellMore.

(** * Lines of words *)

Module WordFacts.
Import Mem MemFacts Tokenizer Lines Shell Samples TokenizerFacts EditorMore
       Extra.

Lemma letter_not_blank (c : ascii) : letter c -> is_blank c = false.
Proof.
  intros (_ & Hs & Hn & _). unfold is_blank.
  apply bool_decide_eq_false. intros [?|?]; done.
Qed.

Lemma spaced_Forall (P : ascii -> Prop) (fill : ascii)
    (more : list (nat * list ascii)) :
  P fill -> Forall (fun kw => Forall P kw.2) more ->
  Forall P (spaced fill more).
Proof.
  intros Hf. induction 1 as [|[k w] more Hw _ IH]; simpl; [done|].
  constructor; [done|]. apply Forall_app. split; [by apply Forall_replicate|].
  apply Forall_app. done.
Qed.

Lemma words_Forall (P : ascii -> Prop) (fill : ascii) (w : list ascii)
    (more : list (nat * list ascii)) :
  (forall c, letter c -> P c) -> P fill ->
  word w -> Forall (fun kw => word kw.2) more ->
  Forall P (w ++ spaced fill more).
Proof.
  intros HP Hf [_ Hw] Hmore. apply Forall_app. split.
  - eapply Forall_impl; [exact Hw|done].
  - apply spaced_Forall; [done|].
    eapply Forall_impl; [exact Hmore|]. intros [k w'] [_ Hw']. simpl.
    eapply Forall_impl; [exact Hw'|done].
Qed.

Lemma words_last (fill : ascii) (more : list (nat * list ascii)) :
  forall w,
    word w -> Forall (fun kw => word kw.2) more ->
    exists z, last (w ++ spaced fill more) = Some z /\ letter z.
Proof.
  induction more as [|[k w'] more IH]; intros w [Hne Hw] Hmore.
  - simpl. rewrite app_nil_r.
    destruct (proj2 (last_is_Some w) Hne) as [z Hz]. exists z.
    split; [done|]. apply last_Some_elem_of in Hz.
    by apply (proj1 (Forall_forall _ _) Hw).
  - inversion Hmore as [|? ? Hw' Hmore']; subst.
    destruct (IH w' Hw' Hmore') as (z & Hz & Hl). exists z. split; [|done].
    cbn [spaced]. rewrite (app_assoc w), last_app. by rewrite Hz.
Qed.

Lemma cstring_middle (front w tail : list ascii) (n : nat) :
  n = length front -> nonzero w ->
  cstring (front ++ w ++ NUL :: tail) n = Some (String.string_of_list_ascii w).
Proof.
  intros -> Hw. unfold cstring. rewrite drop_app_length.
  by apply cstring_from_app.
Qed.

Section Scanning.

Variable env : string -> option string.

(** A round of the scanning loop on a letter. *)
Lemma scan_letter (fuel : nat) (front tail : list ascii) (c : ascii)
    (a : list (option pointer)) (p : nat) (tok : option nat) :
  letter c ->
  scan env (S fuel) (ScanState (front ++ c :: tail) (length front) a p false tok)
  = scan env fuel
         (ScanState (front ++ c :: tail) (S (length front)) a p false tok).
Proof.
  intros (Hn & Hs & _ & _ & Hq & Hd). rewrite scan_S. cbn [line at_].
  rewrite load_middle by done. cbn [lift mbind res_bind].
  rewrite decide_False by done.
  unfold scan_body. cbn [line at_ inside_string].
  rewrite decide_False by (intros [? _]; done).
  rewrite decide_False by done. rewrite decide_False by done.
  done.
Qed.

Lemma scan_letters (w : list ascii) :
  forall fuel front tail a p tok,
    Forall letter w ->
    scan env (length w + fuel)
         (ScanState (front ++ w ++ tail) (length front) a p false tok)
    = scan env fuel
           (ScanState (front ++ w ++ tail) (length front + length w) a p
                      false tok).
Proof.
  induction w as [|c w IH]; intros fuel front tail a p tok Hw.
  - simpl. by rewrite Nat.add_0_r.
  - inversion Hw as [|? ? Hc Hw']; subst.
    cbn [length Nat.add app]. rewrite scan_letter by done.
    replace (front ++ c :: w ++ tail) with ((front ++ [c]) ++ w ++ tail)
      by (by rewrite <- app_assoc).
    replace (S (length front)) with (length (front ++ [c]))
      by (rewrite length_app; simpl; lia).
    rewrite IH by done. do 2 f_equal. rewrite length_app. simpl. lia.
Qed.

(** The space behind a word: the word is stored and the space cleared. *)
Lemma scan_space_after_word (fuel : nat) (front tail : list ascii)
    (pre : list (option pointer)) (r t : nat) (x : ascii) :
  (front ++ SPACE :: tail) !! t = Some x -> x <> SPACE ->
  scan env (S fuel)
       (ScanState (front ++ SPACE :: tail) (length front)
                  (pre ++ replicate (S r) None) (length pre) false (Some t))
  = scan env fuel
         (ScanState (front ++ NUL :: tail) (S (length front))
                    (pre ++ Some (InLine t) :: replicate r None)
                    (S (length pre)) false (Some (S (length front)))).
Proof.
  intros Ht Hx. rewrite scan_S. cbn [line at_].
  rewrite load_middle by done. cbn [lift mbind res_bind].
  rewrite decide_False by done.
  unfold scan_body. cbn [line at_ inside_string args pos current_token].
  rewrite decide_False by (intros [? _]; done).
  rewrite decide_True by done.
  unfold token_pending, load. rewrite Ht. cbn [mbind option_bind].
  rewrite bool_decide_eq_true_2 by done.
  unfold put. rewrite decide_True by (rewrite length_app; simpl; lia).
  cbn [mbind option_bind fmap option_fmap option_map].
  rewrite store_middle by done.
  cbn [lift mbind option_bind res_bind line at_ inside_string args pos
         current_token].
  replace (length pre) with (length pre + 0)%nat at 1 by lia.
  rewrite insert_app_r. done.
Qed.

(** A space behind a space: nothing is stored and the space is cleared. *)
Lemma scan_space_after_space (fuel : nat) (front tail : list ascii)
    (a : list (option pointer)) (p : nat) :
  scan env (S fuel)
       (ScanState (front ++ SPACE :: tail) (length front) a p false
                  (Some (length front)))
  = scan env fuel
         (ScanState (front ++ NUL :: tail) (S (length front)) a p false
                    (Some (S (length front)))).
Proof.
  rewrite scan_S. cbn [line at_].
  rewrite load_middle by done. cbn [lift mbind res_bind].
  rewrite decide_False by done.
  unfold scan_body. cbn [line at_ inside_string args pos current_token].
  rewrite decide_False by (intros [? _]; done).
  rewrite decide_True by done.
  unfold token_pending. rewrite load_middle by done.
  cbn [mbind option_bind].
  rewrite bool_decide_eq_false_2 by (intros H; by apply H).
  cbn [mbind option_bind]. rewrite store_middle by done.
  done.
Qed.

Lemma scan_spaces (k : nat) :
  forall fuel front tail a p,
    scan env (k + fuel)
         (ScanState (front ++ replicate k SPACE ++ tail) (length front) a p
                    false (Some (length front)))
    = scan env fuel
           (ScanState (front ++ replicate k NUL ++ tail) (length front + k) a p
                      false (Some (length front + k)%nat)).
Proof.
  induction k as [|k IH]; intros fuel front tail a p.
  - simpl. by rewrite Nat.add_0_r.
  - cbn [replicate Nat.add app]. rewrite scan_space_after_space.
    replace (front ++ NUL :: replicate k SPACE ++ tail)
      with ((front ++ [NUL]) ++ replicate k SPACE ++ tail)
      by (by rewrite <- app_assoc).
    replace (S (length front)) with (length (front ++ [NUL]))
      by (rewrite length_app; simpl; lia).
    rewrite IH. rewrite <- app_assoc. cbn [app].
    rewrite length_app. cbn [length].
    by replace (length front + 1 + k)%nat with (length front + S k)%nat by lia.
Qed.

(** The loop over a command made of words: every space is cleared, every
    word but the last is stored when the space behind it is read, and the
    last is what the test behind the loop finds pending. *)
Lemma scan_words (more : list (nat * list ascii)) :
  forall w front rest extra pre r,
    word w -> Forall (fun kw => word kw.2) more ->
    exists s entries,
      scan env (length (w ++ spaced SPACE more) + S extra)
           (ScanState (front ++ w ++ spaced SPACE more ++ NUL :: rest)
                      (length front)
                      (pre ++ replicate (S (length more + r)) None)
                      (length pre) false (Some (length front))) = Ok s /\
      line s = front ++ w ++ spaced NUL more ++ NUL :: rest /\
      inside_string s = false /\
      token_pending (line s) (current_token s) = Some true /\
      put (args s) (pos s) (InLine <$> current_token s)
        = Some (pre ++ entries ++ replicate r None) /\
      forall rest',
        Forall2 (fun e x =>
                   exists off,
                     e = Some (InLine off) /\
                     cstring (front ++ w ++ spaced NUL more ++ NUL :: rest') off
                       = Some (String.string_of_list_ascii x))
                entries (w :: more.*2).
Proof.
  induction more as [|[k w'] more IH]; intros w front rest extra pre r Hw Hmore.
  - destruct Hw as [Hne Hw]. cbn [spaced app length fmap list_fmap].
    rewrite app_nil_r.
    rewrite scan_letters by done.
    rewrite scan_S. cbn [line at_].
    rewrite app_assoc, load_middle by (by rewrite length_app).
    rewrite <- app_assoc.
    cbn [lift mbind res_bind]. rewrite decide_True by done.
    eexists _, [Some (InLine (length front))].
    split; [done|]. cbn [line inside_string current_token args pos].
    split; [done|]. split; [done|].
    assert (nonzero w) as Hnz.
    { eapply Forall_impl; [exact Hw|]. by intros c [? _]. }
    split; [|split].
    + destruct w as [|x w]; [done|]. inversion Hw as [|? ? Hx _]; subst.
      unfold token_pending. cbn [app]. rewrite load_middle by done.
      cbn [mbind option_bind]. rewrite bool_decide_eq_true_2; [done|].
      by destruct Hx as (_ & ? & _).
    + unfold put. rewrite decide_True by (rewrite length_app; simpl; lia).
      cbn [fmap option_fmap option_map]. f_equal.
      replace (length pre) with (length pre + 0)%nat at 1 by lia.
      by rewrite insert_app_r.
    + intros rest'. constructor; [|constructor]. eexists. split; [done|].
      by apply cstring_middle.
  - inversion Hmore as [|? ? Hw' Hmore']; subst. cbn [snd] in Hw'.
    pose proof Hw as [Hne Hwl].
    assert (nonzero w) as Hnz.
    { eapply Forall_impl; [exact Hwl|]. by intros c [? _]. }
    destruct w as [|x w]; [done|]. inversion Hwl as [|? ? Hx _]; subst.
    destruct (IH w' (front ++ (x :: w) ++ replicate (S k) NUL) rest extra
                (pre ++ [Some (InLine (length front))]) r Hw' Hmore')
      as (s & entries & Hscan & Hline & Hin & Hpend & Hput & Hall).
    assert (forall rest',
              front ++ (x :: w) ++ spaced NUL ((k, w') :: more) ++ NUL :: rest'
              = (front ++ (x :: w) ++ replicate (S k) NUL) ++
                w' ++ spaced NUL more ++ NUL :: rest') as Heq.
    { intros rest'. cbn [spaced]. by rewrite <- !app_assoc. }
    exists s, (Some (InLine (length front)) :: entries).
    split; [|rewrite (Heq rest);
             split; [done|split; [done|split; [done|split]]]].
    + rewrite <- Hscan. cbn [spaced].
      (* the word *)
      replace (length ((x :: w) ++ replicate (S k) SPACE ++
                         w' ++ spaced SPACE more) + S extra)%nat
        with (length (x :: w) +
              S (k + (length (w' ++ spaced SPACE more) + S extra)))%nat
        by (rewrite !length_app, length_replicate; lia).
      rewrite <- !app_assoc.
      rewrite scan_letters by done.
      (* the space behind it *)
      change (replicate (S k) SPACE) with (SPACE :: replicate k SPACE).
      change (length ((k, w') :: more) + r)%nat with (S (length more + r)).
      replace (front ++ (x :: w) ++ (SPACE :: replicate k SPACE) ++
                 w' ++ spaced SPACE more ++ NUL :: rest)
        with ((front ++ x :: w) ++ SPACE :: replicate k SPACE ++
                 w' ++ spaced SPACE more ++ NUL :: rest)
        by (by rewrite <- app_assoc).
      replace (length front + length (x :: w))%nat
        with (length (front ++ x :: w)) by (by rewrite length_app).
      rewrite (scan_space_after_word _ _ _ _ _ (length front) x);
        [|rewrite <- app_assoc; by apply list_lookup_middle
         |by destruct Hx as (_ & ? & _)].
      (* the spaces behind that *)
      replace ((front ++ x :: w) ++ NUL :: replicate k SPACE ++
                 w' ++ spaced SPACE more ++ NUL :: rest)
        with ((front ++ (x :: w) ++ [NUL]) ++ replicate k SPACE ++
                 w' ++ spaced SPACE more ++ NUL :: rest)
        by (by rewrite <- !app_assoc).
      replace (S (length (front ++ x :: w)))
        with (length (front ++ (x :: w) ++ [NUL]))
        by (rewrite !length_app; simpl; lia).
      rewrite scan_spaces.
      (* the words behind those *)
      replace ((front ++ (x :: w) ++ [NUL]) ++ replicate k NUL ++
                 w' ++ spaced SPACE more ++ NUL :: rest)
        with ((front ++ (x :: w) ++ replicate (S k) NUL) ++
                 w' ++ spaced SPACE more ++ NUL :: rest)
        by (by rewrite <- !app_assoc).
      replace (length (front ++ (x :: w) ++ [NUL]) + k)%nat
        with (length (front ++ (x :: w) ++ replicate (S k) NUL))
        by (rewrite !length_app, length_replicate; simpl; lia).
      replace (pre ++ Some (InLine (length front)) ::
                 replicate (S (length more + r)) None)
        with ((pre ++ [Some (InLine (length front))]) ++
                 replicate (S (length more + r)) None)
        by (by rewrite <- app_assoc).
      replace (S (length pre))
        with (length (pre ++ [Some (InLine (length front))]))
        by (rewrite length_app; simpl; lia).
      by rewrite <- !app_assoc.
    + rewrite Hput. f_equal. by rewrite <- app_assoc.
    + intros rest'. constructor; [|rewrite Heq; apply Hall].
      eexists. split; [done|]. cbn [spaced].
      change (replicate (S k) NUL) with (NUL :: replicate k NUL).
      rewrite <- !app_assoc. by apply cstring_middle.
Qed.

(** The same loop up to the end of the spaces behind the last word, with
    anything behind those: every word is stored by then, and the cleared
    part of the buffer is not read again. *)
Lemma scan_words_gap (more : list (nat * list ascii)) :
  forall w front k tail fuel pre r,
    word w -> Forall (fun kw => word kw.2) more ->
    exists entries cleared,
      scan env (length (w ++ spaced SPACE more) + S k + fuel)
           (ScanState (front ++ w ++ spaced SPACE more ++
                         replicate (S k) SPACE ++ tail)
                      (length front)
                      (pre ++ replicate (S (length more) + r) None)
                      (length pre) false (Some (length front)))
      = scan env fuel
             (ScanState (cleared ++ tail) (length cleared)
                        (pre ++ entries ++ replicate r None)
                        (length pre + S (length more)) false
                        (Some (length cleared))) /\
      cleared = front ++ w ++ spaced NUL more ++ replicate (S k) NUL /\
      forall tail',
        Forall2 (fun e x =>
                   exists off,
                     e = Some (InLine off) /\
                     cstring (cleared ++ tail') off
                       = Some (String.string_of_list_ascii x))
                entries (w :: more.*2).
Proof.
  induction more as [|[k' w'] more IH];
    intros w front k tail fuel pre r Hw Hmore;
    pose proof Hw as [Hne Hwl];
    (assert (nonzero w) as Hnz
       by (eapply Forall_impl; [exact Hwl|]; by intros c [? _]));
    (destruct w as [|x w]; [done|]); inversion Hwl as [|? ? Hx _]; subst.
  - exists [Some (InLine (length front))],
           (front ++ (x :: w) ++ replicate (S k) NUL).
    split; [|split; [done|]].
    + cbn [spaced length fmap list_fmap Nat.add].
      rewrite !app_nil_r, !app_nil_l.
      replace (length (x :: w) + S k + fuel)%nat
        with (length (x :: w) + S (k + fuel))%nat by lia.
      rewrite scan_letters by done.
      change (replicate (S k) SPACE) with (SPACE :: replicate k SPACE).
      change (replicate (S r) None)
        with (@None pointer :: replicate r None).
      change (pre ++ None :: replicate r None)
        with (pre ++ replicate (S r) (@None pointer)).
      replace (front ++ (x :: w) ++ (SPACE :: replicate k SPACE) ++ tail)
        with ((front ++ x :: w) ++ SPACE :: replicate k SPACE ++ tail)
        by (by rewrite <- app_assoc).
      replace (length front + length (x :: w))%nat
        with (length (front ++ x :: w)) by (by rewrite length_app).
      rewrite (scan_space_after_word _ _ _ _ _ (length front) x);
        [|rewrite <- app_assoc; by apply list_lookup_middle
         |by destruct Hx as (_ & ? & _)].
      replace ((front ++ x :: w) ++ NUL :: replicate k SPACE ++ tail)
        with ((front ++ (x :: w) ++ [NUL]) ++ replicate k SPACE ++ tail)
        by (by rewrite <- !app_assoc).
      replace (S (length (front ++ x :: w)))
        with (length (front ++ (x :: w) ++ [NUL]))
        by (rewrite !length_app; simpl; lia).
      rewrite scan_spaces.
      replace ((front ++ (x :: w) ++ [NUL]) ++ replicate k NUL ++ tail)
        with ((front ++ (x :: w) ++ replicate (S k) NUL) ++ tail)
        by (by rewrite <- !app_assoc).
      replace (length (front ++ (x :: w) ++ [NUL]) + k)%nat
        with (length (front ++ (x :: w) ++ replicate (S k) NUL))
        by (rewrite !length_app, length_replicate; simpl; lia).
      replace (length pre + 1)%nat with (S (length pre)) by lia.
      done.
    + intros tail'. constructor; [|constructor]. eexists. split; [done|].
      change (replicate (S k) NUL) with (NUL :: replicate k NUL).
      rewrite <- !app_assoc. by apply cstring_middle.
  - inversion Hmore as [|? ? Hw' Hmore']; subst. cbn [snd] in Hw'.
    destruct (IH w' (front ++ (x :: w) ++ replicate (S k') NUL) k tail fuel
                (pre ++ [Some (InLine (length front))]) r Hw' Hmore')
      as (entries & cleared & Hscan & Hcl & Hall).
    assert (front ++ (x :: w) ++ spaced NUL ((k', w') :: more) ++
              replicate (S k) NUL
            = cleared) as Heq.
    { rewrite Hcl. cbn [spaced]. by rewrite <- !app_assoc. }
    exists (Some (InLine (length front)) :: entries), cleared.
    split; [|split; [done|]].
    + replace (length pre + S (length ((k', w') :: more)))%nat
        with (length (pre ++ [Some (InLine (length front))]) +
              S (length more))%nat
        by (rewrite length_app; simpl; lia).
      replace (pre ++ (Some (InLine (length front)) :: entries) ++
                 replicate r None)
        with ((pre ++ [Some (InLine (length front))]) ++ entries ++
                 replicate r None)
        by (by rewrite <- app_assoc).
      rewrite <- Hscan. cbn [spaced].
      replace (length ((x :: w) ++ replicate (S k') SPACE ++
                         w' ++ spaced SPACE more) + S k + fuel)%nat
        with (length (x :: w) +
              S (k' + (length (w' ++ spaced SPACE more) + S k + fuel)))%nat
        by (rewrite !length_app, length_replicate; lia).
      rewrite <- !app_assoc.
      rewrite scan_letters by done.
      change (replicate (S k') SPACE) with (SPACE :: replicate k' SPACE).
      change (S (length ((k', w') :: more)) + r)%nat
        with (S (S (length more) + r)).
      replace (front ++ (x :: w) ++ (SPACE :: replicate k' SPACE) ++
                 w' ++ spaced SPACE more ++ replicate (S k) SPACE ++ tail)
        with ((front ++ x :: w) ++ SPACE :: replicate k' SPACE ++
                 w' ++ spaced SPACE more ++ replicate (S k) SPACE ++ tail)
        by (by rewrite <- app_assoc).
      replace (length front + length (x :: w))%nat
        with (length (front ++ x :: w)) by (by rewrite length_app).
      rewrite (scan_space_after_word _ _ _ _ _ (length front) x);
        [|rewrite <- app_assoc; by apply list_lookup_middle
         |by destruct Hx as (_ & ? & _)].
      replace ((front ++ x :: w) ++ NUL :: replicate k' SPACE ++
                 w' ++ spaced SPACE more ++ replicate (S k) SPACE ++ tail)
        with ((front ++ (x :: w) ++ [NUL]) ++ replicate k' SPACE ++
                 w' ++ spaced SPACE more ++ replicate (S k) SPACE ++ tail)
        by (by rewrite <- !app_assoc).
      replace (S (length (front ++ x :: w)))
        with (length (front ++ (x :: w) ++ [NUL]))
        by (rewrite !length_app; simpl; lia).
      rewrite scan_spaces.
      replace ((front ++ (x :: w) ++ [NUL]) ++ replicate k' NUL ++
                 w' ++ spaced SPACE more ++ replicate (S k) SPACE ++ tail)
        with ((front ++ (x :: w) ++ replicate (S k') NUL) ++
                 w' ++ spaced SPACE more ++ replicate (S k) SPACE ++ tail)
        by (by rewrite <- !app_assoc).
      replace (length (front ++ (x :: w) ++ [NUL]) + k')%nat
        with (length (front ++ (x :: w) ++ replicate (S k') NUL))
        by (rewrite !length_app, length_replicate; simpl; lia).
      replace (pre ++ Some (InLine (length front)) ::
                 replicate (S (length more) + r) None)
        with ((pre ++ [Some (InLine (length front))]) ++
                 replicate (S (length more) + r) None)
        by (by rewrite <- app_assoc).
      replace (S (length pre))
        with (length (pre ++ [Some (InLine (length front))]))
        by (rewrite length_app; simpl; lia).
      by rewrite <- !app_assoc.
    + intros tail'. constructor; [|done]. eexists. split; [done|].
      rewrite <- Heq. cbn [spaced].
      change (replicate (S k') NUL) with (NUL :: replicate k' NUL).
      rewrite <- !app_assoc. by apply cstring_middle.
Qed.

(** Inside a string the loop steps over everything but the quote. *)
Lemma scan_quoted (body : list ascii) :
  forall fuel front tail a p tok,
    quoted body ->
    scan env (length body + fuel)
         (ScanState (front ++ body ++ tail) (length front) a p true tok)
    = scan env fuel
           (ScanState (front ++ body ++ tail) (length front + length body) a p
                      true tok).
Proof.
  induction body as [|c body IH]; intros fuel front tail a p tok Hq.
  - simpl. by rewrite Nat.add_0_r.
  - inversion Hq as [|? ? [Hn Hc] Hq']; subst.
    cbn [length Nat.add app]. rewrite scan_S. cbn [line at_].
    rewrite load_middle by done. cbn [lift mbind res_bind].
    rewrite decide_False by done.
    unfold scan_body. cbn [line at_ inside_string].
    rewrite decide_False by (intros [? _]; done).
    rewrite decide_False by done.
    cbn [lift mbind res_bind line at_ args pos inside_string current_token].
    replace (front ++ c :: body ++ tail) with ((front ++ [c]) ++ body ++ tail)
      by (by rewrite <- app_assoc).
    replace (S (length front)) with (length (front ++ [c]))
      by (rewrite length_app; simpl; lia).
    rewrite IH by done. do 2 f_equal. rewrite length_app. simpl. lia.
Qed.

(** The quote that opens a string: it is cleared, and the byte behind it
    is the first of the token. *)
Lemma scan_open_quote (fuel : nat) (front tail : list ascii) (b : ascii)
    (a : list (option pointer)) (p : nat) (tok : option nat) :
  b <> DQUOTE ->
  scan env (S fuel)
       (ScanState (front ++ DQUOTE :: b :: tail) (length front) a p false tok)
  = scan env fuel
         (ScanState (front ++ NUL :: b :: tail) (S (S (length front))) a p true
                    (Some (S (length front)))).
Proof.
  intros Hb. rewrite scan_S. cbn [line at_].
  rewrite load_middle by done. cbn [lift mbind res_bind].
  rewrite decide_False by done.
  unfold scan_body. cbn [line at_ inside_string args pos current_token].
  rewrite decide_True by done.
  rewrite store_middle by done. cbn [mbind option_bind].
  replace (front ++ NUL :: b :: tail) with ((front ++ [NUL]) ++ b :: tail)
    by (by rewrite <- app_assoc).
  rewrite load_middle by (rewrite length_app; simpl; lia).
  cbn [mbind option_bind]. rewrite decide_True by done.
  done.
Qed.

(** The quote that closes it: it is cleared and the token stored. *)
Lemma scan_close_quote (fuel : nat) (front tail : list ascii)
    (pre : list (option pointer)) (r : nat) (tok : option nat) :
  scan env (S fuel)
       (ScanState (front ++ DQUOTE :: tail) (length front)
                  (pre ++ replicate (S r) None) (length pre) true tok)
  = scan env fuel
         (ScanState (front ++ NUL :: tail) (S (length front))
                    (pre ++ (InLine <$> tok) :: replicate r None)
                    (S (length pre)) false None).
Proof.
  rewrite scan_S. cbn [line at_].
  rewrite load_middle by done. cbn [lift mbind res_bind].
  rewrite decide_False by done.
  unfold scan_body. cbn [line at_ inside_string args pos current_token].
  rewrite decide_False by (intros [_ ?]; done).
  rewrite decide_True by done.
  rewrite store_middle by done. cbn [mbind option_bind].
  unfold put. rewrite decide_True by (rewrite length_app; simpl; lia).
  cbn [lift mbind option_bind res_bind line at_ inside_string args pos
         current_token].
  replace (length pre) with (length pre + 0)%nat at 1 by lia.
  rewrite insert_app_r. done.
Qed.

(** A dollar with a name behind it: everything up to the terminator of the
    command is the name, whatever [getenv] returns for it is stored, and
    the loop goes on behind the terminator. *)
Lemma scan_dollar (fuel : nat) (front tail : list ascii) (n0 : ascii)
    (name : list ascii) (pre : list (option pointer)) (r : nat)
    (tok : option nat) :
  n0 <> SPACE -> nonzero (n0 :: name) ->
  scan env (S fuel)
       (ScanState (front ++ DOLLAR :: (n0 :: name) ++ NUL :: tail)
                  (length front) (pre ++ replicate (S r) None) (length pre)
                  false tok)
  = scan env fuel
         (ScanState (front ++ DOLLAR :: (n0 :: name) ++ NUL :: tail)
                    (S (S (length front) + length (n0 :: name)))
                    (pre ++ getenv env (String.string_of_list_ascii (n0 :: name))
                         :: replicate r None)
                    (S (length pre)) false
                    (Some (S (S (length front) + length (n0 :: name))))).
Proof.
  intros Hsp Hnz. inversion Hnz as [|? ? Hn0 _]; subst.
  rewrite scan_S. cbn [line at_].
  rewrite load_middle by done. cbn [lift mbind res_bind].
  rewrite decide_False by done.
  unfold scan_body. cbn [line at_ inside_string args pos current_token].
  rewrite decide_False by (intros [? _]; done).
  rewrite decide_False by done. rewrite decide_True by done.
  replace (front ++ DOLLAR :: (n0 :: name) ++ NUL :: tail)
    with ((front ++ [DOLLAR]) ++ (n0 :: name) ++ NUL :: tail)
    by (by rewrite <- app_assoc).
  rewrite (load_middle (front ++ [DOLLAR]) (name ++ NUL :: tail) n0)
    by (rewrite length_app; simpl; lia).
  cbn [mbind option_bind]. rewrite decide_True by done.
  rewrite cstring_middle by (done || rewrite length_app; simpl; lia).
  cbn [mbind option_bind].
  unfold put. rewrite decide_True by (rewrite length_app; simpl; lia).
  cbn [mbind option_bind].
  unfold strlen.
  rewrite (drop_app_length' (front ++ [DOLLAR]))
    by (rewrite length_app; simpl; lia).
  rewrite strlen_from_app by done.
  cbn [lift mbind option_bind res_bind line at_ inside_string args pos
         current_token].
  replace (length pre) with (length pre + 0)%nat at 1 by lia.
  rewrite insert_app_r. done.
Qed.

End Scanning.

(** ** Reading the arrays *)

Lemma text_entries (m : list ascii) (entries : list (option pointer))
    (ws : list (list ascii)) :
  Forall2 (fun e x =>
             exists off,
               e = Some (InLine off) /\
               cstring m off = Some (String.string_of_list_ascii x))
          entries ws ->
  Forall2 (fun e t => text m e = Some t) entries (Some <$> word_strings ws).
Proof.
  induction 1 as [|e x entries ws (off & -> & Hoff) _ IH]; simpl;
    constructor; [|done].
  simpl. by rewrite Hoff.
Qed.

Lemma text_nulls (m : list ascii) (r : nat) :
  Forall2 (fun e t => text m e = Some t) (replicate r None) (replicate r None).
Proof. induction r as [|r IH]; simpl; by constructor. Qed.

Lemma read_args_entries (m : list ascii) (entries : list (option pointer))
    (ws : list (list ascii)) (r : nat) :
  Forall2 (fun e x =>
             exists off,
               e = Some (InLine off) /\
               cstring m off = Some (String.string_of_list_ascii x))
          entries ws ->
  read_args m (entries ++ replicate r None)
  = Some ((Some <$> word_strings ws) ++ replicate r None).
Proof.
  intros Hall. unfold read_args. apply mapM_Some_2. apply Forall2_app.
  - by apply text_entries.
  - apply text_nulls.
Qed.

Lemma argv_entries (l : list string) (r : nat) :
  argv ((Some <$> l) ++ replicate r None) = l.
Proof.
  induction l as [|x l IH]; [by destruct r|].
  cbn [fmap list_fmap app argv]. f_equal. exact IH.
Qed.

(** The two calls of the tokenizer on a line of words. *)
Lemma split_words (env : string -> option string) (w : list ascii)
    (more : list (nat * list ascii)) (rest : list ascii) :
  word w -> Forall (fun kw => word kw.2) more ->
  (length more < MAX_ARGS)%nat ->
  let m := (w ++ spaced SPACE more) ++ NUL :: rest in
  lush_split_pipes m 0 = Some (m, [0%nat]) /\
  exists a,
    lush_split_args env m [0%nat]
      = Ok (w ++ spaced NUL more ++ NUL :: rest, [a], 1%Z) /\
    read_args (w ++ spaced NUL more ++ NUL :: rest) a
      = Some ((Some <$> word_strings (w :: more.*2)) ++
              replicate (MAX_ARGS - S (length more)) None).
Proof.
  intros Hw Hmore Hroom m. split.
  - apply lush_split_pipes_single.
    + destruct Hw as [Hne _]. by destruct w.
    + apply words_Forall; try done. by intros c [? _].
    + apply words_Forall; try done. by intros c (_ & _ & _ & ? & _).
    + destruct Hw as [Hne Hw]. destruct w as [|x w]; [done|].
      inversion Hw; subst. intros ? [= <-]. by apply letter_not_blank.
    + intros z Hz. destruct (words_last SPACE more w Hw Hmore) as (z' & Hz' & Hl).
      rewrite Hz in Hz'. injection Hz' as <-. by apply letter_not_blank.
  - destruct (scan_words env more w [] rest (S (length rest)) []
                (MAX_ARGS - S (length more)) Hw Hmore)
      as (s & entries & Hscan & Hline & Hin & Hpend & Hput & Hall).
    cbn [app length] in Hscan, Hline, Hput. specialize (Hall rest).
    cbn [app] in Hall.
    exists (entries ++ replicate (MAX_ARGS - S (length more)) None).
    split; [|apply read_args_entries; apply Hall].
    unfold lush_split_args. rewrite split_stages_cons.
    replace (S (length m))
      with (length (w ++ spaced SPACE more) + S (S (length rest)))%nat
      by (unfold m; rewrite !length_app; cbn [length]; lia).
    replace (calloc MAX_ARGS)
      with (replicate (A:=option pointer)
              (S (length more + (MAX_ARGS - S (length more)))) None)
      by (unfold calloc; f_equal; lia).
    unfold m. rewrite <- app_assoc. rewrite Hscan.
    cbn [mbind res_bind]. rewrite Hin, Hpend. cbn [lift mbind res_bind].
    rewrite Hput. cbn [lift mbind res_bind]. rewrite Hline. done.
Qed.

(** X11.  A line made of words with one or more spaces between them, with
    no quote, dollar, pipe or newline in any word, is tokenized into one
    command whose arguments are the words in order, followed by [NULL]
    entries up to the 128 of the array; the status is 1.  In the buffer
    that [lush_split_args] leaves, every space of the line has been
    overwritten by a terminator and every other byte is as it was;
    [lush_split_pipes] has changed nothing. *)
Theorem words_become_the_arguments (env : string -> option string)
    (w : list ascii) (more : list (nat * list ascii)) (rest : list ascii) :
  word w -> Forall (fun kw => word kw.2) more ->
  (length more < MAX_ARGS)%nat ->
  let m := (w ++ spaced SPACE more) ++ NUL :: rest in
  tokenize env m
  = Ok ([(Some <$> word_strings (w :: more.*2)) ++
         replicate (MAX_ARGS - S (length more)) None], 1%Z) /\
  lush_split_pipes m 0 = Some (m, [0%nat]) /\
  exists a,
    lush_split_args env m [0%nat]
    = Ok ((w ++ spaced NUL more) ++ NUL :: rest, [a], 1%Z).
Proof.
  intros Hw Hmore Hroom m.
  destruct (split_words env w more rest Hw Hmore Hroom)
    as (Hpipes & a & Hargs & Hread).
  fold m in Hpipes, Hargs. split; [|split; [done|]].
  - unfold tokenize. rewrite Hpipes. cbn [lift mbind res_bind].
    rewrite Hargs. cbn [mbind res_bind].
    unfold read_pipeline. cbn [mapM]. rewrite Hread. done.
  - exists a. by rewrite <- app_assoc.
Qed.

Lemma words_become_the_arguments_witness :
  tokenize only_home ((ls_word ++ spaced SPACE ls_more) ++ NUL :: [NUL])
  = Ok ([(Some <$> word_strings (ls_word :: ls_more.*2)) ++
         replicate (MAX_ARGS - S (length ls_more)) None], 1%Z) /\
  exists a,
    lush_split_args only_home
      ((ls_word ++ spaced SPACE ls_more) ++ NUL :: [NUL]) [0%nat]
    = Ok ((ls_word ++ spaced NUL ls_more) ++ NUL :: [NUL], [a], 1%Z).
Proof.
  destruct (words_become_the_arguments only_home ls_word ls_more [NUL])
    as (Htok & _ & Hbuf).
  - apply (bool_decide_unpack _). by vm_compute.
  - apply (bool_decide_unpack _). by vm_compute.
  - apply (bool_decide_unpack _). by vm_compute.
  - split; [exact Htok|exact Hbuf].
Defined.

(** ** From the line to the child *)

Lemma lush_run_from_external (sys : system) (name : string) (args : stage)
    (rest : list (option stage)) (n : Z) (o : os) :
  find_builtin name = None ->
  lush_run_from sys (Some name :: args) rest n o
  = lush_execute_pipeline sys (Some (Some name :: args) :: rest) n o.
Proof. intros Hf. cbn [lush_run_from]. by rewrite Hf. Qed.

Lemma single_command (sys : system) (name : string) (args : stage)
    (rest : list (option stage)) (o : os) :
  name <> "" ->
  lush_execute_pipeline sys (Some (Some name :: args) :: rest) 1 o
  = and_then
      (lush_execute_command sys (Some (Some name :: args))
                            STDIN_FILENO STDOUT_FILENO o)
      (fun _ o => Ok (Goes_on 1%Z o)).
Proof.
  intros Hname. unfold lush_execute_pipeline.
  cbn [lookup list_lookup lift mbind res_bind].
  rewrite decide_False by done. done.
Qed.

(** The three ways a single command can go. *)
Lemma lush_execute_command_cases (sys : system) (args : option stage)
    (input_fd output_fd : nat) (o : os) :
  lush_execute_command sys args input_fd output_fd o
  = let started := emit (Spawn (argv <$> args) input_fd output_fd) o in
    if fork_ok sys o
    then if child_ends sys (argv <$> args) input_fd output_fd started
         then Goes_on () started
         else Waits started
    else Exits 1 (emit (Perror "fork") o).
Proof. reflexivity. Qed.

Lemma string_of_word (w : list ascii) :
  w <> [] ->
  exists c s, String.string_of_list_ascii w = String c s.
Proof. destruct w as [|c w]; [done|]. intros _. simpl. by eexists _, _. Qed.

(** The arrays [main] hands to [lush_run] for a line of words. *)
Lemma split_and_run_words (sys : system) (env : string -> option string)
    (w : list ascii) (more : list (nat * list ascii)) (rest : list ascii)
    (o : os) :
  word w -> Forall (fun kw => word kw.2) more ->
  (length more < MAX_ARGS)%nat ->
  split_and_run sys env ((w ++ spaced SPACE more) ++ NUL :: rest) o
  = (r ← lush_run_from sys
           ((Some <$> word_strings (w :: more.*2)) ++
            replicate (MAX_ARGS - S (length more)) None)
           (replicate (MAX_ARGS - 1) None) 1 o;
     and_then r (fun rc o =>
       if decide (rc = 0%Z) then Ok (Exits 1 o)
       else Ok (Goes_on (w ++ spaced NUL more ++ NUL :: rest, 1%Z) o))).
Proof.
  intros Hw Hmore Hroom.
  destruct (split_words env w more rest Hw Hmore Hroom)
    as (Hpipes & a & Hargs & Hread).
  unfold split_and_run. rewrite Hpipes. cbn [lift mbind res_bind].
  rewrite Hargs. cbn [mbind res_bind].
  rewrite decide_False by done.
  unfold read_pipeline. cbn [mapM]. rewrite Hread.
  cbn [mbind option_bind mret option_ret lift res_bind].
  unfold command_args. cbn [fmap list_fmap app length].
  unfold lush_run. done.
Qed.

Lemma main_round_words (sys : system) (env : string -> option string)
    (w : list ascii) (more : list (nat * list ascii)) (rest : list ascii)
    (o : os) :
  word w -> Forall (fun kw => word kw.2) more ->
  (length more < MAX_ARGS)%nat ->
  main_round sys env ((w ++ spaced SPACE more) ++ NUL :: rest) o
  = (r ← lush_run_from sys
           ((Some <$> word_strings (w :: more.*2)) ++
            replicate (MAX_ARGS - S (length more)) None)
           (replicate (MAX_ARGS - 1) None) 1 (emit (Stdout "") o);
     and_then r (fun rc o =>
       if decide (rc = 0%Z) then Ok (Exits 1 o) else Ok (Goes_on () o))).
Proof.
  intros Hw Hmore Hroom. unfold main_round.
  rewrite strlen_inside;
    [|apply words_Forall; try done; by intros c [? _]|lia].
  cbn [lift mbind res_bind].
  rewrite decide_False
    by (destruct Hw as [Hne _]; destruct w; [done|simpl; lia]).
  rewrite split_and_run_words by done.
  destruct (lush_run_from sys _ _ 1 (emit (Stdout "") o))
    as [[rc o'|code o'|o']| |]; cbn [mbind res_bind and_then]; try done.
  by destruct (decide (rc = 0%Z)).
Qed.

(** X12.  A line of words whose first word is not the name of a builtin:
    a round of [main] prints the newline and forks, without opening a pipe
    or closing a descriptor.  When [fork] fails the shell reports it and
    exits with status 1, and no child has been started.  When [fork]
    succeeds one child is started on standard input and standard output
    with exactly the words as its argument vector; the round goes on when
    that child comes to an end, and the shell stays in [waitpid] when it
    does not.  In each case the working directory and the open descriptors
    are as they were. *)
Theorem external_command_runs_with_its_words
    (sys : system) (env : string -> option string)
    (w : list ascii) (more : list (nat * list ascii)) (rest : list ascii)
    (o : os) :
  word w -> Forall (fun kw => word kw.2) more ->
  (S (length more) < MAX_ARGS)%nat ->
  find_builtin (String.string_of_list_ascii w) = None ->
  let prompted := emit (Stdout "") o in
  let args := Some (word_strings (w :: more.*2)) in
  let started := emit (Spawn args STDIN_FILENO STDOUT_FILENO) prompted in
  main_round sys env ((w ++ spaced SPACE more) ++ NUL :: rest) o
  = Ok (if fork_ok sys prompted
        then if child_ends sys args STDIN_FILENO STDOUT_FILENO started
             then Goes_on () started
             else Waits started
        else Exits 1 (emit (Perror "fork") prompted)).
Proof.
  intros Hw Hmore Hroom Hext prompted args started.
  rewrite main_round_words by (done || lia).
  destruct (string_of_word w (proj1 Hw)) as (c & s & Hname).
  cbn [word_strings fmap list_fmap app].
  rewrite lush_run_from_external by done.
  rewrite single_command by (by rewrite Hname).
  rewrite lush_execute_command_cases. cbn [fmap option_fmap option_map].
  change (Some (String.string_of_list_ascii w) ::
            (Some <$> (String.string_of_list_ascii <$> more.*2)) ++
            replicate (MAX_ARGS - S (length more)) None)
    with ((Some <$> word_strings (w :: more.*2)) ++
            replicate (MAX_ARGS - S (length more)) None).
  rewrite argv_entries. fold prompted. fold args. cbn zeta. fold started.
  destruct (fork_ok sys prompted); [|done].
  by destruct (child_ends sys args STDIN_FILENO STDOUT_FILENO started).
Qed.

Lemma external_command_runs_with_its_words_witness :
  main_round small_system only_home
    ((ls_word ++ spaced SPACE ls_more) ++ NUL :: [NUL]) at_prompt
  = Ok (Goes_on ()
          (emit (Spawn (Some (word_strings (ls_word :: ls_more.*2)))
                       STDIN_FILENO STDOUT_FILENO)
                (emit (Stdout "") at_prompt))).
Proof.
  apply external_command_runs_with_its_words.
  - apply (bool_decide_unpack _). by vm_compute.
  - apply (bool_decide_unpack _). by vm_compute.
  - apply (bool_decide_unpack _). by vm_compute.
  - reflexivity.
Defined.

(** X13.  A line whose first word is [exit] ends the shell, whatever
    follows the word: [lush_exit] returns 0, which [main] answers with
    [exit(1)], so the exit status is 1; nothing but the newline has been
    printed. *)
Theorem exit_ends_the_shell_with_status_1
    (sys : system) (env : string -> option string)
    (more : list (nat * list ascii)) (rest : list ascii) (o : os) :
  Forall (fun kw => word kw.2) more ->
  (length more < MAX_ARGS)%nat ->
  main_round sys env ((bytes "exit" ++ spaced SPACE more) ++ NUL :: rest) o
  = Ok (Exits 1 (emit (Stdout "") o)).
Proof.
  intros Hmore Hroom.
  rewrite main_round_words; [done| |done..].
  apply (bool_decide_unpack _). by vm_compute.
Qed.

Lemma exit_ends_the_shell_with_status_1_witness :
  main_round small_system only_home
    ((bytes "exit" ++ spaced SPACE ls_more) ++ NUL :: [NUL]) at_prompt
  = Ok (Exits 1 (emit (Stdout "") at_prompt)).
Proof.
  apply exit_ends_the_shell_with_status_1.
  - apply (bool_decide_unpack _). by vm_compute.
  - apply (bool_decide_unpack _). by vm_compute.
Defined.

(** X14.  On a system where the password entry of the user cannot be
    found, a line whose first word is [cd] ends the shell: [lush_cd]
    reports the failure and returns 0 before it looks at its argument, and
    [main] exits with status 1.  The working directory is not changed. *)
Theorem cd_without_password_entry_ends_the_shell
    (sys : system) (env : string -> option string)
    (more : list (nat * list ascii)) (rest : list ascii) (o : os) :
  pw_dir sys = None ->
  Forall (fun kw => word kw.2) more ->
  (length more < MAX_ARGS)%nat ->
  main_round sys env ((bytes "cd" ++ spaced SPACE more) ++ NUL :: rest) o
  = Ok (Exits 1 (emit (Perror "retrieve home dir") (emit (Stdout "") o))).
Proof.
  intros Hpw Hmore Hroom.
  rewrite main_round_words; [| |done..].
  - cbn [word_strings fmap list_fmap app lush_run_from].
    change (find_builtin (String.string_of_list_ascii (bytes "cd")))
      with (Some 0%nat).
    cbn match. unfold lush_cd. rewrite Hpw. done.
  - apply (bool_decide_unpack _). by vm_compute.
Qed.

Lemma cd_without_password_entry_ends_the_shell_witness :
  main_round nobody_system only_home
    ((bytes "cd" ++ spaced SPACE ls_more) ++ NUL :: [NUL]) at_prompt
  = Ok (Exits 1 (emit (Perror "retrieve home dir")
                      (emit (Stdout "") at_prompt))).
Proof.
  apply cd_without_password_entry_ends_the_shell.
  - reflexivity.
  - apply (bool_decide_unpack _). by vm_compute.
  - apply (bool_decide_unpack _). by vm_compute.
Defined.

(** ** The bridge on a line of words *)

Lemma first_word_is_left (w : list ascii) (more : list (nat * list ascii))
    (rest : list ascii) :
  word w ->
  cstring (w ++ spaced NUL more ++ NUL :: rest) 0
  = Some (String.string_of_list_ascii w).
Proof.
  intros [_ Hw].
  assert (nonzero w) as Hnz.
  { eapply Forall_impl; [exact Hw|]. by intros c [? _]. }
  destruct more as [|[k w'] more].
  - by apply (cstring_middle [] w rest).
  - cbn [spaced]. change (replicate (S k) NUL) with (NUL :: replicate k NUL).
    rewrite <- !app_assoc. by apply (cstring_middle [] w).
Qed.

(** X15.  [lush.exec] on a command line of words that names a program.
    When [fork] fails the process reports it and exits with status 1:
    nothing is started and the history is not written.  When [fork]
    succeeds the program is started with the words as its arguments; while
    it does not come to an end the call does not come back, and when it
    has ended the call answers [true].  The tokenizer has cut the caller's
    string at its first space by then, so the history is given the first
    word alone, and so is the message of the debug mode. *)
Theorem exec_records_only_the_first_word
    (sys : system) (env : string -> option string) (debug_mode : bool)
    (w : list ascii) (more : list (nat * list ascii)) (o : os) :
  word w -> Forall (fun kw => word kw.2) more ->
  (S (length more) < MAX_ARGS)%nat ->
  find_builtin (String.string_of_list_ascii w) = None ->
  let name := String.string_of_list_ascii w in
  let args := Some (word_strings (w :: more.*2)) in
  let started := emit (Spawn args STDIN_FILENO STDOUT_FILENO) o in
  let recorded := emit (PushHistory name) started in
  l_execute_command sys env debug_mode
    (String.string_of_list_ascii (w ++ spaced SPACE more)) o
  = Ok (if fork_ok sys o
        then if child_ends sys args STDIN_FILENO STDOUT_FILENO started
             then Goes_on true
                    (if debug_mode
                     then emit (Stdout ("Executed: " +:+ name +:+
                                        ", success")) recorded
                     else recorded)
             else Waits started
        else Exits 1 (emit (Perror "fork") o)).
Proof.
  intros Hw Hmore Hroom Hext name args started recorded.
  unfold l_execute_command, execute_command, lua_string.
  rewrite String.list_ascii_of_string_of_list_ascii.
  rewrite split_and_run_words by (done || lia).
  destruct (string_of_word w (proj1 Hw)) as (c & s & Hname).
  cbn [word_strings fmap list_fmap app].
  rewrite lush_run_from_external by done.
  rewrite single_command by (by rewrite Hname).
  rewrite lush_execute_command_cases. cbn [fmap option_fmap option_map].
  change (Some (String.string_of_list_ascii w) ::
            (Some <$> (String.string_of_list_ascii <$> more.*2)) ++
            replicate (MAX_ARGS - S (length more)) None)
    with ((Some <$> word_strings (w :: more.*2)) ++
            replicate (MAX_ARGS - S (length more)) None).
  rewrite argv_entries. fold args. cbn zeta. fold started.
  destruct (fork_ok sys o); [|done].
  destruct (child_ends sys args STDIN_FILENO STDOUT_FILENO started); [|done].
  cbn [and_then mbind res_bind]. rewrite decide_False by done.
  cbn [and_then mbind res_bind].
  rewrite first_word_is_left by done. cbn [lift mbind res_bind and_then].
  rewrite first_word_is_left by done. cbn [lift mbind res_bind].
  by destruct debug_mode.
Qed.

Lemma exec_records_only_the_first_word_witness :
  l_execute_command small_system only_home true
    (String.string_of_list_ascii (ls_word ++ spaced SPACE ls_more)) at_prompt
  = Ok (Goes_on true
          (emit (Stdout "Executed: ls, success")
             (emit (PushHistory "ls")
                (emit (Spawn (Some ["ls"; "-l"; "/tmp"])
                             STDIN_FILENO STDOUT_FILENO) at_prompt)))).
Proof.
  apply (exec_records_only_the_first_word small_system only_home true
           ls_word ls_more at_prompt).
  - apply (bool_decide_unpack _). by vm_compute.
  - apply (bool_decide_unpack _). by vm_compute.
  - apply (bool_decide_unpack _). by vm_compute.
  - reflexivity.
Defined.

(** ** Quoted arguments and variables *)

Lemma split_pipes_words_then (w : list ascii) (more : list (nat * list ascii))
    (k : nat) (last_part rest : list ascii) :
  word w -> Forall (fun kw => word kw.2) more ->
  last_part <> [] -> nonzero last_part -> no_pipes last_part ->
  (forall z, last last_part = Some z -> is_blank z = false) ->
  let m := (w ++ spaced SPACE more ++ replicate (S k) SPACE ++ last_part) ++
           NUL :: rest in
  lush_split_pipes m 0 = Some (m, [0%nat]).
Proof.
  intros Hw Hmore Hne Hnz Hnp Hlast m. apply lush_split_pipes_single.
  - destruct Hw as [Hw _]. by destruct w.
  - rewrite (app_assoc w). apply Forall_app. split.
    + apply words_Forall; try done. by intros c [? _].
    + apply Forall_app. split; [by apply Forall_replicate|done].
  - rewrite (app_assoc w). apply Forall_app. split.
    + apply words_Forall; try done. by intros c (_ & _ & _ & ? & _).
    + apply Forall_app. split; [by apply Forall_replicate|done].
  - destruct Hw as [Hne' Hw]. destruct w as [|x w]; [done|].
    inversion Hw; subst. intros ? [= <-]. by apply letter_not_blank.
  - intros z. rewrite !last_app.
    destruct (last last_part) as [z'|] eqn:Hz.
    + intros [= <-]. by apply Hlast.
    + by apply last_None in Hz.
Qed.

(** X16.  A line of words, then one or more spaces, then a double-quoted
    argument whose closing quote is the last byte of the line: when the
    text between the quotes is not empty and holds no quote, no terminator
    and no pipe, it is taken as it stands, spaces and dollars included,
    and becomes one argument behind the words; the status is 1.  (A pipe
    between the quotes is a cut for [lush_split_pipes], which knows no
    quotes, so it is left out here.) *)
Theorem quoted_argument_is_taken_verbatim (env : string -> option string)
    (w : list ascii) (more : list (nat * list ascii)) (k : nat)
    (b : ascii) (body rest : list ascii) :
  word w -> Forall (fun kw => word kw.2) more ->
  quoted (b :: body) -> no_pipes (b :: body) ->
  (S (length more) < MAX_ARGS)%nat ->
  tokenize env
    ((w ++ spaced SPACE more ++ replicate (S k) SPACE ++
        DQUOTE :: b :: body ++ [DQUOTE]) ++ NUL :: rest)
  = Ok ([(Some <$> word_strings (w :: more.*2 ++ [b :: body])) ++
         replicate (MAX_ARGS - S (S (length more))) None], 1%Z).
Proof.
  intros Hw Hmore Hq Hnp Hroom.
  inversion Hq as [|? ? [Hbn Hbq] Hq']; subst.
  set (r := (MAX_ARGS - S (S (length more)))%nat).
  set (m := (w ++ spaced SPACE more ++ replicate (S k) SPACE ++
               DQUOTE :: b :: body ++ [DQUOTE]) ++ NUL :: rest).
  assert (lush_split_pipes m 0 = Some (m, [0%nat])) as Hpipes.
  { apply split_pipes_words_then; try done.
    - constructor; [done|]. constructor; [done|].
      apply Forall_app. split; [|by repeat constructor].
      eapply Forall_impl; [exact Hq'|]. by intros c [? _].
    - constructor; [done|].
      change (b :: body ++ [DQUOTE]) with ((b :: body) ++ [DQUOTE]).
      apply Forall_app. split; [done|by repeat constructor].
    - intros z. change (DQUOTE :: b :: body ++ [DQUOTE])
        with ((DQUOTE :: b :: body) ++ [DQUOTE]).
      rewrite last_snoc. by intros [= <-]. }
  destruct (scan_words_gap env more w [] k
              (DQUOTE :: b :: body ++ DQUOTE :: NUL :: rest)
              (S (length body + S (S (S (S (length rest)))))) [] (S r)
              Hw Hmore)
    as (entries & cleared & Hscan & Hcl & Hall).
  cbn [app length] in Hscan, Hcl.
  pose proof (Forall2_length _ _ _ (Hall [])) as Hlen.
  cbn [length] in Hlen. rewrite length_fmap in Hlen.
  unfold tokenize. rewrite Hpipes. cbn [lift mbind res_bind].
  unfold lush_split_args. rewrite split_stages_cons.
  replace (S (length m))
    with (length (w ++ spaced SPACE more) + S k +
          S (length body + S (S (S (S (length rest))))))%nat
    by (unfold m; rewrite !length_app, length_replicate; cbn [length];
        rewrite !length_app; cbn [length]; lia).
  replace (calloc MAX_ARGS)
    with (replicate (A:=option pointer) (S (length more) + S r) None)
    by (unfold calloc, r; f_equal; lia).
  replace m
    with (w ++ spaced SPACE more ++ replicate (S k) SPACE ++
            DQUOTE :: b :: body ++ DQUOTE :: NUL :: rest)
    by (unfold m; rewrite <- !app_assoc; cbn [app];
        by rewrite <- !app_assoc).
  rewrite Hscan.
  rewrite scan_open_quote by done.
  replace (cleared ++ NUL :: b :: body ++ DQUOTE :: NUL :: rest)
    with ((cleared ++ [NUL; b]) ++ body ++ DQUOTE :: NUL :: rest)
    by (by rewrite <- app_assoc).
  replace (S (S (length cleared))) with (length (cleared ++ [NUL; b]))
    by (rewrite length_app; simpl; lia).
  rewrite scan_quoted by done.
  replace ((cleared ++ [NUL; b]) ++ body ++ DQUOTE :: NUL :: rest)
    with (((cleared ++ [NUL; b]) ++ body) ++ DQUOTE :: NUL :: rest)
    by (by rewrite <- !app_assoc).
  replace (length (cleared ++ [NUL; b]) + length body)%nat
    with (length ((cleared ++ [NUL; b]) ++ body))
    by (by rewrite (length_app _ body)).
  replace (S (length more)) with (length entries) by done.
  rewrite scan_close_quote.
  rewrite scan_S. cbn [line at_].
  replace (((cleared ++ [NUL; b]) ++ body) ++ NUL :: NUL :: rest)
    with ((((cleared ++ [NUL; b]) ++ body) ++ [NUL]) ++ NUL :: rest)
    by (by rewrite <- !app_assoc).
  rewrite load_middle by (rewrite (length_app _ [NUL]); simpl; lia).
  cbn [lift mbind res_bind]. rewrite decide_True by done.
  cbn [mbind res_bind inside_string line current_token token_pending lift
         args pos].
  cbn [split_stages bool_decide]. cbn [app length].
  rewrite bool_decide_eq_true_2 by (unfold MAX_COMMANDS; simpl; lia).
  cbn [mbind res_bind]. unfold read_pipeline. cbn [mapM].
  replace (entries ++ (InLine <$> Some (S (length cleared))) ::
             replicate r None)
    with ((entries ++ [Some (InLine (S (length cleared)))]) ++
             replicate r None)
    by (by rewrite <- app_assoc).
  rewrite (read_args_entries _ _ (w :: more.*2 ++ [b :: body])).
  { done. }
  change (w :: more.*2 ++ [b :: body]) with ((w :: more.*2) ++ [b :: body]).
  apply Forall2_app.
  - rewrite <- !app_assoc. apply Hall.
  - constructor; [|constructor]. eexists. split; [done|].
    replace ((((cleared ++ [NUL; b]) ++ body) ++ [NUL]) ++ NUL :: rest)
      with ((cleared ++ [NUL]) ++ (b :: body) ++ NUL :: NUL :: rest)
      by (by rewrite <- !app_assoc).
    apply cstring_middle; [rewrite length_app; simpl; lia|].
    constructor; [done|]. eapply Forall_impl; [exact Hq'|]. by intros c [? _].
Qed.

Lemma quoted_argument_is_taken_verbatim_witness :
  tokenize only_home
    ((echo_word ++ SPACE :: DQUOTE :: "a"%char :: bytes " $b" ++ [DQUOTE]) ++
       NUL :: [NUL])
  = Ok ([Some "echo" :: Some "a $b" :: replicate (MAX_ARGS - 2) None], 1%Z).
Proof.
  apply (quoted_argument_is_taken_verbatim only_home echo_word [] 0
           "a"%char (bytes " $b") [NUL]).
  - apply (bool_decide_unpack _). by vm_compute.
  - apply (bool_decide_unpack _). by vm_compute.
  - apply (bool_decide_unpack _). by vm_compute.
  - apply (bool_decide_unpack _). by vm_compute.
  - apply (bool_decide_unpack _). by vm_compute.
Defined.

(** X17.  A line of words, then one or more spaces, then a dollar followed
    by a byte that is neither a space nor the terminator, in a command
    that is the only one of its line: when the text from that byte to the
    end of the line holds no pipe and does not end in a space or a
    newline, all of it is handed to [getenv] as the name, spaces and
    further words included.  What [getenv] returns is stored as the next
    argument, also when it is [NULL], and an empty string is stored behind
    it, because the loop goes on behind the terminator of the line.  The
    byte there has to be a terminator too, as it is in the zero-filled
    buffer of the prompt.  (A pipe behind the dollar is left out: the
    byte behind the terminator is then the first of the next command.) *)
Theorem dollar_takes_the_rest_of_the_command (env : string -> option string)
    (w : list ascii) (more : list (nat * list ascii)) (k : nat)
    (n0 : ascii) (name rest : list ascii) :
  word w -> Forall (fun kw => word kw.2) more ->
  n0 <> SPACE -> nonzero (n0 :: name) -> no_pipes (n0 :: name) ->
  (forall z, last (n0 :: name) = Some z -> is_blank z = false) ->
  (length more + 3 <= MAX_ARGS)%nat ->
  tokenize env
    ((w ++ spaced SPACE more ++ replicate (S k) SPACE ++
        DOLLAR :: n0 :: name) ++ NUL :: NUL :: rest)
  = Ok ([(Some <$> word_strings (w :: more.*2)) ++
         env (String.string_of_list_ascii (n0 :: name)) :: Some "" ::
         replicate (MAX_ARGS - (length more + 3)) None], 1%Z).
Proof.
  intros Hw Hmore Hsp Hnz Hnp Hlast Hroom.
  set (r := (MAX_ARGS - (length more + 3))%nat).
  set (m := (w ++ spaced SPACE more ++ replicate (S k) SPACE ++
               DOLLAR :: n0 :: name) ++ NUL :: NUL :: rest).
  assert (lush_split_pipes m 0 = Some (m, [0%nat])) as Hpipes.
  { apply split_pipes_words_then; try done.
    - by constructor.
    - by constructor. }
  destruct (scan_words_gap env more w [] k
              (DOLLAR :: (n0 :: name) ++ NUL :: NUL :: rest)
              (S (S (length (n0 :: name) + S (S (length rest)))))
              [] (S (S r)) Hw Hmore)
    as (entries & cleared & Hscan & Hcl & Hall).
  rewrite !app_nil_l in Hscan. rewrite app_nil_l in Hcl.
  change (length (@nil ascii)) with 0%nat in Hscan.
  change (length (@nil (option pointer))) with 0%nat in Hscan.
  pose proof (Forall2_length _ _ _ (Hall [])) as Hlen.
  cbn [length] in Hlen. rewrite length_fmap in Hlen.
  unfold tokenize. rewrite Hpipes. cbn [lift mbind res_bind].
  unfold lush_split_args. rewrite split_stages_cons.
  replace (S (length m))
    with (length (w ++ spaced SPACE more) + S k +
          S (S (length (n0 :: name) + S (S (length rest)))))%nat
    by (unfold m; rewrite !length_app, length_replicate; cbn [length]; lia).
  replace (calloc MAX_ARGS)
    with (replicate (A:=option pointer) (S (length more) + S (S r)) None)
    by (unfold calloc, r; f_equal; lia).
  replace m
    with (w ++ spaced SPACE more ++ replicate (S k) SPACE ++
            DOLLAR :: (n0 :: name) ++ NUL :: NUL :: rest)
    by (unfold m; rewrite <- !app_assoc; cbn [app];
        by rewrite <- ?app_assoc).
  rewrite Hscan.
  replace (0 + S (length more))%nat with (length entries) by done.
  rewrite scan_dollar by done.
  rewrite scan_S. cbn [line at_].
  replace (cleared ++ DOLLAR :: (n0 :: name) ++ NUL :: NUL :: rest)
    with ((cleared ++ DOLLAR :: (n0 :: name) ++ [NUL]) ++ NUL :: rest)
    by (rewrite <- !app_assoc; cbn [app]; by rewrite <- !app_assoc).
  rewrite load_middle
    by (rewrite !length_app; cbn [length]; rewrite length_app; simpl; lia).
  cbn [lift mbind res_bind]. rewrite decide_True by done.
  cbn [mbind res_bind inside_string line current_token token_pending lift
         args pos].
  rewrite load_middle
    by (rewrite !length_app; cbn [length]; rewrite length_app; simpl; lia).
  cbn [mbind option_bind lift res_bind].
  rewrite (bool_decide_eq_true_2 (NUL <> SPACE)) by done.
  replace (entries ++
             getenv env (String.string_of_list_ascii (n0 :: name)) ::
             replicate (S r) None)
    with ((entries ++
             [getenv env (String.string_of_list_ascii (n0 :: name))]) ++
             replicate (S r) None)
    by (by rewrite <- app_assoc).
  replace (S (length entries))
    with (length (entries ++
                    [getenv env (String.string_of_list_ascii (n0 :: name))]))
    by (rewrite length_app; simpl; lia).
  unfold put. rewrite decide_True by (rewrite !length_app; simpl; lia).
  replace (length (entries ++
                     [getenv env (String.string_of_list_ascii (n0 :: name))]))
    with (length (entries ++
                    [getenv env (String.string_of_list_ascii (n0 :: name))])
          + 0)%nat at 1 by lia.
  rewrite insert_app_r.
  replace (<[0%nat:=InLine <$>
                      Some (S (S (length cleared) + length (n0 :: name)))]>
             (replicate (S r) None))
    with (Some (InLine (S (S (length cleared) + length (n0 :: name)))) ::
          replicate r None) by done.
  cbn [lift mbind res_bind split_stages].
  rewrite bool_decide_eq_true_2 by (unfold MAX_COMMANDS; simpl; lia).
  cbn [mbind res_bind]. unfold read_pipeline. rewrite app_nil_l.
  cbn [mapM]. unfold read_args.
  rewrite (mapM_Some_2 _ _
             ((Some <$> word_strings (w :: more.*2)) ++
              env (String.string_of_list_ascii (n0 :: name)) :: Some "" ::
              replicate r None)).
  { done. }
  rewrite <- (app_assoc entries). apply Forall2_app.
  - apply text_entries. rewrite <- (app_assoc cleared). apply Hall.
  - constructor.
    { unfold getenv.
      by destruct (env (String.string_of_list_ascii (n0 :: name))). }
    constructor; [|apply text_nulls].
    cbn [text]. unfold cstring.
    rewrite drop_app_length'
      by (rewrite !length_app; cbn [length]; rewrite length_app; simpl; lia).
    done.
Qed.

Lemma dollar_takes_the_rest_of_the_command_witness :
  tokenize only_home
    ((echo_word ++ SPACE :: DOLLAR :: bytes "HOME x") ++ NUL :: NUL :: [])
  = Ok ([Some "echo" :: None :: Some "" :: replicate (MAX_ARGS - 3) None],
        1%Z).
Proof.
  apply (dollar_takes_the_rest_of_the_command only_home echo_word [] 0
           "H"%char (bytes "OME x") []).
  - apply (bool_decide_unpack _). by vm_compute.
  - apply (bool_decide_unpack _). by vm_compute.
  - apply (bool_decide_unpack _). by vm_compute.
  - apply (bool_decide_unpack _). by vm_compute.
  - apply (bool_decide_unpack _). by vm_compute.
  - intros z Hz. vm_compute in Hz. injection Hz as <-. reflexivity.
  - apply (bool_decide_unpack _). by vm_compute.
Defined.

End WordFacts.

(** * The bridge and the builtins *)

Module BridgeFacts.
Import Mem Tokenizer Shell Samples ShellFacts Extra.

Lemma chdir_fds (sys : system) (path : string) (o : os) :
  fds (chdir sys path o) = fds o.
Proof. unfold chdir. by destruct (chdir_ok sys path). Qed.

Lemma chdir_cwd (sys : system) (path : string) (o : os) :
  cwd (chdir sys path o) = (if chdir_ok sys path then path else cwd o).
Proof. unfold chdir. by destruct (chdir_ok sys path). Qed.

(** X18.  [lush.cd] and the builtin [cd] agree: when the wrapper answers
    [true] the builtin, given the same argument, returns 1 in the very
    same state, and the working directory of that state is the path that
    [realpath] returned for the expanded argument, to which [chdir]
    succeeds; when the wrapper answers [false] neither of them has changed
    the working directory.  Neither touches the descriptors, and arguments
    behind the first are not looked at. *)
Theorem bridge_cd_agrees_with_builtin (sys : system) (newdir : string)
    (others : stage) (o o' : os) (answer : bool) :
  l_cd sys newdir o = Ok (answer, o') ->
  exists rc o'',
    lush_cd sys (Some "cd" :: Some newdir :: others) o = Ok (rc, o'') /\
    cwd o'' = cwd o' /\ fds o'' = fds o /\ fds o' = fds o /\
    (answer = true ->
       o'' = o' /\ rc = 1%Z /\ chdir_ok sys (cwd o') = true /\
       exists home path,
         pw_dir sys = Some home /\
         expand_tilde home newdir = Some path /\
         realpath sys (cwd o) path = Some (cwd o')) /\
    (answer = false -> cwd o' = cwd o).
Proof.
  unfold l_cd, get_expanded_path, lush_cd. intros Hcd.
  destruct (pw_dir sys) as [home|] eqn:Hhome.
  - cbn [lookup list_lookup lift mbind res_bind].
    destruct (expand_tilde home newdir) as [path|] eqn:Hexp;
      cbn [lift mbind res_bind] in Hcd |- *; [|done].
    destruct (realpath sys (cwd o) path) as [p|] eqn:Hreal.
    + destruct (chdir_ok sys p) eqn:Hok; [|done].
      injection Hcd as <- <-. eexists _, _. split; [done|].
      rewrite chdir_fds, chdir_cwd, Hok.
      split; [done|]. split; [done|]. split; [done|].
      split; [|done]. intros _. split; [done|]. split; [done|].
      split; [done|]. by exists home, path.
    + injection Hcd as <- <-. eexists _, _. split; [done|]. by repeat split.
  - cbn [lift mbind res_bind] in Hcd. injection Hcd as <- <-.
    eexists _, _. split; [done|]. by repeat split.
Qed.

Lemma bridge_cd_agrees_with_builtin_witness :
  exists o',
    l_cd small_system "/tmp" at_prompt = Ok (true, o') /\
    lush_cd small_system [Some "cd"; Some "/tmp"; None] at_prompt
      = Ok (1%Z, o') /\
    cwd o' = "/tmp".
Proof.
  destruct (l_cd small_system "/tmp" at_prompt) as [[b o']| |] eqn:Hcd.
  - assert (b = true /\ cwd o' = "/tmp") as [-> Hcwd]
      by (vm_compute in Hcd; injection Hcd as <- <-; by split).
    exists o'. split; [reflexivity|].
    destruct (bridge_cd_agrees_with_builtin small_system "/tmp" [None]
                at_prompt o' true Hcd)
      as (rc & o'' & Hrun & _ & _ & _ & Htrue & _).
    destruct (Htrue eq_refl) as (-> & -> & _ & _).
    split; [exact Hrun|exact Hcwd].
  - vm_compute in Hcd. discriminate Hcd.
  - vm_compute in Hcd. discriminate Hcd.
Defined.

(** X19.  The five wrappers that ask about a path never change the working
    directory or the descriptors, and they never answer [true] for a path
    that [lush.exists] does not answer [true] for: [isFile],
    [isDirectory], [isReadable] and [isWriteable] each imply [exists], in
    the same state. *)
Theorem path_queries_imply_exists (sys : system) (check_item : string)
    (o o' : os) (answer : bool) :
  l_is_file sys check_item o = Ok (answer, o') \/
  l_is_dir sys check_item o = Ok (answer, o') \/
  l_is_readable sys check_item o = Ok (answer, o') \/
  l_is_writeable sys check_item o = Ok (answer, o') ->
  cwd o' = cwd o /\ fds o' = fds o /\
  exists found,
    l_exists sys check_item o = Ok (found, o') /\
    (answer = true -> found = true).
Proof.
  unfold l_is_file, l_is_dir, l_is_readable, l_is_writeable, l_exists, query.
  intros Hq.
  destruct (get_expanded_path sys check_item o) as [[exp_path o1]| |] eqn:Hexp;
    cbn [mbind res_bind] in Hq |- *;
    [|by destruct Hq as [?|[?|[?|?]]]..].
  assert (cwd o1 = cwd o /\ fds o1 = fds o) as [Hc Hf].
  { unfold get_expanded_path in Hexp.
    destruct (pw_dir sys) as [home|]; [|by injection Hexp as <- <-].
    destruct (expand_tilde home check_item) as [path|];
      cbn [lift mbind res_bind] in Hexp; [|done].
    by injection Hexp as <- <-. }
  destruct exp_path as [p|].
  - assert (o' = o1) as ->
      by (destruct Hq as [Hq|[Hq|[Hq|Hq]]]; by injection Hq).
    split; [done|]. split; [done|]. by exists true.
  - assert (o' = o1 /\ answer = false) as [-> ->]
      by (destruct Hq as [Hq|[Hq|[Hq|Hq]]]; by injection Hq).
    split; [done|]. split; [done|]. by exists false.
Qed.

Lemma path_queries_imply_exists_witness :
  exists o',
    l_is_dir small_system "/tmp" at_prompt = Ok (true, o') /\
    l_exists small_system "/tmp" at_prompt = Ok (true, o').
Proof.
  destruct (l_is_dir small_system "/tmp" at_prompt)
    as [[b o']| |] eqn:Hq.
  - assert (b = true) as -> by (vm_compute in Hq; by injection Hq as <- _).
    exists o'. split; [reflexivity|].
    destruct (path_queries_imply_exists small_system "/tmp" at_prompt
                o' true (or_intror (or_introl Hq)))
      as (_ & _ & found & Hex & Htrue).
    rewrite (Htrue eq_refl) in Hex. exact Hex.
  - vm_compute in Hq. discriminate Hq.
  - vm_compute in Hq. discriminate Hq.
Defined.

End BridgeFacts.

(** * The editor follows the keys *)

Module EditorKeys.
Import Mem MemFacts Editor EditorFacts Samples EditorMore Extra.

Lemma press_length (t : cursor_line) (k : key) :
  (length (press t k).1 + length (press t k).2
   <= S (length t.1 + length t.2))%nat.
Proof.
  destruct t as [l r], k; destruct l, r; simpl; lia.
Qed.

Lemma nonzero_reverse (l : list ascii) : nonzero l -> nonzero (reverse l).
Proof. intros Hl. by apply Forall_reverse. Qed.

Lemma holds_intro (b : list ascii) (p : Z) (l r rest : list ascii) :
  b = reverse l ++ r ++ NUL :: rest -> p = Z.of_nat (length l) ->
  (length l + length r + S (length rest))%nat = BUFFER_SIZE ->
  nonzero l -> nonzero r ->
  holds (Editor b p) (l, r).
Proof.
  intros -> -> Hlen Hl Hr. split; [by exists rest|]. split; [done|].
  split; [|done]. cbn [buffer fst snd].
  rewrite !length_app, length_reverse. simpl. lia.
Qed.

Local Ltac close_holds :=
  first [ done
        | by rewrite reverse_cons, <- app_assoc
        | by constructor
        | rewrite ?length_reverse; simpl in *; lia ].

(** A round of the loop on the bytes of a key. *)
Lemma step_press (e : editor) (t : cursor_line) (k : key) (inp : list Z) :
  holds e t -> key_ok k ->
  (length t.1 + length t.2 < BUFFER_SIZE - 1)%nat ->
  exists e',
    step e (key_bytes k ++ inp) = Some (Continue e' inp) /\
    holds e' (press t k).
Proof.
  destruct e as [b p], t as [l r].
  intros ([rest Hb] & Hp & Hlen & Hl & Hr) Hk Hroom.
  cbn [buffer pos fst snd] in *. subst b p.
  pose proof (nonzero_reverse l Hl) as Hl'.
  assert (BUFFER_SIZE = 1024%nat) as HB by reflexivity.
  assert (length (reverse l) = length l) as Hrl by apply length_reverse.
  rewrite !length_app, Hrl in Hlen. cbn [length] in Hlen.
  destruct (keys_reach_operations
              (Editor (reverse l ++ r ++ NUL :: rest) (Z.of_nat (length l))) inp)
    as (Hright & Hleft & Hdel & Hback & Hins).
  destruct k; cbn [key_bytes app].
  - (* right arrow *)
    rewrite Hright. unfold right_arrow. cbn [buffer pos].
    rewrite shape_length by done. cbn [mbind option_bind].
    rewrite to_size_t_small by lia.
    destruct r as [|x r].
    + rewrite decide_False by (rewrite Hrl; simpl; lia).
      cbn [mbind option_bind]. eexists. split; [done|].
      apply (holds_intro _ _ _ _ rest); close_holds.
    + rewrite decide_True by (rewrite Hrl; simpl; lia).
      cbn [mbind option_bind]. eexists. split; [done|].
      inversion Hr; subst. cbn [press].
      apply (holds_intro _ _ _ _ rest); close_holds.
  - (* left arrow *)
    rewrite Hleft. unfold left_arrow. cbn [buffer pos].
    destruct l as [|x l].
    + rewrite decide_False by (simpl; lia). cbn [mbind option_bind].
      eexists. split; [done|]. apply (holds_intro _ _ _ _ rest); close_holds.
    + rewrite decide_True by (simpl; lia). cbn [mbind option_bind].
      eexists. split; [done|].
      inversion Hl; subst. cbn [press].
      apply (holds_intro _ _ _ _ rest); close_holds.
  - (* delete *)
    rewrite Hdel.
    destruct r as [|x r].
    + unfold forward_delete. cbn [buffer pos].
      rewrite shape_length by done. cbn [mbind option_bind].
      rewrite to_size_t_small by lia.
      rewrite decide_False by (rewrite Hrl; simpl; lia).
      cbn [mbind option_bind]. eexists. split; [done|].
      apply (holds_intro _ _ _ _ rest); close_holds.
    + inversion Hr; subst.
      replace (Z.of_nat (length l)) with (Z.of_nat (length (reverse l)))
        by (by rewrite Hrl).
      cbn [app].
      rewrite forward_delete_shape;
        [|done|done|done
         |rewrite !length_app; cbn [length]; rewrite length_app; simpl in *;
          lia].
      cbn [mbind option_bind]. eexists. split; [done|]. cbn [press].
      apply (holds_intro _ _ _ _ (NUL :: rest)); close_holds.
  - (* backspace *)
    rewrite Hback.
    destruct l as [|x l].
    + unfold backspace. cbn [buffer pos].
      rewrite decide_False by (simpl; lia). cbn [mbind option_bind].
      eexists. split; [done|]. apply (holds_intro _ _ _ _ rest); close_holds.
    + inversion Hl; subst. rewrite reverse_cons, <- app_assoc. cbn [app].
      replace (Z.of_nat (length (x :: l)))
        with (Z.of_nat (length (reverse l)) + 1)%Z
        by (rewrite length_reverse; simpl; lia).
      rewrite backspace_shape by done.
      cbn [mbind option_bind]. eexists. split; [done|]. cbn [press].
      apply (holds_intro _ _ _ _ (NUL :: rest)); close_holds.
  - (* a printable byte *)
    cbn [key_ok] in Hk. rewrite (Hins c Hk).
    destruct rest as [|y rest]; [simpl in *; lia|].
    replace (Z.of_nat (length l)) with (Z.of_nat (length (reverse l)))
      by (by rewrite Hrl).
    rewrite insert_char_shape by (done || rewrite Hrl; simpl in *; lia).
    cbn [mbind option_bind]. eexists. split; [done|]. cbn [press].
    apply (holds_intro _ _ _ _ rest); try close_holds.
    constructor; [|done].
    apply to_char_nonzero. unfold printable in Hk. lia.
Qed.

Lemma read_loop_keys (rest : list Z) (ks : list key) :
  forall e t fuel,
    holds e t -> Forall key_ok ks ->
    (length t.1 + length t.2 + length ks <= BUFFER_SIZE - 1)%nat ->
    (length ks < fuel)%nat ->
    exists b,
      read_loop fuel e ((ks ≫= key_bytes) ++ 10%Z :: rest) = Returned b rest /\
      cstring b 0
        = Some (String.string_of_list_ascii (line_of (foldl press t ks))).
Proof.
  induction ks as [|k ks IH]; intros e t fuel He Hks Hroom Hfuel;
    (destruct fuel as [|fuel]; [simpl in Hfuel; lia|]).
  - cbn [mbind list_bind app read_loop foldl]. rewrite step_enter.
    eexists. split; [done|].
    destruct He as ([r Hb] & _ & _ & Hl & Hr). rewrite Hb.
    apply cstring_shape; [by apply nonzero_reverse|done].
  - inversion Hks as [|? ? Hk Hks']; subst.
    change ((k :: ks) ≫= key_bytes) with (key_bytes k ++ (ks ≫= key_bytes)).
    rewrite <- app_assoc. cbn [read_loop foldl].
    destruct (step_press e t k ((ks ≫= key_bytes) ++ 10%Z :: rest) He Hk)
      as (e' & -> & He'); [cbn [length] in Hroom; lia|].
    pose proof (press_length t k).
    apply IH; [done|done|cbn [length] in Hroom; lia|simpl in Hfuel; lia].
Qed.

(** X20.  [lush_read_line] follows the keys.  For every sequence of fewer
    than 1024 keys, each a left or right arrow, delete, backspace or a
    printable character, typed before Enter, the line that comes back is
    the one the keys make of the empty line: arrows move the cursor by one
    and stop at the ends, a character goes in at the cursor, backspace
    takes out the byte before the cursor and delete the byte at it.  What
    is typed behind the Enter is left in the input. *)
Theorem editor_follows_the_keys (ks : list key) (rest : list Z) (fuel : nat) :
  Forall key_ok ks -> (length ks < BUFFER_SIZE)%nat ->
  (length ks < fuel)%nat ->
  exists b,
    lush_read_line fuel ((ks ≫= key_bytes) ++ 10%Z :: rest) = Returned b rest /\
    cstring b 0
      = Some (String.string_of_list_ascii (line_of (foldl press ([], []) ks))).
Proof.
  intros Hks Hlen Hfuel. unfold lush_read_line.
  apply read_loop_keys; try done; [|cbn [fst snd length]; lia].
  apply (holds_intro _ _ [] [] (replicate (BUFFER_SIZE - 1) NUL));
    try done; constructor.
Qed.

Lemma editor_follows_the_keys_witness :
  exists b,
    lush_read_line 9 ((sample_keys ≫= key_bytes) ++ 10%Z :: [])
      = Returned b [] /\
    cstring b 0 = Some "abc".
Proof.
  destruct (editor_follows_the_keys sample_keys [] 9) as (b & Hb & Htext).
  - repeat constructor; unfold printable; simpl; lia.
  - unfold BUFFER_SIZE. simpl. lia.
  - simpl. lia.
  - exists b. split; [exact Hb|exact Htext].
Defined.

End EditorKeys.

(** * Pipelines of commands made of words *)

Module PipelineFacts.
Import Mem MemFacts Tokenizer Lines Shell Samples TokenizerFacts EditorMore
       ShellMore WordFacts Extra.

Local Ltac same_list :=
  repeat (rewrite <- ?app_assoc; cbn [app seps]); done.

(** ** The cuts of [strtok] *)

Lemma strtok_loop_tokens (others : list (list ascii)) :
  forall pre T room rest,
    token T -> Forall token others -> (length others < room)%nat ->
    ('(m, command, save) ←
       strtok (pre ++ T ++ seps PIPE others ++ NUL :: rest) (length pre);
     split_loop room m save command)
    = Some (pre ++ T ++ seps NUL others ++ NUL :: rest,
            offsets (length pre) T others).
Proof.
  induction others as [|T1 others IH];
    intros pre T room rest (Hne & Hnz & Hnp) Hothers Hroom;
    (destruct room as [|room]; [simpl in Hroom; lia|]).
  - cbn [seps app offsets].
    pose proof (strtok_token pre [] T rest NUL (Forall_nil_2 _) Hne Hnz Hnp
                  (or_introl eq_refl)) as Htok.
    cbn [app length] in Htok. rewrite Nat.add_0_r in Htok.
    rewrite decide_True in Htok by done.
    rewrite Htok. cbn [mbind option_bind split_loop].
    pose proof (strtok_none (pre ++ T) [] rest (Forall_nil_2 _)) as Hnone.
    cbn [app length] in Hnone.
    rewrite <- app_assoc, length_app, Nat.add_0_r in Hnone.
    rewrite Hnone. cbn [mbind option_bind]. by rewrite split_loop_none.
  - inversion Hothers as [|? ? HT1 Hothers']; subst.
    cbn [seps offsets app]. rewrite <- ?app_assoc.
    pose proof (strtok_token pre [] T (T1 ++ seps PIPE others ++ NUL :: rest)
                  PIPE (Forall_nil_2 _) Hne Hnz Hnp (or_intror eq_refl))
      as Htok.
    cbn [app length] in Htok. rewrite Nat.add_0_r in Htok.
    rewrite decide_False in Htok by done.
    rewrite Htok. cbn [mbind option_bind split_loop].
    specialize (IH (pre ++ T ++ [NUL]) T1 room rest HT1 Hothers').
    replace (length (pre ++ T ++ [NUL])) with (S (length pre + length T))
      in IH by (rewrite !length_app; simpl; lia).
    replace ((pre ++ T ++ [NUL]) ++ T1 ++ seps PIPE others ++ NUL :: rest)
      with (pre ++ T ++ NUL :: T1 ++ seps PIPE others ++ NUL :: rest)
      in IH by same_list.
    destruct (strtok (pre ++ T ++ NUL :: T1 ++ seps PIPE others ++ NUL :: rest)
                (S (length pre + length T))) as [[[m1 next] save1]|];
      cbn [mbind option_bind] in IH |- *; [|by specialize (IH ltac:(simpl in Hroom; lia))].
    rewrite IH by (simpl in Hroom; lia). cbn [mbind option_bind].
    f_equal. f_equal; [same_list|].
    f_equal. f_equal. lia.
Qed.

(** ** The trimming loops *)

Lemma skip_blank_from_run (B l : list ascii) (x : ascii) :
  blanks B -> is_blank x = false ->
  skip_blank_from (B ++ x :: l) = Some (length B).
Proof.
  intros HB Hx. induction HB as [|b B Hb _ IH]; simpl.
  - by rewrite Hx.
  - by rewrite Hb, IH.
Qed.

Lemma trim_back_run (A : list ascii) :
  forall P z Q,
    blanks A -> is_blank z = false ->
    trim_back (P ++ z :: A ++ Q) (S (length P) + length A)
    = Some (P ++ z :: replicate (length A) NUL ++ Q).
Proof.
  induction A as [|a A IH] using rev_ind; intros P z Q HA Hz.
  - cbn [length app replicate]. rewrite Nat.add_0_r. cbn [trim_back].
    rewrite load_middle by done. cbn [mbind option_bind]. by rewrite Hz.
  - apply Forall_app in HA as [HA Ha]. inversion Ha as [|? ? Hblank _]; subst.
    rewrite length_app. cbn [length].
    replace (S (length P) + (length A + 1))%nat
      with (S (S (length P) + length A)) by lia.
    cbn [trim_back].
    replace (P ++ z :: (A ++ [a]) ++ Q) with ((P ++ z :: A) ++ a :: Q)
      by (rewrite <- !app_assoc; cbn [app]; by rewrite <- ?app_assoc).
    rewrite load_middle by (rewrite length_app; simpl; lia).
    cbn [mbind option_bind]. rewrite Hblank.
    replace (S (length P) + length A)%nat with (length (P ++ z :: A) + 0)%nat
      by (rewrite length_app; simpl; lia).
    rewrite insert_app_r. cbn [insert list_insert].
    replace (length (P ++ z :: A) + 0)%nat with (S (length P) + length A)%nat
      by (rewrite length_app; simpl; lia).
    replace ((P ++ z :: A) ++ NUL :: Q) with (P ++ z :: A ++ NUL :: Q)
      by (by rewrite <- app_assoc).
    rewrite IH by done. f_equal. f_equal. f_equal.
    rewrite replicate_add. cbn [replicate]. by rewrite <- app_assoc.
Qed.

Lemma command_lengths (c : command_text) :
  length (trimmed_command c) = length (typed_command c) /\
  length (split_command c) = length (typed_command c).
Proof.
  assert (forall f g more, length (spaced f more) = length (spaced g more))
    as Hsp.
  { intros f g more. induction more as [|[k w] more IH]; [done|].
    cbn [spaced]. rewrite !length_app, !length_replicate. by rewrite IH. }
  unfold trimmed_command, split_command, typed_command.
  rewrite !length_app, !length_replicate.
  by rewrite (Hsp NUL SPACE).
Qed.

Lemma command_token (c : command_text) :
  command_ok c -> token (typed_command c).
Proof.
  intros (HB & Hw & Hmore & HA & _). unfold typed_command.
  assert (forall P : ascii -> Prop,
            (forall x, letter x -> P x) -> P SPACE ->
            (forall x, is_blank x = true -> P x) ->
            Forall P (blanks_before c ++ first_word c ++
                        spaced SPACE (more_words c) ++ blanks_after c))
    as Hall.
  { intros P Hl Hs Hb. apply Forall_app. split.
    { eapply Forall_impl; [exact HB|]. done. }
    rewrite (app_assoc (first_word c)). apply Forall_app. split.
    - by apply words_Forall.
    - eapply Forall_impl; [exact HA|]. done. }
  split; [|split].
  - destruct Hw as [Hne _]. destruct (first_word c); [done|].
    by destruct (blanks_before c).
  - apply Hall; [by intros x [? _]|done|].
    intros x Hx ->. done.
  - apply Hall; [by intros x (_ & _ & _ & ? & _)|done|].
    intros x Hx ->. done.
Qed.

Lemma seps_starts_with_terminator (f : command_text -> list ascii)
    (cs : list command_text) (rest : list ascii) :
  exists X, seps NUL (f <$> cs) ++ NUL :: rest = NUL :: X.
Proof. destruct cs as [|c cs]; simpl; by eexists. Qed.

(** The two loops on one command that is followed by a terminator. *)
Lemma trim_one (pre : list ascii) (c : command_text) (X : list ascii) :
  command_ok c ->
  (k ← skip_blank_from (drop (length pre) (pre ++ typed_command c ++ NUL :: X));
   let p := (length pre + k)%nat in
   n ← strlen (pre ++ typed_command c ++ NUL :: X) p;
   m ← trim_back (pre ++ typed_command c ++ NUL :: X) (p + n);
   Some (m, p))
  = Some (pre ++ trimmed_command c ++ NUL :: X,
          (length pre + length (blanks_before c))%nat).
Proof.
  intros (HB & Hw & Hmore & HA & _).
  destruct (words_last SPACE (more_words c) (first_word c) Hw Hmore)
    as (z & Hz & Hlz).
  apply last_Some in Hz as [W0 HW].
  assert (nonzero (first_word c ++ spaced SPACE (more_words c))) as HWnz.
  { apply words_Forall; try done. by intros x [? _]. }
  assert (nonzero (blanks_after c)) as HAnz.
  { eapply Forall_impl; [exact HA|]. intros x Hx ->. done. }
  unfold typed_command, trimmed_command.
  destruct Hw as [Hne Hw]. destruct (first_word c) as [|x w0] eqn:Hfw; [done|].
  inversion Hw as [|? ? Hx _]; subst.
  rewrite drop_app_length.
  replace ((blanks_before c ++ (x :: w0) ++
              spaced SPACE (more_words c) ++ blanks_after c) ++ NUL :: X)
    with (blanks_before c ++ x :: (w0 ++
              spaced SPACE (more_words c) ++ blanks_after c ++ NUL :: X))
    by same_list.
  rewrite skip_blank_from_run by (done || by apply letter_not_blank).
  cbn [mbind option_bind].
  unfold strlen.
  replace (pre ++ blanks_before c ++ x :: w0 ++
             spaced SPACE (more_words c) ++ blanks_after c ++ NUL :: X)
    with ((pre ++ blanks_before c) ++
          (((x :: w0) ++ spaced SPACE (more_words c)) ++ blanks_after c) ++
          NUL :: X) by same_list.
  rewrite drop_app_length' by (by rewrite length_app).
  rewrite strlen_from_app by (by apply Forall_app).
  cbn [mbind option_bind].
  rewrite HW.
  replace ((pre ++ blanks_before c) ++
           ((W0 ++ [z]) ++ blanks_after c) ++ NUL :: X)
    with ((pre ++ blanks_before c ++ W0) ++ z :: blanks_after c ++ NUL :: X)
    by same_list.
  replace (length pre + length (blanks_before c) +
           length ((W0 ++ [z]) ++ blanks_after c))%nat
    with (S (length (pre ++ blanks_before c ++ W0)) +
          length (blanks_after c))%nat
    by (rewrite !length_app; simpl; lia).
  rewrite trim_back_run by (done || by apply letter_not_blank).
  cbn [mbind option_bind]. f_equal. f_equal.
  rewrite (app_assoc (x :: w0)), HW. same_list.
Qed.

Lemma trim_commands_texts (cs : list command_text) :
  forall pre c rest,
    command_ok c -> Forall command_ok cs ->
    trim_commands
      (pre ++ typed_command c ++ seps NUL (typed_command <$> cs) ++ NUL :: rest)
      (offsets (length pre) (typed_command c) (typed_command <$> cs))
    = Some (pre ++ trimmed_command c ++ seps NUL (trimmed_command <$> cs) ++
              NUL :: rest,
            starts (length pre) c cs).
Proof.
  induction cs as [|c1 cs IH]; intros pre c rest Hc Hcs.
  - cbn [fmap list_fmap seps app offsets starts trim_commands].
    pose proof (trim_one pre c rest Hc) as Hone.
    destruct (skip_blank_from
                (drop (length pre) (pre ++ typed_command c ++ NUL :: rest)))
      as [k|]; cbn [mbind option_bind] in Hone |- *; [|done].
    destruct (strlen (pre ++ typed_command c ++ NUL :: rest) (length pre + k))
      as [n|]; cbn [mbind option_bind] in Hone |- *; [|done].
    destruct (trim_back (pre ++ typed_command c ++ NUL :: rest)
                (length pre + k + n)) as [m|];
      cbn [mbind option_bind] in Hone |- *; [|done].
    by injection Hone as -> ->.
  - inversion Hcs as [|? ? Hc1 Hcs']; subst.
    cbn [fmap list_fmap seps app offsets starts trim_commands].
    rewrite <- ?app_assoc.
    pose proof (trim_one pre c
                  (typed_command c1 ++ seps NUL (typed_command <$> cs) ++
                     NUL :: rest) Hc) as Hone.
    set (m0 := pre ++ typed_command c ++ NUL :: typed_command c1 ++
                 seps NUL (typed_command <$> cs) ++ NUL :: rest) in *.
    destruct (skip_blank_from (drop (length pre) m0)) as [k|];
      cbn [mbind option_bind] in Hone |- *; [|done].
    destruct (strlen m0 (length pre + k)) as [n|];
      cbn [mbind option_bind] in Hone |- *; [|done].
    destruct (trim_back m0 (length pre + k + n)) as [m|];
      cbn [mbind option_bind] in Hone |- *; [|done].
    injection Hone as -> ->.
    specialize (IH (pre ++ trimmed_command c ++ [NUL]) c1 rest Hc1 Hcs').
    replace (length (pre ++ trimmed_command c ++ [NUL]))
      with (length pre + length (typed_command c) + 1)%nat in IH
      by (rewrite !length_app, (proj1 (command_lengths c)); simpl; lia).
    replace ((pre ++ trimmed_command c ++ [NUL]) ++ typed_command c1 ++
               seps NUL (typed_command <$> cs) ++ NUL :: rest)
      with (pre ++ trimmed_command c ++ NUL :: typed_command c1 ++
               seps NUL (typed_command <$> cs) ++ NUL :: rest)
      in IH by same_list.
    rewrite IH. cbn [mbind option_bind]. f_equal. f_equal. same_list.
Qed.

(** ** The scanning loop, command after command *)

Lemma replicate_shift {A : Type} (n : nat) (x : A) (l : list A) :
  replicate n x ++ x :: l = x :: replicate n x ++ l.
Proof. induction n as [|n IH]; [done|]. simpl. by rewrite IH. Qed.

Lemma split_stages_one (env : string -> option string) (t : bool)
    (pre : list ascii) (c : command_text) (X : list ascii) (offs : list nat)
    (acc : list (list (option pointer))) :
  command_ok c ->
  exists a,
    split_stages env t (pre ++ trimmed_command c ++ NUL :: X)
      ((length pre + length (blanks_before c))%nat :: offs) acc
    = split_stages env t (pre ++ split_command c ++ NUL :: X) offs
        (acc ++ [a]) /\
    forall X',
      read_args (pre ++ split_command c ++ NUL :: X') a = Some (stage_of c).
Proof.
  intros (HB & Hw & Hmore & HA & Hroom).
  set (r := (MAX_ARGS - S (length (more_words c)))%nat).
  set (REST := replicate (length (blanks_after c)) NUL ++ X).
  destruct (scan_words env (more_words c) (first_word c)
              (pre ++ blanks_before c) REST
              (length (pre ++ blanks_before c) + S (length REST)) [] r
              Hw Hmore)
    as (s & entries & Hscan & Hline & Hin & Hpend & Hput & Hall).
  exists (entries ++ replicate r None). split.
  - rewrite split_stages_cons.
    assert (pre ++ trimmed_command c ++ NUL :: X
            = (pre ++ blanks_before c) ++ first_word c ++
              spaced SPACE (more_words c) ++ NUL :: REST) as Hm.
    { unfold trimmed_command, REST. rewrite <- !app_assoc.
      by rewrite replicate_shift. }
    rewrite Hm.
    replace (S (length ((pre ++ blanks_before c) ++ first_word c ++
                          spaced SPACE (more_words c) ++ NUL :: REST)))
      with (length (first_word c ++ spaced SPACE (more_words c)) +
            S (length (pre ++ blanks_before c) + S (length REST)))%nat
      by (rewrite !length_app; cbn [length]; lia).
    replace (calloc MAX_ARGS)
      with ([] ++ replicate (A:=option pointer)
                    (S (length (more_words c) + r)) None)
      by (unfold calloc, r; cbn [app]; f_equal; lia).
    replace (length pre + length (blanks_before c))%nat
      with (length (pre ++ blanks_before c)) by (by rewrite length_app).
    change 0%nat with (length (@nil (option pointer))) at 1.
    rewrite Hscan. cbn [mbind res_bind]. rewrite Hin, Hpend.
    cbn [lift mbind res_bind]. rewrite Hput. cbn [lift mbind res_bind app].
    rewrite Hline. f_equal.
    unfold split_command, REST. rewrite <- !app_assoc.
    by rewrite replicate_shift.
  - intros X'.
    specialize (Hall (replicate (length (blanks_after c)) NUL ++ X')).
    replace (pre ++ split_command c ++ NUL :: X')
      with ((pre ++ blanks_before c) ++ first_word c ++
            spaced NUL (more_words c) ++
            NUL :: replicate (length (blanks_after c)) NUL ++ X')
      by (unfold split_command; rewrite <- !app_assoc;
          by rewrite replicate_shift).
    rewrite (read_args_entries _ _ _ _ Hall).
    unfold stage_of, command_words, r. cbn [length].
    by rewrite length_fmap.
Qed.

Lemma split_stages_texts (env : string -> option string)
    (cs : list command_text) :
  forall pre c rest acc,
    command_ok c -> Forall command_ok cs ->
    exists arrays,
      split_stages env true
        (pre ++ trimmed_command c ++ seps NUL (trimmed_command <$> cs) ++
           NUL :: rest)
        (starts (length pre) c cs) acc
      = Ok (pre ++ split_command c ++ seps NUL (split_command <$> cs) ++
              NUL :: rest,
            acc ++ arrays, Z.of_nat (length (acc ++ arrays))) /\
      Forall2 (fun a d =>
                 read_args (pre ++ split_command c ++
                              seps NUL (split_command <$> cs) ++ NUL :: rest) a
                 = Some (stage_of d))
              arrays (c :: cs).
Proof.
  induction cs as [|c1 cs IH]; intros pre c rest acc Hc Hcs.
  - cbn [fmap list_fmap seps app starts].
    destruct (split_stages_one env true pre c rest [] acc Hc) as (a & Hone & Hread).
    exists [a]. split.
    + by rewrite Hone.
    + constructor; [apply Hread|constructor].
  - inversion Hcs as [|? ? Hc1 Hcs']; subst.
    cbn [fmap list_fmap seps app starts]. rewrite <- ?app_assoc.
    destruct (split_stages_one env true pre c
                (trimmed_command c1 ++ seps NUL (trimmed_command <$> cs) ++
                   NUL :: rest)
                (starts (length pre + length (typed_command c) + 1) c1 cs)
                acc Hc) as (a & Hone & Hread).
    destruct (IH (pre ++ split_command c ++ [NUL]) c1 rest (acc ++ [a])
                Hc1 Hcs') as (arrays & Hrest & Hall).
    replace (length (pre ++ split_command c ++ [NUL]))
      with (length pre + length (typed_command c) + 1)%nat in Hrest
      by (rewrite !length_app, (proj2 (command_lengths c)); simpl; lia).
    replace ((pre ++ split_command c ++ [NUL]) ++ trimmed_command c1 ++
               seps NUL (trimmed_command <$> cs) ++ NUL :: rest)
      with (pre ++ split_command c ++ NUL :: trimmed_command c1 ++
               seps NUL (trimmed_command <$> cs) ++ NUL :: rest)
      in Hrest by same_list.
    assert ((pre ++ split_command c ++ [NUL]) ++ split_command c1 ++
               seps NUL (split_command <$> cs) ++ NUL :: rest
            = pre ++ split_command c ++ NUL :: split_command c1 ++
               seps NUL (split_command <$> cs) ++ NUL :: rest) as Hfinal
      by same_list.
    rewrite Hfinal in Hrest, Hall.
    exists (a :: arrays). split.
    + rewrite Hone, Hrest. by rewrite <- !app_assoc.
    + constructor; [apply Hread|done].
Qed.

(** ** The tokenizer on a pipeline *)

Lemma starts_length (cs : list command_text) :
  forall p c, length (starts p c cs) = S (length cs).
Proof.
  induction cs as [|c1 cs IH]; intros p c; [done|].
  cbn [starts length]. by rewrite IH.
Qed.

Lemma split_pipeline (env : string -> option string) (c : command_text)
    (cs : list command_text) (rest : list ascii) :
  command_ok c -> Forall command_ok cs ->
  (S (length cs) < MAX_COMMANDS)%nat ->
  exists m1 m2 arrays,
    lush_split_pipes
      ((typed_command c ++ seps PIPE (typed_command <$> cs)) ++ NUL :: rest) 0
    = Some (m1, starts 0 c cs) /\
    lush_split_args env m1 (starts 0 c cs)
    = Ok (m2, arrays, Z.of_nat (S (length cs))) /\
    read_pipeline m2 arrays = Some (stage_of <$> (c :: cs)).
Proof.
  intros Hc Hcs Hroom.
  destruct (split_stages_texts env cs [] c rest [] Hc Hcs)
    as (arrays & Hargs & Hall).
  cbn [app length] in Hargs, Hall.
  eexists _, _, arrays. split; [|split].
  - unfold lush_split_pipes.
    pose proof (strtok_loop_tokens (typed_command <$> cs) [] (typed_command c)
                  MAX_COMMANDS rest (command_token c Hc)) as Hloop.
    cbn [app length] in Hloop. rewrite <- app_assoc.
    destruct (strtok (typed_command c ++ seps PIPE (typed_command <$> cs) ++
                        NUL :: rest) 0) as [[[m command] save]|];
      cbn [mbind option_bind] in Hloop |- *.
    + rewrite Hloop.
      * cbn [mbind option_bind].
        exact (trim_commands_texts cs [] c rest Hc Hcs).
      * apply Forall_fmap. eapply Forall_impl; [exact Hcs|].
        intros d Hd. by apply command_token.
      * rewrite length_fmap. lia.
    + exfalso. enough (@None (list ascii * list nat) = Some
                         (typed_command c ++ seps NUL (typed_command <$> cs) ++
                            NUL :: rest,
                          offsets 0 (typed_command c) (typed_command <$> cs)))
        by done.
      apply Hloop.
      * apply Forall_fmap. eapply Forall_impl; [exact Hcs|].
        intros d Hd. by apply command_token.
      * rewrite length_fmap. lia.
  - unfold lush_split_args. rewrite starts_length.
    rewrite bool_decide_eq_true_2 by done.
    cbn [app]. rewrite Hargs. do 2 f_equal.
    apply Forall2_length in Hall. cbn [length] in Hall. by rewrite Hall.
  - unfold read_pipeline. apply mapM_Some_2.
    by apply Forall2_fmap_r.
Qed.

(** X21.  A line of up to 15 commands separated by pipes, each made of
    words with spaces between them and any blanks around it, is tokenized
    into as many argument arrays as there are commands, in order, each
    holding exactly the words of its command followed by [NULL] entries;
    the status is the number of commands. *)
Theorem pipeline_of_words_is_tokenized (env : string -> option string)
    (c : command_text) (cs : list command_text) (rest : list ascii) :
  command_ok c -> Forall command_ok cs ->
  (S (length cs) < MAX_COMMANDS)%nat ->
  tokenize env
    ((typed_command c ++ seps PIPE (typed_command <$> cs)) ++ NUL :: rest)
  = Ok (stage_of <$> (c :: cs), Z.of_nat (S (length cs))).
Proof.
  intros Hc Hcs Hroom.
  destruct (split_pipeline env c cs rest Hc Hcs Hroom)
    as (m1 & m2 & arrays & Hpipes & Hargs & Hread).
  unfold tokenize. rewrite Hpipes. cbn [lift mbind res_bind].
  rewrite Hargs. cbn [mbind res_bind]. by rewrite Hread.
Qed.

Lemma pipeline_of_words_is_tokenized_witness :
  tokenize only_home (typed "ls -l | grep lush |wc")
  = Ok ([Some "ls" :: Some "-l" :: replicate 126 None;
         Some "grep" :: Some "lush" :: replicate 126 None;
         Some "wc" :: replicate 127 None], 3%Z).
Proof.
  apply (pipeline_of_words_is_tokenized only_home ls_command
           [grep_command; wc_command] (replicate 1002 NUL)).
  - apply (bool_decide_unpack _). by vm_compute.
  - apply (bool_decide_unpack _). by vm_compute.
  - apply (bool_decide_unpack _). by vm_compute.
Defined.

(** ** Running the pipeline *)

Lemma run_commands_defined (sys : system) (commands : list (option stage))
    (pipes : list (nat * nat)) (n : nat) :
  forall i o,
    (i + n <= length pipes)%nat -> (i + n <= length commands)%nat ->
    is_Some (run_commands sys commands pipes i n o).
Proof.
  induction n as [|n IH]; intros i o Hp Hc; [by eexists|].
  cbn [run_commands].
  assert (is_Some (if decide (i = 0%nat) then Some STDIN_FILENO
                   else fst <$> pipes !! (i - 1)%nat)) as [input_fd ->].
  { case_decide; [by eexists|].
    destruct (lookup_lt_is_Some_2 pipes (i - 1)) as [p ->]; [lia|].
    by eexists. }
  destruct (lookup_lt_is_Some_2 pipes i) as [p ->]; [lia|].
  destruct (lookup_lt_is_Some_2 commands i) as [a ->]; [lia|].
  cbn [mbind option_bind fmap option_fmap option_map].
  destruct (lush_execute_command sys a input_fd p.2 o) as [[] o1|code o1|o1];
    [apply IH; lia|by eexists..].
Qed.

(** The executor on an array that holds the commands and [NULL]s behind
    them.  It returns 0 after a failed [pipe] and 1 after it has started
    every command; it exits when a [fork] fails, and it does not come back
    while a command it waits for does not end. *)
Lemma execute_stages (sys : system) (name : string) (args0 : stage)
    (more_stages : list stage) (nulls : nat) (o : os) :
  name <> "" ->
  let stages := (Some name :: args0) :: more_stages in
  exists r,
    lush_execute_pipeline sys ((Some <$> stages) ++ replicate nulls None)
      (Z.of_nat (length stages)) o = Ok r /\
    match r with
    | Goes_on rc o' =>
        cwd o' = cwd o /\
        ((rc = 0%Z /\ last (out o') = Some (Perror "pipe") /\
          spawns (out o') = spawns (out o)) \/
         (rc = 1%Z /\ fds o' = fds o /\
          exists pipes,
            length pipes = length more_stages /\
            pipes_of (out o') = pipes_of (out o) ++ pipes /\
            spawns (out o')
            = spawns (out o) ++ wiring pipes (Some <$> stages)))
    | Exits code o' =>
        code = 1%Z /\ cwd o' = cwd o /\
        last (out o') = Some (Perror "fork") /\
        exists pipes k,
          length pipes = length more_stages /\
          pipes_of (out o') = pipes_of (out o) ++ pipes /\
          (k <= length more_stages)%nat /\
          spawns (out o')
          = spawns (out o) ++ wiring pipes (take k (Some <$> stages))
    | Waits o' =>
        cwd o' = cwd o /\
        exists pipes k,
          length pipes = length more_stages /\
          pipes_of (out o') = pipes_of (out o) ++ pipes /\
          (k <= length more_stages)%nat /\
          spawns (out o')
          = spawns (out o) ++ wiring pipes (take (S k) (Some <$> stages))
    end.
Proof.
  intros Hname stages. unfold lush_execute_pipeline. unfold stage in *.
  set (commands := (Some <$> stages) ++ replicate nulls None).
  assert (length stages = S (length more_stages)) as Hlen by done.
  assert (S (length more_stages) <= length commands)%nat as Hlc.
  { unfold commands, stages. rewrite length_app, length_fmap.
    cbn [length]. lia. }
  assert (forall k, (k <= S (length more_stages))%nat ->
            take k commands = take k (Some <$> stages)) as Htake.
  { intros k Hk. unfold commands. apply take_app_le.
    rewrite length_fmap. unfold stage in *. lia. }
  change (commands !! 0%nat) with (Some (Some (Some name :: args0))).
  cbn [lookup list_lookup lift mbind res_bind].
  rewrite decide_False by done.
  rewrite decide_False by lia.
  replace (Z.to_nat (Z.of_nat (length stages) - 1)) with (length more_stages)
    by lia.
  destruct (create_pipes sys (length more_stages) o) as [o1|[pipes o1]]
    eqn:Hpipes.
  { eexists. split; [done|].
    split; [by eapply create_pipes_failed|]. left. split; [done|].
    by eapply create_pipes_failed_out. }
  destruct (create_pipes_out _ _ _ _ _ Hpipes) as (Hs1 & Hp1 & _).
  destruct (create_pipes_fds _ _ _ _ _ Hpipes) as (Hf1 & Hc1 & Hpl).
  destruct (run_commands_defined sys commands pipes (length more_stages) 0 o1)
    as [r1 Hloop]; [unfold stage in *; lia..|].
  rewrite Hloop. cbn [lift mbind res_bind].
  pose proof (run_commands_stopped _ _ _ _ _ _ _ Hloop) as Hstop.
  destruct r1 as [[] o2|code2 o2|o2]; cbn [and_then].
  2:{ destruct Hstop as (-> & Hc & Hl & Hp' & k & Hk & Hs).
      eexists. split; [done|]. split; [done|]. split; [congruence|].
      split; [done|]. exists pipes, k. split; [done|].
      split; [congruence|]. split; [lia|].
      rewrite Hs, Hs1, drop_0, Htake by lia. done. }
  2:{ destruct Hstop as (Hc & Hp' & k & Hk & Hs).
      eexists. split; [done|]. split; [congruence|].
      exists pipes, k. split; [done|].
      split; [congruence|]. split; [lia|].
      rewrite Hs, Hs1, drop_0, Htake by lia. done. }
  clear Hstop.
  destruct (run_commands_out _ _ _ _ _ _ _ Hloop) as (Hs2 & Hp2 & _).
  destruct (run_commands_fds _ _ _ _ _ _ _ Hloop) as [Hf2 Hc2].
  assert (is_Some (if decide (Z.of_nat (length stages) > 1)%Z
                   then fst <$> pipes !! (length more_stages - 1)%nat
                   else Some STDIN_FILENO)) as [input_fd Hin].
  { case_decide; [|by eexists].
    destruct (lookup_lt_is_Some_2 pipes (length more_stages - 1)) as [p ->];
      [lia|]. by eexists. }
  rewrite Hin. cbn [lift mbind res_bind].
  destruct (lookup_lt_is_Some_2 commands (length more_stages)) as [last Hlast];
    [lia|].
  rewrite Hlast. cbn [lift mbind res_bind].
  assert (spawns (out o2) ++ [(argv <$> last, input_fd, STDOUT_FILENO)]
          = spawns (out o) ++ wiring pipes (Some <$> stages)) as Hall.
  { rewrite Hs2, Hs1, drop_0, <- app_assoc. f_equal.
    rewrite <- (take_ge (Some <$> stages) (S (length more_stages)))
      by (rewrite length_fmap; unfold stage in *; lia).
    rewrite <- Htake by lia.
    rewrite (take_S_r _ _ _ Hlast). unfold wiring. rewrite imap_app.
    f_equal. simpl.
    rewrite length_take, Nat.min_l, Nat.add_0_r by lia.
    f_equal. f_equal; [f_equal|].
    - unfold input_of. destruct (length more_stages) as [|j] eqn:Hj.
      + rewrite decide_False in Hin by lia. congruence.
      + rewrite decide_True in Hin by lia. simpl in Hin.
        rewrite Nat.sub_0_r in Hin. by rewrite Hin.
    - unfold output_of. rewrite lookup_ge_None_2 by lia. done. }
  destruct (lush_execute_command sys last input_fd STDOUT_FILENO o2)
    as [[] o3|code3 o3|o3] eqn:Hcmd; cbn [and_then].
  - apply lush_execute_command_returns in Hcmd as ->.
    destruct (close_pipes_out pipes
                (emit (Spawn (argv <$> last) input_fd STDOUT_FILENO) o2))
      as (Hs3 & Hp3 & _).
    destruct (close_pipes_fds pipes
                (emit (Spawn (argv <$> last) input_fd STDOUT_FILENO) o2))
      as [Hf3 Hc3].
    eexists. split; [done|].
    split; [rewrite Hc3; simpl; congruence|].
    right. split; [done|].
    split; [rewrite Hf3; simpl; congruence|].
    exists pipes. split; [done|].
    rewrite Hs3, Hp3. simpl.
    rewrite spawns_app, pipes_of_app. simpl. rewrite app_nil_r.
    split; [congruence|]. exact Hall.
  - apply lush_execute_command_exits in Hcmd as (-> & -> & _).
    eexists. split; [done|]. split; [done|].
    split; [simpl; congruence|]. simpl. rewrite last_snoc.
    split; [done|]. exists pipes, (length more_stages). split; [done|].
    split; [rewrite pipes_of_app; simpl; rewrite app_nil_r; congruence|].
    split; [lia|].
    rewrite spawns_app. simpl. rewrite app_nil_r.
    rewrite Hs2, Hs1, drop_0, Htake by lia. done.
  - apply lush_execute_command_waits in Hcmd as (-> & _).
    eexists. split; [done|]. split; [simpl; congruence|].
    exists pipes, (length more_stages). split; [done|].
    split; [simpl; rewrite pipes_of_app; simpl; rewrite app_nil_r;
            congruence|].
    split; [lia|].
    simpl. rewrite spawns_app. simpl.
    rewrite take_ge by (rewrite length_fmap; unfold stage in *; lia).
    exact Hall.
Qed.

Lemma seps_nonzero (others : list (list ascii)) :
  Forall token others -> nonzero (seps PIPE others).
Proof.
  induction 1 as [|T others (_ & HT & _) _ IH]; [constructor|].
  cbn [seps]. constructor; [done|]. by apply Forall_app.
Qed.

Lemma wiring_stages (pipes : list (nat * nat)) (cs : list command_text) :
  wiring pipes (Some <$> (stage_of <$> cs))
  = imap (fun i d => (Some (word_strings (command_words d)),
                      input_of pipes i, output_of pipes i)) cs.
Proof.
  unfold wiring. rewrite !imap_fmap. apply imap_ext. intros i d _.
  cbn [compose fmap option_fmap option_map]. unfold stage_of.
  by rewrite argv_entries.
Qed.

(** X22.  A line of up to 15 commands made of words, separated by pipes,
    whose first word is not the name of a builtin, with fewer than 128
    words in each command so that every array ends in a [NULL]: a round of
    [main] goes on, exits with status 1, or stays in [waitpid].  When it
    goes on it has opened one pipe less than there are commands and
    started every command of the line once, in order, with exactly its
    words as arguments, the first reading standard input, the last writing
    standard output and each other one writing the pipe the next one
    reads; the descriptors and the working directory are as before.  When
    it exits, either a call of [pipe] has failed, which is the last thing
    reported, and no command has been started, or a [fork] has failed,
    which is the last thing reported, and the commands started are a
    prefix of the commands of the line, in order, that leaves out at
    least the last.  When it stays in [waitpid] the commands started are a
    prefix of the commands of the line that is not empty: a command is
    waited for before the next one is started.  On a system where every
    [fork] succeeds and every child comes to an end, the round goes on or
    exits after a failed [pipe]. *)
Theorem pipeline_of_words_runs
    (sys : system) (env : string -> option string)
    (c : command_text) (cs : list command_text) (rest : list ascii) (o : os) :
  command_ok c -> Forall command_ok cs ->
  Forall (fun d => (length (command_words d) < MAX_ARGS)%nat) (c :: cs) ->
  (S (length cs) < MAX_COMMANDS)%nat ->
  find_builtin (String.string_of_list_ascii (first_word c)) = None ->
  exists r,
    main_round sys env
      ((typed_command c ++ seps PIPE (typed_command <$> cs)) ++ NUL :: rest) o
    = Ok r /\
    match r with
    | Goes_on _ o' =>
        cwd o' = cwd o /\ fds o' = fds o /\
        exists pipes,
          length pipes = length cs /\
          pipes_of (out o') = pipes_of (out o) ++ pipes /\
          spawns (out o')
          = spawns (out o) ++
            imap (fun i d => (Some (word_strings (command_words d)),
                              input_of pipes i, output_of pipes i)) (c :: cs)
    | Exits code o' =>
        code = 1%Z /\ cwd o' = cwd o /\
        ((last (out o') = Some (Perror "pipe") /\
          spawns (out o') = spawns (out o)) \/
         (last (out o') = Some (Perror "fork") /\
          exists pipes k,
            length pipes = length cs /\
            pipes_of (out o') = pipes_of (out o) ++ pipes /\
            (k <= length cs)%nat /\
            spawns (out o')
            = spawns (out o) ++
              imap (fun i d => (Some (word_strings (command_words d)),
                                input_of pipes i, output_of pipes i))
                   (take k (c :: cs))))
    | Waits o' =>
        cwd o' = cwd o /\
        exists pipes k,
          length pipes = length cs /\
          pipes_of (out o') = pipes_of (out o) ++ pipes /\
          (k <= length cs)%nat /\
          spawns (out o')
          = spawns (out o) ++
            imap (fun i d => (Some (word_strings (command_words d)),
                              input_of pipes i, output_of pipes i))
                 (take (S k) (c :: cs))
    end /\
    ((forall o, fork_ok sys o = true) ->
     (forall a i j o, child_ends sys a i j o = true) ->
     match r with
     | Goes_on _ _ => True
     | Exits _ o' => last (out o') = Some (Perror "pipe")
     | Waits _ => False
     end).
Proof.
  intros Hc Hcs _ Hroom Hext.
  destruct (split_pipeline env c cs rest Hc Hcs Hroom)
    as (m1 & m2 & arrays & Hpipes & Hargs & Hread).
  pose proof (command_token c Hc) as (Hne & Hnz & _).
  assert (nonzero (typed_command c ++ seps PIPE (typed_command <$> cs)))
    as Hline.
  { apply Forall_app. split; [done|]. apply seps_nonzero.
    apply Forall_fmap. eapply Forall_impl; [exact Hcs|].
    intros d Hd. by apply command_token. }
  destruct Hc as (_ & [Hw _] & _).
  destruct (string_of_word (first_word c) Hw) as (x & name & Hname).
  destruct (execute_stages sys (String.string_of_list_ascii (first_word c))
              ((Some <$> word_strings (more_words c).*2) ++
               replicate (MAX_ARGS - length (command_words c)) None)
              (stage_of <$> cs) (MAX_ARGS - S (length cs))
              (emit (Stdout "") o))
    as (r & Hrun & Hcases); [by rewrite Hname|].
  assert (forall pipes k,
            wiring pipes
              (take k (Some <$>
                 (Some (String.string_of_list_ascii (first_word c)) ::
                  (Some <$> word_strings (more_words c).*2) ++
                  replicate (MAX_ARGS - length (command_words c)) None) ::
                 (stage_of <$> cs)))
            = imap (fun i d => (Some (word_strings (command_words d)),
                                input_of pipes i, output_of pipes i))
                   (take k (c :: cs))) as Hwired.
  { intros pipes k. rewrite <- (wiring_stages pipes (take k (c :: cs))).
    by rewrite !fmap_take. }
  unfold main_round.
  rewrite strlen_inside by (done || lia).
  cbn [lift mbind res_bind].
  rewrite decide_False
    by (rewrite length_app; destruct (typed_command c); [done|simpl; lia]).
  unfold split_and_run. rewrite Hpipes. cbn [lift mbind res_bind].
  rewrite Hargs. cbn [mbind res_bind].
  rewrite decide_False by lia.
  rewrite Hread. cbn [lift mbind res_bind].
  unfold command_args, lush_run.
  cbn [fmap list_fmap app length]. rewrite length_fmap.
  change (stage_of c)
    with (Some (String.string_of_list_ascii (first_word c)) ::
          (Some <$> word_strings (more_words c).*2) ++
          replicate (MAX_ARGS - length (command_words c)) None).
  rewrite lush_run_from_external by done.
  cbn [length] in Hrun. rewrite length_fmap in Hrun.
  cbn [fmap list_fmap app] in Hrun.
  unfold stage in *. rewrite Hrun. cbn [mbind res_bind].
  pose proof (fun Hfork Hends =>
                lush_execute_pipeline_comes_back _ _ _ _ _ Hfork Hends Hrun)
    as Hback.
  rewrite length_fmap in Hcases.
  destruct r as [rc o'|code o'|o']; cbn [and_then].
  - destruct Hcases as [Hcwd [(-> & Hl & Hs)|(-> & Hf & pipes & Hlen & Hp & Hs)]].
    + rewrite decide_True by done. cbn [mbind res_bind and_then].
      eexists. split; [done|]. split; [|done].
      split; [done|]. split; [done|]. left. split; [done|].
      rewrite Hs. simpl. rewrite spawns_app. simpl. by rewrite app_nil_r.
    + rewrite decide_False by done. cbn [mbind res_bind and_then].
      eexists. split; [done|]. split; [|done].
      split; [done|]. split; [done|].
      exists pipes. split; [done|].
      rewrite Hp, Hs. simpl. rewrite spawns_app, pipes_of_app. simpl.
      rewrite !app_nil_r. split; [done|]. f_equal.
      exact (wiring_stages pipes (c :: cs)).
  - destruct Hcases as (-> & Hcwd & Hl & pipes & k & Hlen & Hp & Hk & Hs).
    cbn [mbind res_bind and_then].
    eexists. split; [done|]. split.
    + split; [done|]. split; [done|]. right. split; [done|].
      exists pipes, k. split; [done|].
      split; [rewrite Hp; simpl; rewrite pipes_of_app; simpl;
              by rewrite app_nil_r|].
      split; [done|].
      rewrite Hs, Hwired. simpl. rewrite spawns_app. simpl.
      by rewrite app_nil_r.
    + intros Hfork Hends. by destruct (Hback Hfork Hends) as (? & ? & ?).
  - destruct Hcases as (Hcwd & pipes & k & Hlen & Hp & Hk & Hs).
    cbn [mbind res_bind and_then].
    eexists. split; [done|]. split.
    + split; [done|]. exists pipes, k. split; [done|].
      split; [rewrite Hp; simpl; rewrite pipes_of_app; simpl;
              by rewrite app_nil_r|].
      split; [done|].
      rewrite Hs, Hwired. simpl. rewrite spawns_app. simpl.
      by rewrite app_nil_r.
    + intros Hfork Hends. by destruct (Hback Hfork Hends) as (? & ? & ?).
Qed.

Lemma pipeline_of_words_runs_witness :
  exists o' pipes,
    main_round small_system only_home
      ((typed_command ls_command ++
          seps PIPE (typed_command <$> [grep_command; wc_command])) ++
       NUL :: replicate 1002 NUL) at_prompt
    = Ok (Goes_on () o') /\
    cwd o' = cwd at_prompt /\ fds o' = fds at_prompt /\
    length pipes = 2%nat /\
    pipes_of (out o') = pipes /\
    spawns (out o')
    = imap (fun i d => (Some (word_strings (command_words d)),
                        input_of pipes i, output_of pipes i))
           [ls_command; grep_command; wc_command].
Proof.
  destruct (pipeline_of_words_runs small_system only_home ls_command
              [grep_command; wc_command] (replicate 1002 NUL) at_prompt)
    as (r & Hround & Hcases & Hback).
  - apply (bool_decide_unpack _). by vm_compute.
  - apply (bool_decide_unpack _). by vm_compute.
  - apply (bool_decide_unpack _). by vm_compute.
  - apply (bool_decide_unpack _). by vm_compute.
  - reflexivity.
  - specialize (Hback (fun _ => eq_refl) (fun _ _ _ _ => eq_refl)).
    destruct r as [[] o'|code o'|o'].
    + destruct Hcases as (Hcwd & Hfds & pipes & Hlen & Hp & Hs).
      exists o', pipes.
      split; [exact Hround|]. split; [exact Hcwd|]. split; [exact Hfds|].
      split; [exact Hlen|]. split; [exact Hp|exact Hs].
    + exfalso. vm_compute in Hround. discriminate Hround.
    + destruct Hback.
Defined.

End PipelineFacts.
